(** * Grammar-based compression: a verification development

    A shallow embedding of the four smallest-grammar approximation
    algorithms of the repository (BISECTION, the exhaustive search,
    LEHMAN1 / substring construction, and Sakamoto's LEVELWISE-REPAIR),
    together with the properties their grammars enjoy.

    Conventions of the embedding.
    - A Python byte string is a [list ascii]; a slice [s[:n]] is [take n s],
      [s[n:]] is [drop n s], and [len(s)/2] is floor division on [nat]
      (the sources are Python 2, where [/] on integers is floor division).
    - A grammar is a Python dict from strings to lists of strings, hence a
      [gmap (list ascii) (list (list ascii))].  Nonterminals are named by the
      string they derive.  [d.update(e)] is the left-biased union [e ∪ d].
    - Code that may raise returns in the [res] monad.  Recursion that is not
      structural and [while] loops take fuel; running out of fuel is the
      outcome [Raise OutOfFuel] and every entry point supplies a fuel that
      is shown to suffice.
    - A read [l[i]] whose index is drawn from an [xrange] bounded by [len(l)]
      is the total lookup [l !!! i]; every other indexing goes through
      [index], which raises [IndexError] out of range. *)

From Stdlib Require Import ZArith Ascii String List Lia.
From stdpp Require Import base option list gmap strings sorting.

Open Scope nat_scope.

(** ** Python strings *)

Abbreviation str := (list ascii).
Abbreviation grammar := (gmap (list ascii) (list (list ascii))).

(** String literals of the test-suite, as lists of characters. *)
Definition py (s : string) : str := String.list_ascii_of_string s.

(** [''.join(l)] *)
Definition join (l : list str) : str := concat l.

(** [l[a:b]] for non-negative [a], [b]. *)
Definition slice {A} (a b : nat) (l : list A) : list A := take (b - a) (drop a l).

(** [list(S)], [[c for c in S]]: the one-character strings of [S]. *)
Definition chars (S : str) : list str := (fun c => [c]) <$> S.

(** [S[i]] on a string, a one-character string. *)
Definition char_at (S : str) (i : nat) : str := take 1 (drop i S).

(** ** Outcomes of a call *)

Inductive exn : Type :=
| ValueError | KeyError | IndexError | TypeError | NameError
| StringNotFound      (* lehman1: "String not found as a prefix" *)
| FUUU                (* lehman1: the closure check *)
| UnresolvedNonterminal
| OutOfFuel.

Inductive res (A : Type) : Type :=
| Ret (a : A)
| Raise (e : exn).
Arguments Ret {A} a.
Arguments Raise {A} e.

#[global] Instance res_ret : MRet res := fun A a => Ret a.
#[global] Instance res_bind : MBind res := fun A B f m =>
  match m with Ret a => f a | Raise e => Raise e end.
#[global] Instance res_fmap : FMap res := fun A B f m =>
  match m with Ret a => Ret (f a) | Raise e => Raise e end.

(** [for x in l: st = body(x, st)] where the body may raise. *)
Fixpoint forM {A St : Type} (l : list A) (body : A -> St -> res St) (st : St)
  : res St :=
  match l with
  | [] => Ret st
  | x :: l' => st' ← body x st; forM l' body st'
  end.

(** [d[k]] on a dict *)
Definition getitem `{Countable K} {V} (d : gmap K V) (k : K) : res V :=
  match d !! k with Some v => Ret v | None => Raise KeyError end.

(** The position a Python integer index denotes in a list of length [n]
    (negative indices count from the end). *)
Definition position (n : nat) (i : Z) : option nat :=
  let j := if (i <? 0)%Z then (Z.of_nat n + i)%Z else i in
  if (j <? 0)%Z then None
  else if (j <? Z.of_nat n)%Z then Some (Z.to_nat j) else None.

(** [l[i]] *)
Definition index {A} (l : list A) (i : Z) : res A :=
  match position (length l) i with
  | Some j => match l !! j with Some x => Ret x | None => Raise IndexError end
  | None => Raise IndexError
  end.

(** [l.pop(i)], keeping the shortened list only *)
Definition pop {A} (l : list A) (i : Z) : res (list A) :=
  match position (length l) i with
  | Some j => Ret (delete j l)
  | None => Raise IndexError
  end.

(** [l.insert(i, x)] for [0 <= i] *)
Definition insert_at {A} (i : nat) (x : A) (l : list A) : list A :=
  take i l ++ x :: drop i l.

(** [l.remove(x)]: drops the first occurrence, [ValueError] when absent *)
Fixpoint list_remove `{EqDecision A} (x : A) (l : list A) : res (list A) :=
  match l with
  | [] => Raise ValueError
  | y :: l' => if decide (y = x) then Ret l'
               else l'' ← list_remove x l'; Ret (y :: l'')
  end.

(** [l.count(x)] *)
Definition count_occ_of `{EqDecision A} (x : A) (l : list A) : nat :=
  length (filter (fun y => y = x) l).

(** ** The grammar model *)

(** [grammarSize] of performance.py: the sum of the lengths of all
    right-hand sides. *)
Definition grammarSize (G : grammar) : nat :=
  sum_list (length <$> (map_to_list G).*2).

(** Modelled from the spec: the expander of section 4.1 (f), which the
    repository does not contain.  A symbol of length at least two is
    replaced by the expansion of its right-hand side; a missing production
    is [UnresolvedNonterminal]. *)
Fixpoint expand (fuel : nat) (G : grammar) (sym : str) : res str :=
  match fuel with
  | 0 => Raise OutOfFuel
  | S f =>
      if decide (2 <= length sym) then
        match G !! sym with
        | None => Raise UnresolvedNonterminal
        | Some rhs =>
            forM rhs (fun v acc => e ← expand f G v; Ret (acc ++ e)) []
        end
      else Ret sym
  end.

(** [N] has [M] on its right-hand side as a nonterminal. *)
Definition derives (G : grammar) (N M : str) : Prop :=
  exists rhs, G !! N = Some rhs /\ M ∈ rhs /\ 2 <= length M.

(** No nonterminal derives itself in one or more steps. *)
Definition acyclic (G : grammar) : Prop :=
  forall N, ~ tc (derives G) N N.

(** Closure: every right-hand-side symbol of length at least two is a key. *)
Definition closed (G : grammar) : Prop :=
  forall k rhs v,
    G !! k = Some rhs -> v ∈ rhs -> 2 <= length v -> is_Some (G !! v).

(** A right-hand side spells its key out of non-empty, strictly shorter
    symbols. *)
Definition production_ok (k : str) (rhs : list str) : Prop :=
  join rhs = k /\ Forall (fun v => 1 <= length v < length k) rhs.

(** The shape shared by the grammars of all four algorithms. *)
Definition well_formed (G : grammar) : Prop :=
  map_Forall production_ok G /\ closed G.

(** A binary grammar: every right-hand side has exactly two symbols. *)
Definition binary (G : grammar) : Prop :=
  map_Forall (fun _ rhs => length rhs = 2) G.

(** ** BISECTION (bisection.py) *)

Definition bisect (T : str) : list str :=
  [take (length T / 2) T; drop (length T / 2) T].

Fixpoint _recurse (fuel : nat) (S : str) (g : grammar) : res grammar :=
  match fuel with
  | 0 => Raise OutOfFuel
  | Datatypes.S f =>
      if decide (length S <= 1) then Ret g
      else
        let g := <[S := bisect S]> g in
        g ← _recurse f (take (length S / 2) S) g;
        _recurse f (drop (length S / 2) S) g
  end.

Definition getBisectionGrammar (S : str) : res grammar :=
  _recurse (Datatypes.S (length S)) S ∅.

(** The strings the recursion of [getBisectionGrammar] visits, following the
    specification: the input, and both halves of every visited string of
    length at least two. *)
Inductive visited : str -> str -> Prop :=
| visited_here S : visited S S
| visited_left S T :
    2 <= length S -> visited (take (length S / 2) S) T -> visited S T
| visited_right S T :
    2 <= length S -> visited (drop (length S / 2) S) T -> visited S T.

(** ** The exhaustive search (exhaustive.py) *)

(** The generator, as the list of the grammars it yields, in order. *)
Fixpoint generateAllGrammars (fuel : nat) (goal : str) : res (list grammar) :=
  match fuel with
  | 0 => Raise OutOfFuel
  | S f =>
      if decide (length goal = 1) then Ret [∅]
      else
        forM (seq 1 (length goal - 1))
          (fun i acc =>
             let left := take i goal in
             let right := drop i goal in
             gs ← generateAllGrammars f left;
             hs ← generateAllGrammars f right;
             Ret (acc ++
                  (g ← gs; h ← hs;
                   (* G = {goal: [left, right]}; G.update(h); G.update(g) *)
                   [g ∪ (h ∪ {[goal := [left; right]]})])))
          []
  end.

(** [max(l)] on integers *)
Definition py_max (l : list nat) : res nat :=
  match l with
  | [] => Raise ValueError
  | x :: l' => Ret (foldl Nat.max x l')
  end.

Fixpoint mapR {A B} (f : A -> res B) (l : list A) : res (list B) :=
  match l with
  | [] => Ret []
  | x :: l' => y ← f x; ys ← mapR f l'; Ret (y :: ys)
  end.

Fixpoint stageCount (fuel : nat) (G : grammar) (s : str) : res nat :=
  match fuel with
  | 0 => Raise OutOfFuel
  | S f =>
      match G !! s with
      | None => Ret 0
      | Some rhs => l ← mapR (stageCount f G) rhs; m ← py_max l; Ret (m + 1)
      end
  end.

(** Python's order on pairs of integers *)
Definition pair_ltb (a b : nat * nat) : bool :=
  (a.1 <? b.1) || ((a.1 =? b.1) && (a.2 <? b.2)).

(** [min(l, key=...)] over already keyed elements: the first element whose
    key is minimal. *)
Fixpoint min_by_key {A} (cur : A * (nat * nat)) (l : list (A * (nat * nat)))
  : A :=
  match l with
  | [] => cur.1
  | x :: l' => min_by_key (if pair_ltb x.2 cur.2 then x else cur) l'
  end.

Definition getExhaustiveGrammar (S : str) : res grammar :=
  gs ← generateAllGrammars (Datatypes.S (length S)) S;
  keyed ← mapR (fun G => c ← stageCount (Datatypes.S (length S)) G S;
                         Ret (G, (size G, c))) gs;
  match keyed with
  | [] => Raise ValueError
  | x :: l => Ret (min_by_key x l)
  end.

(** ** The superstring kernel (lehman1.py) *)

(** Python's order on triples of integers, and [max(a, b)], which keeps [a]
    unless [b] is greater. *)
Definition triple_ltb (a b : nat * nat * nat) : bool :=
  let '(a1, a2, a3) := a in
  let '(b1, b2, b3) := b in
  (a1 <? b1) || ((a1 =? b1) && ((a2 <? b2) || ((a2 =? b2) && (a3 <? b3)))).

Definition triple_max (a b : nat * nat * nat) : nat * nat * nat :=
  if triple_ltb a b then b else a.

Definition computeOverlap (s1 s2 : str) : nat * nat * nat :=
  foldl (fun max_overlap i =>
           (* s1[-i:] == s2[:i] *)
           if decide (drop (length s1 - i) s1 = take i s2)
           then triple_max max_overlap (i, length s1 - i, 0)
           else max_overlap)
        (0, length s1, 0)
        (seq 1 (length s1 `min` length s2 - 1)).

(** The running maximum of [pairWithMaximumOverlap] is a triple
    [(overlap, i, j)] that starts as [(-1, None, None)].  Python 2 orders
    [None] below every integer. *)
Definition none_ltb (a b : option nat) : bool :=
  match a, b with
  | None, Some _ => true
  | Some x, Some y => x <? y
  | _, _ => false
  end.

Definition otriple_ltb (a b : Z * option nat * option nat) : bool :=
  let '(a1, a2, a3) := a in
  let '(b1, b2, b3) := b in
  (a1 <? b1)%Z ||
  ((a1 =? b1)%Z &&
   (none_ltb a2 b2 || (bool_decide (a2 = b2) && none_ltb a3 b3))).

Definition otriple_max (a b : Z * option nat * option nat) :=
  if otriple_ltb a b then b else a.

Definition maxOverlapTriple (Ss : list str) : Z * option nat * option nat :=
  foldl (fun max_overlap i =>
           foldl (fun max_overlap j =>
                    otriple_max max_overlap
                      (Z.of_nat (computeOverlap (Ss !!! i) (Ss !!! j)).1.1,
                       Some i, Some j))
                 max_overlap
                 (seq (i + 1) (length Ss - (i + 1))))
        ((-1)%Z, None, None)
        (seq 0 (length Ss)).

(** Indexing a list with [None] is a [TypeError]. *)
Definition pairWithMaximumOverlap (Ss : list str) : res (str * str) :=
  match maxOverlapTriple Ss with
  | (_, Some i, Some j) =>
      a ← index Ss (Z.of_nat i); b ← index Ss (Z.of_nat j); Ret (a, b)
  | _ => Raise TypeError
  end.

(** The index pairs [(i, j)], [i < j], in the order the nested loops of
    [pairWithMaximumOverlap] visit them. *)
Definition scanned_pairs (Ss : list str) : list (nat * nat) :=
  i ← seq 0 (length Ss); j ← seq (i + 1) (length Ss - (i + 1)); [(i, j)].

(** The overlap [computeOverlap] finds for the strings at a pair of
    positions. *)
Definition pair_overlap (Ss : list str) (p : nat * nat) : nat :=
  (computeOverlap (Ss !!! p.1) (Ss !!! p.2)).1.1.

(** Modelled from the spec: the pair a first-found tie-break (section 4.4)
    would choose, namely the first pair in scan order whose overlap is the
    maximum over all pairs. *)
Definition firstPairWithMaximumOverlap (Ss : list str) : option (nat * nat) :=
  let best := max_list (pair_overlap Ss <$> scanned_pairs Ss) in
  snd <$> list_find (fun p => pair_overlap Ss p = best) (scanned_pairs Ss).

(** One round of the merge loop of [blumSmallestSuperstringAndBreaking]. *)
Definition blum_step (strings : list str) (idx : gmap str (list nat))
  : res (list str * gmap str (list nat)) :=
  '(s1, s2) ← pairWithMaximumOverlap strings;
  strings ← list_remove s1 strings;
  strings ← list_remove s2 strings;
  let overlap := computeOverlap s1 s2 in
  let merged := take overlap.1.2 s1 ++ s2 in
  let strings := strings ++ [merged] in
  let idx := match idx !! merged with
             | Some _ => idx
             | None => <[merged := []]> idx
             end in
  old ← getitem idx merged;
  i1 ← getitem idx s1;
  i2 ← getitem idx s2;
  Ret (strings,
       <[merged := old ++ (i1 ++ ((fun i => i + overlap.1.2) <$> i2))]> idx).

Fixpoint blum_loop (fuel : nat) (strings : list str)
    (idx : gmap str (list nat)) : res (list str * gmap str (list nat)) :=
  if decide (1 < length strings) then
    match fuel with
    | 0 => Raise OutOfFuel
    | S f => '(strings, idx) ← blum_step strings idx; blum_loop f strings idx
    end
  else Ret (strings, idx).

(** [list(set(l))] followed by [.sort()] *)
Definition sorted_set (l : list nat) : list nat :=
  merge_sort le (remove_dups l).

Definition break_at (superstring : str) (substringIndices : list nat)
  : list str :=
  (fun '(a, b) => slice a b superstring)
    <$> zip (take (length substringIndices - 1) substringIndices)
            (drop 1 substringIndices).

Definition blumSmallestSuperstringAndBreaking (Ss : list str)
  : res (list str) :=
  let idx := foldl (fun idx s => <[s := [0]]> idx) ∅ Ss in
  '(strings, idx) ← blum_loop (length Ss) Ss idx;
  superstring ← index strings 0;
  substringIndices ← getitem idx superstring;
  let substringIndices :=
    sorted_set ([0] ++ substringIndices ++ [length superstring]) in
  Ret (break_at superstring substringIndices).

Definition splitTooBigs (strings : list str) (split_len : nat) : list str :=
  s ← strings;
  if decide (split_len < length s)
  then [take (length s / 2) s; drop (length s / 2) s]
  else [s].

(** ** LEHMAN1 (lehman1.py) *)

Fixpoint generateCs_loop (fuel k : nat) (Cs : list (list str))
  : res (list (list str)) :=
  if decide (2 <= k) then
    match fuel with
    | 0 => Raise OutOfFuel
    | S f =>
        last ← index Cs (-1);
        pk ← blumSmallestSuperstringAndBreaking last;
        generateCs_loop f (k / 2) (Cs ++ [splitTooBigs pk k])
    end
  else Ret Cs.

(** [k = 2**(int(math.ceil(math.log(n, 2))) - 1)], from the value [c] of
    [int(math.ceil(math.log(n, 2)))].  For [c = 0] Python computes
    [2**-1 = 0.5]; the value is only ever compared with 2, so 0 stands for
    it. *)
Definition initial_k (c : nat) : nat :=
  if decide (c = 0) then 0 else 2 ^ (c - 1).

(** [math.log] works in floating point, so close to a power of two
    [int(math.ceil(math.log(n, 2)))] need not be the exact ceiling of the
    logarithm ([Nat.log2_up]); [ceil_log2] stands for the function Python
    computes, of which nothing is assumed.  [math.log(0, 2)] is a
    [ValueError]. *)
Definition generateCs (ceil_log2 : nat -> nat) (S : str)
  : res (list (list str)) :=
  if decide (length S = 0) then Raise ValueError
  else
    let k := initial_k (ceil_log2 (length S)) in
    generateCs_loop k k [[S]].

Definition findPrefixStart (s : str) (small_strings : list str) : res nat :=
  match list_find (fun i => s = take (length s) (join (drop i small_strings)))
                  (seq 0 (length small_strings)) with
  | Some (_, i) => Ret i
  | None => Raise StringNotFound
  end.

(** The [while] loop of [findLongestPrefix], walking the segments from
    [sPrefixStart] on. *)
Fixpoint consume (l : list str) (sPrefixEnd remSLen : nat) : nat * nat :=
  match l with
  | [] => (sPrefixEnd, remSLen)
  | x :: l' =>
      if decide (length x <= remSLen)
      then consume l' (sPrefixEnd + 1) (remSLen - length x)
      else (sPrefixEnd, remSLen)
  end.

Definition findLongestPrefix (s : str) (small_strings : list str)
  : res (nat * nat * nat) :=
  sPrefixStart ← findPrefixStart s small_strings;
  let '(sPrefixEnd, remSLen) :=
    consume (drop sPrefixStart small_strings) sPrefixStart (length s) in
  Ret (sPrefixStart, sPrefixEnd, length s - remSLen).

Fixpoint recursiveCall (fuel : nat) (S : list str) (g : grammar)
  : res grammar :=
  match fuel with
  | 0 => Raise OutOfFuel
  | Datatypes.S f =>
      if decide (length S = 1) then Ret g
      else
        let mid := length S / 2 in
        let g :=
          foldl (fun g i =>
                   <[join (slice i mid S) :=
                       [S !!! i; join (slice (i + 1) mid S)]]> g)
                g (seq 0 (mid - 1)) in
        let g :=
          foldl (fun g i =>
                   <[join (slice mid (i + 1) S) :=
                       [join (slice mid i S); S !!! i]]> g)
                g (seq (mid + 1) (length S - (mid + 1))) in
        g ← recursiveCall f (take mid S) g;
        recursiveCall f (drop mid S) g
  end.

Definition generateSubstringConstructionGrammar (S : list str) : res grammar :=
  recursiveCall (Datatypes.S (length S)) S ∅.

(** [grammar[s].append(x)]; the key [s] is present wherever this is used. *)
Definition rhs_append (s : str) (xs : list str) (g : grammar) : grammar :=
  alter (fun rhs => rhs ++ xs) s g.

(** The [for split in xrange(start + 1, end)] loop with its [break]; it
    leaves [half1], [half2] as computed last.  The loop is entered only when
    [start + 3 <= end], so it runs at least once. *)
Fixpoint find_split (C : list str) (g : grammar) (start end_ : nat)
    (splits : list nat) (halves : option (str * str)) : option (str * str) :=
  match splits with
  | [] => halves
  | split :: rest =>
      let half1 := join (slice start split C) in
      let half2 := join (slice split end_ C) in
      if (bool_decide (split = start + 1) || bool_decide (is_Some (g !! half1)))
         && (bool_decide (split = end_ - 1) || bool_decide (is_Some (g !! half2)))
      then Some (half1, half2)
      else find_split C g start end_ rest (Some (half1, half2))
  end.

(** The body of [for C in Cs[i+1:]] for the string [s]. *)
Definition stitch_level (s : str) (C : list str) (st : grammar * str)
  : res (grammar * str) :=
  let '(g, sRemainder) := st in
  '(start, end_, used) ← findLongestPrefix sRemainder C;
  if decide (start = end_) then Ret (g, sRemainder)
  else if decide (start + 1 = end_) then
    c ← index C (Z.of_nat start);
    Ret (rhs_append s [c] g, drop used sRemainder)
  else if decide (start + 2 = end_) then
    c0 ← index C (Z.of_nat start);
    c1 ← index C (Z.of_nat (start + 1));
    Ret (rhs_append s [c1] (rhs_append s [c0] g), drop used sRemainder)
  else
    match find_split C g start end_
            (seq (start + 1) (end_ - (start + 1))) None with
    | None => Raise NameError
    | Some (half1, half2) =>
        Ret (rhs_append s [half2] (rhs_append s [half1] g),
             drop used sRemainder)
    end.

(** The body of [for j in xrange(len(Cs[i]))], with [rest = Cs[i+1:]]. *)
Definition stitch (rest : list (list str)) (s : str) (g : grammar)
  : res grammar :=
  if decide (length s = 1) then Ret g
  else
    '(g, sRemainder) ← forM rest (stitch_level s) (<[s := []]> g, s);
    Ret (rhs_append s (chars sRemainder) g).

(** [for i in xrange(0, len(Cs))], walking [Cs] together with its tails. *)
Fixpoint stitch_all (Cs : list (list str)) (g : grammar) : res grammar :=
  match Cs with
  | [] => Ret g
  | C :: rest => g ← forM C (stitch rest) g; stitch_all rest g
  end.

(** The final check of [getLehman1Grammar]. *)
Definition closure_check (g : grammar) : res grammar :=
  if bool_decide
       (map_Forall (fun _ rhs =>
          Forall (fun v => 1 < length v -> is_Some (g !! v)) rhs) g)
  then Ret g else Raise FUUU.

Definition getLehman1Grammar (ceil_log2 : nat -> nat) (S : str)
  : res grammar :=
  Cs ← generateCs ceil_log2 S;
  g ← forM Cs (fun C g =>
                 g' ← generateSubstringConstructionGrammar C; Ret (g' ∪ g)) ∅;
  g' ← generateSubstringConstructionGrammar (chars S);
  g ← stitch_all Cs (g' ∪ g);
  closure_check g.

(** ** Sakamoto's LEVELWISE-REPAIR (sakamoto.py) *)

Definition produceTrivialGrammar (w : list str) : grammar :=
  foldl (fun P i =>
           <[join (take i w) := [join (take (i - 1) w); w !!! (i - 1)]]> P)
        ∅ (seq 2 (length w + 1 - 2)).

(** [(w[i], w[i+1])] for [i in xrange(len(w) - 1)] *)
Definition adjacent_pairs (w : list str) : list (str * str) :=
  (fun i => (w !!! i, w !!! (i + 1))) <$> seq 0 (length w - 1).

Fixpoint hasRepeatingPairs_loop (pairs : list (str * str))
    (sequences : gset (str * str)) : bool :=
  match pairs with
  | [] => false
  | p :: rest =>
      if decide (p ∈ sequences) then true
      else hasRepeatingPairs_loop rest ({[p]} ∪ sequences)
  end.

Definition hasRepeatingPairs (w : list str) : bool :=
  hasRepeatingPairs_loop (adjacent_pairs w) ∅.

(** The inner [while] of [findMaxRepeating]: [j] advances over the symbols
    equal to [w[i]]. *)
Fixpoint run_end (a : str) (l : list str) (j : nat) : nat :=
  match l with
  | [] => j
  | x :: l' => if decide (x = a) then run_end a l' (j + 1) else j
  end.

Definition findMaxRepeating (w : list str) (i : nat) : nat * nat :=
  (i, run_end (w !!! i) (drop (i + 1) w) (i + 1) - 1).

Definition hasRepeatingSymbol (w : list str) : option (nat * nat) :=
  if decide (length w < 2) then None
  else
    snd <$> list_find (fun r : nat * nat => r.1 <> r.2)
                      (findMaxRepeating w <$> seq 0 (length w - 1)).

Fixpoint produceRepeatingSymbolGrammar (fuel : nat) (P : grammar) (S : str)
  : res grammar :=
  match fuel with
  | 0 => Raise OutOfFuel
  | Datatypes.S f =>
      if decide (length S = 2) then
        Ret (<[S := [char_at S 0; char_at S 1]]> P)
      else if decide (length S mod 2 = 0) then
        let rhs1 := take (length S / 2) S in
        let rhs2 := drop (length S / 2) S in
        let P := <[S := [rhs1; rhs2]]> P in
        P ← produceRepeatingSymbolGrammar f P rhs1;
        produceRepeatingSymbolGrammar f P rhs2
      else
        let rhs1 := take (length S - 1) S in
        let rhs2 := char_at S (length S - 1) in
        let P := <[S := [rhs1; rhs2]]> P in
        produceRepeatingSymbolGrammar f P rhs1
  end.

(** [s * n] on strings *)
Definition str_repeat (s : str) (n : nat) : str := concat (replicate n s).

Fixpoint repetition_loop (fuel : nat) (w : list str) (P : grammar)
  : res (list str * grammar) :=
  match hasRepeatingSymbol w with
  | None => Ret (w, P)
  | Some (i, j) =>
      match fuel with
      | 0 => Raise OutOfFuel
      | S f =>
          wi ← index w (Z.of_nat i);
          let A_a_j := str_repeat wi (j - i + 1) in
          w ← forM (seq i (j + 1 - i)) (fun _ w => pop w (Z.of_nat i)) w;
          let w := insert_at i A_a_j w in
          P ← produceRepeatingSymbolGrammar (length A_a_j) P A_a_j;
          repetition_loop f w P
      end
  end.

(** [repetition] rewrites [w] in place and returns [P]; here it returns
    both. *)
Definition repetition (w : list str) : res (list str * grammar) :=
  repetition_loop (length w) w ∅.

(** Python's order on byte strings and on the tuples
    [(count, (a, b))] that [createSortedSegmentList] sorts. *)
Fixpoint str_compare (a b : str) : comparison :=
  match a, b with
  | [], [] => Eq
  | [], _ :: _ => Lt
  | _ :: _, [] => Gt
  | x :: a', y :: b' =>
      match Nat.compare (nat_of_ascii x) (nat_of_ascii y) with
      | Eq => str_compare a' b'
      | c => c
      end
  end.

Definition segment_compare (x y : nat * (str * str)) : comparison :=
  match Nat.compare x.1 y.1 with
  | Eq => match str_compare x.2.1 y.2.1 with
          | Eq => str_compare x.2.2 y.2.2
          | c => c
          end
  | c => c
  end.

Definition segment_le (x y : nat * (str * str)) : Prop :=
  segment_compare x y <> Gt.

#[global] Instance segment_le_dec : RelDecision segment_le.
Proof. intros x y. unfold segment_le. apply _. Defined.

(** The three sets of an arrangement round are told apart by identity
    ([X is Free], ...). *)
Inductive which_set : Type := IsFree | IsLeft | IsRight.

(** The strings [subgroup], [group_contents] and [check_all] return, and
    Python's [None] for the paths that fall off the end. *)
Inductive label : Type :=
| irregular | unselected | selected | other | no_label.

#[global] Instance label_eq_dec : EqDecision label.
Proof. solve_decision. Defined.

Section Sakamoto.

(** The order in which a [for] loop visits a set or a dict is left open
    by Python; [pyiter] stands for it, as a function of the elements
    held.  The theorems on this section range over every such function
    that returns a permutation of its argument. *)
Variable pyiter : forall A : Type, list A -> list A.

Definition set_iter `{Countable A} (s : gset A) : list A :=
  pyiter A (elements s).

Definition dict_items `{Countable K} {V} (d : gmap K V) : list (K * V) :=
  pyiter (K * V) (map_to_list d).

Definition createSortedSegmentList (w : list str)
  : list (nat * (str * str)) :=
  let segmentCounts :=
    foldl (fun (m : gmap (str * str) nat) segment =>
             match m !! segment with
             | Some c => <[segment := c + 1]> m
             | None => <[segment := 1]> m
             end) ∅ (adjacent_pairs w) in
  let segmentList :=
    (fun '(segment, c) => (c, segment)) <$> dict_items segmentCounts in
  reverse (merge_sort segment_le segmentList).

Definition make_set_c (seg : str * str) (w : list str) : gset (Z * Z) :=
  foldl (fun C i =>
           if decide ((w !!! i, w !!! (i + 1)) = seg)
           then {[(Z.of_nat i, Z.of_nat (i + 1))]} ∪ C else C)
        ∅ (seq 0 (length w - 1)).

(** [make_sets] fills the three sets it is handed; here it returns
    them as [(F, L, R)]. *)
Definition make_sets (w : list str) (C F L R : gset (Z * Z))
    (Assignments : gmap (Z * Z) nat)
  : gset (Z * Z) * gset (Z * Z) * gset (Z * Z) :=
  foldl (fun '(F, L, R) (i : Z * Z) =>
           if decide ((i.1 - 1 > 0)%Z
                      /\ is_Some (Assignments !! ((i.1 - 1)%Z, i.1)))
           then (F, {[i]} ∪ L, R)
           else if decide ((i.1 + 2 < Z.of_nat (length w))%Z
                      /\ is_Some (Assignments !! ((i.1 + 1)%Z, (i.1 + 2)%Z)))
           then (F, L, {[i]} ∪ R)
           else ({[i]} ∪ F, L, R))
        (F, L, R) (set_iter C).

Definition subgroup (a : Z * Z) (assignments D : gmap (Z * Z) nat)
  : res label :=
  index ← getitem assignments a;
  let '(inD, ninD) :=
    foldl (fun '(inD, ninD) '(x, y) =>
             if decide (y = index) then
               (if decide (is_Some (D !! x)) then true else inD,
                if decide (~ is_Some (D !! x)) then true else ninD)
             else (inD, ninD))
          (false, false) (dict_items assignments) in
  Ret (if inD && ninD then irregular
       else if negb inD && ninD then unselected
       else if inD && negb ninD then selected
       else no_label).

Definition group_contents (seg : Z * Z) (w : list str)
    (assignments dictionary : gmap (Z * Z) nat) : res label :=
  otherseg ←
    forM (dict_items assignments)
      (fun '(x, y) otherseg =>
         if decide (x.1 = seg.1 /\ x.2 = seg.2) then
           a ← getitem assignments seg;
           Ret (if decide (y <> a) then x else otherseg)
         else Ret otherseg)
      seg;
  c ← subgroup otherseg assignments dictionary;
  if decide (c = irregular) then Ret irregular
  else
    c ← subgroup otherseg assignments dictionary;
    if decide (c = unselected) then Ret unselected else Ret no_label.

(** The neighbour an occurrence is fixed by: [(x-1, x)] in the [Left]
    branches, [(y, y+1)] in the [Right] ones. *)
Definition neighbour (X : which_set) (xy : Z * Z) : Z * Z :=
  match X with
  | IsLeft => ((xy.1 - 1)%Z, xy.1)
  | _ => (xy.2, (xy.2 + 1)%Z)
  end.

Fixpoint check_all_loop (X : which_set) (a : list (Z * Z))
    (assignments dictionary : gmap (Z * Z) nat) : res label :=
  match a with
  | [] => Ret other
  | xy :: rest =>
      c ← subgroup (neighbour X xy) assignments dictionary;
      if decide (c = irregular) then Ret irregular
      else check_all_loop X rest assignments dictionary
  end.

Definition check_all (X : which_set) (a : gset (Z * Z))
    (assignments dictionary : gmap (Z * Z) nat) : res label :=
  check_all_loop X (set_iter a) assignments dictionary.

(** The body of the [for x, y in Left] loop of [assignment]; the
    [for x, y in Right] loop is the same code with the other neighbour
    and [seq = (x, x+1)]. *)
Definition assign_fixed (X : which_set) (a : gset (Z * Z)) (d1 d2 : nat)
    (w : list str) (dictionary : gmap (Z * Z) nat) (xy : Z * Z)
    (st : gmap (Z * Z) nat * gmap (Z * Z) nat)
  : res (gmap (Z * Z) nat * gmap (Z * Z) nat) :=
  let '(assignments, D) := st in
  let nb := neighbour X xy in
  let seq := match X with
             | IsLeft => (xy.1, xy.2)
             | _ => (xy.1, (xy.1 + 1)%Z)
             end in
  c ← subgroup nb assignments dictionary;
  let assignments :=
    if decide (c = irregular) then <[seq := d2]> assignments
    else assignments in
  c ← subgroup nb assignments dictionary;
  let '(assignments, D) :=
    if decide (c = unselected)
    then (<[seq := d1]> assignments, <[seq := d1]> D)
    else (assignments, D) in
  c ← subgroup nb assignments dictionary;
  if decide (c = selected) then
    gc ← group_contents nb w assignments dictionary;
    if decide (gc = irregular) then Ret (<[seq := d2]> assignments, D)
    else
      gc ← group_contents nb w assignments dictionary;
      if decide (gc = unselected) then Ret (<[seq := d1]> assignments, D)
      else
        ca ← check_all X a assignments dictionary;
        if decide (ca = irregular) then Ret (<[seq := d2]> assignments, D)
        else Ret (<[seq := d1]> assignments, D)
  else Ret (assignments, D).

(** [assignment] updates [assignments] in place and returns a fresh
    dict [D]; here it returns both. *)
Definition assignment (X : which_set) (Free Left Right : gset (Z * Z))
    (assignments : gmap (Z * Z) nat) (d1 d2 : nat) (w : list str)
    (dictionary : gmap (Z * Z) nat)
  : res (gmap (Z * Z) nat * gmap (Z * Z) nat) :=
  match X with
  | IsFree =>
      Ret (foldl (fun '(assignments, D) x =>
                    (<[x := d1]> assignments, <[x := d1]> D))
                 (assignments, ∅) (set_iter Free))
  | IsLeft =>
      forM (set_iter Left) (assign_fixed IsLeft Left d1 d2 w dictionary)
           (assignments, ∅)
  | IsRight =>
      forM (set_iter Right) (assign_fixed IsRight Right d1 d2 w dictionary)
           (assignments, ∅)
  end.

(** The body of the [while len(L) > 0] loop of [arrangement]. *)
Definition arrangement_round (w : list str) (segment : str * str)
    (st : gset nat * gmap (Z * Z) nat * gmap (Z * Z) nat)
  : res (gset nat * gmap (Z * Z) nat * gmap (Z * Z) nat) :=
  let '(ID, Assignments, D) := st in
  let id1 := size ID in
  let ID := {[id1]} ∪ ID in
  let id2 := id1 + 1 in
  let ID := {[id2]} ∪ ID in
  let C := make_set_c segment w in
  let '(Free, Left, Right) := make_sets w C ∅ ∅ ∅ Assignments in
  '(Assignments, D') ←
    assignment IsFree Free Left Right Assignments id1 id2 w D;
  let D := D' ∪ D in
  '(Assignments, D') ←
    assignment IsLeft Free Left Right Assignments id1 id2 w D;
  let D := D' ∪ D in
  '(Assignments, D') ←
    assignment IsRight Free Left Right Assignments id1 id2 w D;
  let D := D' ∪ D in
  Ret (ID, Assignments, D).

(** [while values.count(v) > 1: values.remove(v)] *)
Fixpoint remove_extra (fuel : nat) (v : nat) (values : list nat)
  : res (list nat) :=
  if decide (1 < count_occ_of v values) then
    match fuel with
    | 0 => Raise OutOfFuel
    | S f => values ← list_remove v values; remove_extra f v values
    end
  else Ret values.

(** [for v in values: ...] while the body shrinks [values]: the loop
    reads position [pos] of the current list and stops at its end. *)
Fixpoint remove_duplicates (fuel pos : nat) (values : list nat)
  : res (list nat) :=
  match values !! pos with
  | None => Ret values
  | Some v =>
      match fuel with
      | 0 => Raise OutOfFuel
      | S f =>
          values ← remove_extra (length values) v values;
          remove_duplicates f (pos + 1) values
      end
  end.

(** The body of [for s in segments]. *)
Definition replace_segment (s : str * str) (st : list str * grammar)
  : res (list str * grammar) :=
  let '(w, P) := st in
  let locs :=
    filter (fun i => (w !!! i, w !!! (i + 1)) = s) (seq 0 (length w - 1)) in
  let w := foldl (fun w l => <[l := s.1 ++ s.2]> w) w locs in
  w ← forM (seq 0 (length locs))
        (fun li w =>
           pop w (Z.of_nat (locs !!! li) - Z.of_nat li + 1)%Z) w;
  Ret (w, <[s.1 ++ s.2 := [s.1; s.2]]> P).

(** [arrangement] rewrites [w] and [ID] in place and returns [P]; here
    it returns all three. *)
Definition arrangement (w : list str) (ID : gset nat)
  : res (list str * gset nat * grammar) :=
  let L := createSortedSegmentList w in
  '(ID, Assignments, D) ←
    forM (snd <$> L) (arrangement_round w) (ID, ∅, ∅);
  let values := snd <$> dict_items D in
  values ← remove_duplicates (length values) 0 values;
  segments ←
    forM values
      (fun v segments =>
         forM (dict_items D)
           (fun '(x, d) (segments : gset (str * str)) =>
              if decide (d = v) then
                a ← index w x.1; b ← index w x.2;
                Ret ({[(a, b)]} ∪ segments)
              else Ret segments)
           segments)
      ∅;
  '(w, P) ← forM (set_iter segments) replace_segment (w, ∅);
  Ret (w, ID, P).

Fixpoint levelwiseRepair_loop (fuel : nat) (w : list str) (P : grammar)
    (ID : gset nat) : res (list str * grammar) :=
  if hasRepeatingPairs w then
    match fuel with
    | 0 => Raise OutOfFuel
    | S f =>
        '(w, P') ← repetition w;
        let P := P' ∪ P in
        '(w, ID, P') ← arrangement w ID;
        let P := P' ∪ P in
        levelwiseRepair_loop f w P ID
    end
  else Ret (w, P).

Definition levelwiseRepair (w : list str) : res grammar :=
  '(w', P) ← levelwiseRepair_loop (length w) w ∅ ∅;
  if decide (length w' = 1) then Ret P
  else Ret (produceTrivialGrammar w' ∪ P).

Definition getSakamotoGrammar (S : str) : res grammar :=
  levelwiseRepair (chars S).

End Sakamoto.

(** * Predicates of the proofs

    Shapes of grammars, loop invariants and auxiliary functions that the
    statements below are phrased with. *)

(** What every grammar the generator yields for [goal] satisfies. *)
Definition tree_grammar (goal : str) (G : grammar) : Prop :=
  well_formed G /\ binary G /\ (2 <= length goal -> is_Some (G !! goal)).

(** Triples [(overlap, i, j)] as integer triples, [None] below every
    index. *)
Definition rank (o : option nat) : Z :=
  match o with None => (-1)%Z | Some n => Z.of_nat n end.

Definition triple_below (a b : Z * option nat * option nat) : Prop :=
  (a.1.1 < b.1.1
   \/ (a.1.1 = b.1.1
       /\ (rank a.1.2 < rank b.1.2
           \/ (rank a.1.2 = rank b.1.2 /\ rank a.2 < rank b.2))))%Z.

(** A dict of binary productions of the right shape whose right-hand-side
    nonterminals are keys already or are still owed ([pend]). *)
Definition pre_grammar (pend : str -> Prop) (P : grammar) : Prop :=
  map_Forall production_ok P /\ binary P
  /\ forall k rhs v, P !! k = Some rhs -> v ∈ rhs -> 2 <= length v ->
       is_Some (P !! v) \/ pend v.

(** No two neighbours of [w] are the same symbol. *)
Definition no_adjacent_equal (w : list str) : Prop :=
  forall i a b, w !! i = Some a -> w !! S i = Some b -> a <> b.

(** A position pair [(i, i+1)] inside [w]. *)
Definition valid_pos (w : list str) (x : Z * Z) : Prop :=
  exists i, x = (Z.of_nat i, Z.of_nat (i + 1)) /\ i + 1 < length w.

(** [As'] binds every key [As] binds. *)
Definition grows (As As' : gmap (Z * Z) nat) : Prop :=
  forall k, is_Some (As !! k) -> is_Some (As' !! k).

(** The occurrence an iteration of the [Left] or [Right] loop labels. *)
Definition labelled (X : which_set) (xy : Z * Z) : Z * Z :=
  match X with
  | IsLeft => (xy.1, xy.2)
  | _ => (xy.1, (xy.1 + 1)%Z)
  end.

(** [for l in locs: w[l] = t] *)
Definition set_all (t : str) (w : list str) (ps : list nat) : list str :=
  foldl (fun w l => <[l := t]> w) w ps.

(** Position [q] of [w] starts an occurrence of a pair spelling [t]. *)
Definition pair_at (t : str) (w : list str) (q : nat) : Prop :=
  exists a b, w !! q = Some a /\ w !! S q = Some b /\ a ++ b = t.

(** What the outer loop maintains about [w] and [P]. *)
Definition repair_invariant (w : list str) (P : grammar) : Prop :=
  Forall (fun a => 1 <= length a) w
  /\ well_formed P /\ binary P
  /\ forall a, a ∈ w -> 2 <= length a -> is_Some (P !! a).

(** [s] begins at a segment boundary of [C]: it is a prefix of what the
    segments spell from some segment on. *)
Definition starts_in (s : str) (C : list str) : Prop :=
  exists j, j < length C /\ s `prefix_of` join (drop j C).

(** The state of the merge loop: every working string has its list of
    offsets, offsets lie inside their string, and every input string
    starts at a recorded offset of some working string. *)
Definition blum_invariant (Ss strings : list str) (idx : gmap str (list nat))
  : Prop :=
  Forall (fun t => 1 <= length t) strings
  /\ strings <> []
  /\ (forall t, t ∈ strings -> is_Some (idx !! t))
  /\ (forall t l, idx !! t = Some l -> Forall (fun p => p <= length t) l)
  /\ (forall s, s ∈ Ss ->
        exists t l p, t ∈ strings /\ idx !! t = Some l /\ p ∈ l
                      /\ s `prefix_of` drop p t).

(** The hierarchy of levels: every level is a non-empty list of non-empty
    strings, and every string of a level starts at a boundary of the
    next. *)
Definition levels_ok (Cs : list (list str)) : Prop :=
  (forall C, C ∈ Cs -> C <> [] /\ Forall (fun s => 1 <= length s) C)
  /\ forall i C C', Cs !! i = Some C -> Cs !! S i = Some C' ->
       forall s, s ∈ C -> starts_in s C'.

(** A production of the substring construction over the segments [S]:
    two non-empty symbols spelling the key, each a segment of [S] or a
    key of [g]. *)
Definition sc_production (S : list str) (g : grammar) (k : str)
    (rhs : list str) : Prop :=
  exists x y, rhs = [x; y] /\ x ++ y = k
    /\ 1 <= length x /\ 1 <= length y
    /\ (x ∈ S \/ is_Some (g !! x)) /\ (y ∈ S \/ is_Some (g !! y)).

(** Every range of three or more segments of [C] splits into two parts
    that are single segments or keys of [g]. *)
Definition has_splits (g : grammar) (C : list str) : Prop :=
  forall a b, a + 3 <= b -> b <= length C ->
    exists m, a < m < b
      /\ (m = a + 1 \/ is_Some (g !! join (slice a m C)))
      /\ (m = b - 1 \/ is_Some (g !! join (slice m b C))).

(** A place where the range [start, end_) of [C] may be cut. *)
Definition split_ok (C : list str) (g : grammar) (start end_ m : nat) : Prop :=
  (m = start + 1 \/ is_Some (g !! join (slice start m C)))
  /\ (m = end_ - 1 \/ is_Some (g !! join (slice m end_ C))).

(** A symbol is non-empty and, when longer than one character, is bound
    already or is one of the strings [pend] still to be stitched. *)
Definition sym_ok (pend : str -> Prop) (g : grammar) (v : str) : Prop :=
  1 <= length v /\ (2 <= length v -> is_Some (g !! v) \/ pend v).

(** A production in the grammar under construction: it spells its key
    and has two symbols or more, unless its key is still to be stitched. *)
Definition key_ok (pend : str -> Prop) (g : grammar) (k : str)
    (rhs : list str) : Prop :=
  2 <= length k /\ join rhs = k /\ (2 <= length rhs \/ pend k)
  /\ Forall (sym_ok pend g) rhs.

Definition linv (pend : str -> Prop) (g : grammar) : Prop :=
  forall k rhs, g !! k = Some rhs -> key_ok pend g k rhs.

(** The state of the loop over the deeper levels while [s] is stitched:
    the production of [s] so far and the remainder spell [s]. *)
Definition stitching (s : str) (pend : str -> Prop) (g : grammar)
    (sRemainder : str) : Prop :=
  exists rhs_s, g !! s = Some rhs_s
    /\ join rhs_s ++ sRemainder = s
    /\ Forall (sym_ok pend g) rhs_s
    /\ (length rhs_s <= 1 -> Forall pend rhs_s)
    /\ forall k rhs, g !! k = Some rhs -> k <> s -> key_ok pend g k rhs.

(** The levels below [prev]: non-empty segments, and every string of a
    level starts at a boundary of the next. *)
Fixpoint chain_ok (prev : list str) (rest : list (list str)) : Prop :=
  match rest with
  | [] => True
  | C :: rest' =>
      Forall (fun s => 1 <= length s) C
      /\ (forall t, t ∈ prev -> starts_in t C)
      /\ chain_ok C rest'
  end.

(** A binary grammar for [S] whose nonterminals are [S], the suffixes of
    its first half and the prefixes of its second half. *)
Definition chain_grammar (S : str) : grammar :=
  let mid := length S / 2 in
  <[S := [take mid S; drop mid S]]>
    (foldl (fun g i =>
              <[slice mid (i + 1) S := [slice mid i S; slice i (i + 1) S]]> g)
       (foldl (fun g i =>
                 <[slice i mid S := [slice i (i + 1) S; slice (i + 1) mid S]]> g)
          ∅ (seq 0 (mid - 1)))
       (seq (mid + 1) (length S - (mid + 1)))).

(** The iteration order that lists a set or dict in the order of its
    canonical element list; one of the orders the Sakamoto theorems range
    over. *)
Definition listed_order : forall A : Type, list A -> list A := fun _ l => l.

(** The number of ways to bracket a row of [n] leaves into a binary tree,
    by the position of the outermost cut: the Catalan number of [n - 1].
    The recursion runs on [fuel]; [tree_count] gives it enough. *)
Fixpoint tree_count_fuel (fuel n : nat) : nat :=
  match fuel with
  | 0 => 0
  | S f =>
      if decide (n = 1) then 1
      else sum_list ((fun i => tree_count_fuel f i * tree_count_fuel f (n - i))
                       <$> seq 1 (n - 1))
  end.

Definition tree_count (n : nat) : nat := tree_count_fuel n n.

(** * Proofs *)

(** * Properties *)

Arguments Nat.div : simpl never.
Arguments Nat.modulo : simpl never.
Arguments Nat.log2_up : simpl never.
Arguments Nat.pow : simpl never.

(** ** The [res] monad and loops *)

Lemma bind_Ret {A B} (m : res A) (f : A -> res B) (b : B) :
  (m ≫= f) = Ret b <-> exists a, m = Ret a /\ f a = Ret b.
Proof.
  destruct m as [a|e]; simpl.
  - split; [intros H; by exists a|intros (a' & [= <-] & H); exact H].
  - split; [discriminate|intros (a' & [=] & _)].
Qed.

Lemma bind_Ret_l {A B} (m : res A) (f : A -> res B) (a : A) :
  m = Ret a -> (m ≫= f) = f a.
Proof. by intros ->. Qed.

(** A loop whose body preserves an invariant and never raises returns, and
    the invariant holds of the final state. *)
Lemma forM_invariant {A St} (I : St -> Prop) (l : list A)
    (body : A -> St -> res St) (st : St) :
  I st ->
  (forall x st, x ∈ l -> I st -> exists st', body x st = Ret st' /\ I st') ->
  exists st', forM l body st = Ret st' /\ I st'.
Proof.
  revert st. induction l as [|x l IH]; intros st Hst Hbody; simpl.
  - eauto.
  - destruct (Hbody x st) as (st1 & -> & Hst1); [left | done |]. simpl.
    apply IH; [done|]. intros y st2 Hy. apply Hbody. by right.
Qed.

(** The same with an invariant that knows which elements have been
    visited. *)
Lemma forM_invariant_prefix {A St} (I : list A -> St -> Prop) (l : list A)
    (body : A -> St -> res St) (st : St) :
  I [] st ->
  (forall done_ x rest st,
      l = done_ ++ x :: rest -> I done_ st ->
      exists st', body x st = Ret st' /\ I (done_ ++ [x]) st') ->
  exists st', forM l body st = Ret st' /\ I l st'.
Proof.
  intros Hst Hbody.
  cut (forall done_ rest st, l = done_ ++ rest -> I done_ st ->
         exists st', forM rest body st = Ret st' /\ I l st').
  { intros H. by apply (H [] l). }
  intros done_ rest. revert done_.
  induction rest as [|x rest IH]; intros done_ st0 Heq Hinv; simpl.
  - rewrite app_nil_r in Heq. subst. eauto.
  - destruct (Hbody done_ x rest st0 Heq Hinv) as (st1 & -> & Hst1). simpl.
    apply (IH (done_ ++ [x])); [|done]. by rewrite <- app_assoc.
Qed.

Lemma forM_app {A St} (l1 l2 : list A) (body : A -> St -> res St) st :
  forM (l1 ++ l2) body st = (forM l1 body st ≫= forM l2 body).
Proof.
  revert st. induction l1 as [|x l1 IH]; intros st; simpl; [done|].
  destruct (body x st); simpl; [apply IH|done].
Qed.

Lemma foldl_ext_in {A B} (f g : A -> B -> A) (a : A) (l : list B) :
  (forall a x, x ∈ l -> f a x = g a x) -> foldl f a l = foldl g a l.
Proof.
  revert a. induction l as [|x l IH]; intros a H; simpl; [done|].
  rewrite H by left. apply IH. intros a' y Hy. apply H. by right.
Qed.

(** A pure loop preserves an invariant its body preserves. *)
Lemma foldl_invariant {A B} (I : A -> Prop) (f : A -> B -> A) (a : A)
    (l : list B) :
  I a -> (forall a x, x ∈ l -> I a -> I (f a x)) -> I (foldl f a l).
Proof.
  revert a. induction l as [|x l IH]; intros a Ha H; simpl; [done|].
  apply IH; [apply H; [left|done]|]. intros a' y Hy. apply H. by right.
Qed.

Lemma index_Ret {A} (l : list A) (i : nat) (x : A) :
  l !! i = Some x -> index l (Z.of_nat i) = Ret x.
Proof.
  intros H. unfold index, position.
  pose proof (lookup_lt_Some _ _ _ H) as Hlt.
  destruct (Z.ltb_spec (Z.of_nat i) 0); [lia|].
  destruct (Z.ltb_spec (Z.of_nat i) 0); [lia|].
  destruct (Z.ltb_spec (Z.of_nat i) (Z.of_nat (length l))); [|lia].
  by rewrite Nat2Z.id, H.
Qed.

Lemma index_inv {A} (l : list A) (i : Z) (x : A) :
  index l i = Ret x -> x ∈ l.
Proof.
  unfold index. destruct (position (length l) i) as [j|]; [|done].
  destruct (l !! j) eqn:E; [|done]. intros [= <-].
  by eapply list_elem_of_lookup_2.
Qed.

Lemma getitem_Ret `{Countable K} {V} (d : gmap K V) k v :
  d !! k = Some v -> getitem d k = Ret v.
Proof. unfold getitem. by intros ->. Qed.

(** ** Grammars *)

Lemma join_app (l1 l2 : list str) : join (l1 ++ l2) = join l1 ++ join l2.
Proof. apply concat_app. Qed.

Lemma join_length_elem (l : list str) (v : str) :
  v ∈ l -> length v <= length (join l).
Proof.
  induction l as [|x l IH]; [by intros ?%elem_of_nil|].
  unfold join in *. simpl. rewrite length_app.
  intros [->|Hv]%elem_of_cons; [lia|]. specialize (IH Hv). lia.
Qed.

(** In a grammar of the common shape a right-hand-side symbol is strictly
    shorter than the key. *)
Lemma derives_shorter (G : grammar) N M :
  map_Forall production_ok G -> derives G N M -> length M < length N.
Proof.
  intros HG (rhs & HN & HM & _).
  destruct (HG _ _ HN) as [_ Hall].
  rewrite Forall_forall in Hall. apply Hall in HM. lia.
Qed.

Lemma tc_derives_shorter (G : grammar) N M :
  map_Forall production_ok G -> tc (derives G) N M -> length M < length N.
Proof.
  intros HG. induction 1 as [N M H|N K M H _ IH].
  - by eapply derives_shorter.
  - apply (derives_shorter _ _ _ HG) in H. lia.
Qed.

Lemma production_ok_acyclic (G : grammar) :
  map_Forall production_ok G -> acyclic G.
Proof.
  intros HG N Hc. apply (tc_derives_shorter _ _ _ HG) in Hc. lia.
Qed.

Lemma well_formed_acyclic (G : grammar) : well_formed G -> acyclic G.
Proof. intros [HG _]. by apply production_ok_acyclic. Qed.

Lemma expand_symbols (G : grammar) (f : nat) (rhs : list str) (acc : str) :
  (forall v, v ∈ rhs -> expand f G v = Ret v) ->
  forM rhs (fun v acc => e ← expand f G v; Ret (acc ++ e)) acc
  = Ret (acc ++ join rhs).
Proof.
  revert acc. induction rhs as [|v rhs IH]; intros acc Hv; simpl.
  - by rewrite app_nil_r.
  - rewrite Hv by left. simpl. rewrite IH.
    + unfold join. simpl. by rewrite app_assoc.
    + intros u Hu. apply Hv. by right.
Qed.

(** Expanding any symbol that is a terminal or a key of a well-formed
    grammar gives back the symbol's name. *)
Lemma expand_well_formed (G : grammar) :
  well_formed G ->
  forall fuel sym,
    length sym <= fuel -> 1 <= fuel ->
    (2 <= length sym -> is_Some (G !! sym)) ->
    expand fuel G sym = Ret sym.
Proof.
  intros [Hok Hcl]. induction fuel as [|f IH]; intros sym Hlen Hf Hkey; [lia|].
  simpl. destruct (decide (2 <= length sym)) as [H2|]; [|done].
  destruct (Hkey H2) as [rhs Hrhs]. rewrite Hrhs.
  destruct (Hok _ _ Hrhs) as [Hjoin Hall]. rewrite Forall_forall in Hall.
  rewrite expand_symbols; [by rewrite Hjoin|].
  intros v Hv. specialize (Hall v Hv). apply IH; [lia|lia|].
  intros Hv2. by eapply Hcl.
Qed.

(** The size of a binary grammar is twice its number of productions. *)
Lemma grammarSize_insert (G : grammar) k rhs :
  G !! k = None -> grammarSize (<[k := rhs]> G) = length rhs + grammarSize G.
Proof.
  intros Hk. unfold grammarSize.
  rewrite (map_to_list_insert _ _ _ Hk). done.
Qed.

Lemma grammarSize_empty : grammarSize ∅ = 0.
Proof. unfold grammarSize. by rewrite map_to_list_empty. Qed.

Lemma grammarSize_binary (G : grammar) :
  binary G -> grammarSize G = 2 * size G.
Proof.
  induction G as [|k rhs G Hk _ IH] using map_first_key_ind.
  - intros _. by rewrite grammarSize_empty, map_size_empty.
  - intros Hb. rewrite grammarSize_insert, map_size_insert_None by done.
    apply map_Forall_insert in Hb as [Hrhs Hb]; [|done].
    rewrite IH by done. lia.
Qed.

(** ** BISECTION *)

Lemma half_lt (n : nat) : 2 <= n -> 1 <= n / 2 < n.
Proof.
  intros H. split.
  - apply Nat.div_le_lower_bound; lia.
  - apply Nat.div_lt; lia.
Qed.

Lemma bisect_production_ok (T : str) :
  2 <= length T -> production_ok T (bisect T).
Proof.
  intros H. pose proof (half_lt _ H) as Hh. split.
  - unfold bisect, join. simpl. by rewrite app_nil_r, take_drop.
  - unfold bisect. repeat constructor;
      rewrite ?length_take, ?length_drop; lia.
Qed.

Lemma visited_trans (S T U : str) : visited S T -> visited T U -> visited S U.
Proof.
  induction 1 as [S|S T H2 _ IH|S T H2 _ IH]; intros HU; [done|..].
  - apply visited_left; auto.
  - apply visited_right; auto.
Qed.

Lemma visited_short (S T : str) : length S <= 1 -> visited S T -> T = S.
Proof. intros Hlen HV. inversion HV; subst; [done|lia|lia]. Qed.

Lemma visited_length (S T : str) : visited S T -> length T <= length S.
Proof.
  induction 1 as [S|S T H2 _ IH|S T H2 _ IH]; [done|..].
  - rewrite length_take in IH. lia.
  - rewrite length_drop in IH. lia.
Qed.

(** What a call of [_recurse] does to the dict it is handed: every visited
    string of length at least two is bound to its two halves, and nothing
    else changes. *)
Lemma _recurse_spec (fuel : nat) (S : str) (g : grammar) :
  length S < fuel ->
  exists g', _recurse fuel S g = Ret g'
    /\ (forall T, visited S T -> 2 <= length T -> g' !! T = Some (bisect T))
    /\ (forall T, g' !! T = g !! T \/ (visited S T /\ 2 <= length T)).
Proof.
  revert S g. induction fuel as [|f IH]; intros S g Hf; [lia|].
  simpl. destruct (decide (length S <= 1)) as [Hs|Hs].
  - exists g. split; [done|]. split; [|by left].
    intros T HT H2. apply visited_short in HT; [|done]. subst. lia.
  - assert (2 <= length S) as H2 by lia.
    pose proof (half_lt _ H2) as Hh.
    destruct (IH (take (length S / 2) S) (<[S := bisect S]> g))
      as (g2 & -> & Ha2 & Hb2); [rewrite length_take; lia|].
    destruct (IH (drop (length S / 2) S) g2)
      as (g3 & Hg3 & Ha3 & Hb3); [rewrite length_drop; lia|].
    simpl. exists g3. split; [done|].
    assert (forall T, g2 !! T = Some (bisect T) -> g3 !! T = Some (bisect T))
      as Hkeep.
    { intros T HT. destruct (Hb3 T) as [->|[? ?]]; auto. }
    split.
    + intros T HT HT2. inversion HT; subst.
      * apply Hkeep. destruct (Hb2 T) as [->|[? ?]]; [|by auto].
        by rewrite lookup_insert_eq.
      * apply Hkeep. by apply Ha2.
      * by apply Ha3.
    + intros T. destruct (Hb3 T) as [->|[? ?]];
        [|right; split; [by apply visited_right|done]].
      destruct (Hb2 T) as [->|[? ?]];
        [|right; split; [by apply visited_left|done]].
      destruct (decide (S = T)) as [->|Hne].
      * right. split; [constructor|done].
      * left. by rewrite lookup_insert_ne.
Qed.

(** The grammar of [getBisectionGrammar], production by production. *)
Lemma getBisectionGrammar_spec (S : str) :
  exists G, getBisectionGrammar S = Ret G
    /\ forall T rhs,
         G !! T = Some rhs <-> visited S T /\ 2 <= length T /\ rhs = bisect T.
Proof.
  destruct (_recurse_spec (Datatypes.S (length S)) S ∅) as (G & HG & Ha & Hb);
    [lia|].
  exists G. split; [done|]. intros T rhs. split.
  - intros HT. destruct (Hb T) as [Heq|[HV H2]].
    + rewrite HT, lookup_empty in Heq. done.
    + rewrite (Ha T HV H2) in HT. by injection HT as <-.
  - intros (HV & H2 & ->). by apply Ha.
Qed.

Lemma getBisectionGrammar_well_formed (S : str) :
  exists G, getBisectionGrammar S = Ret G
    /\ well_formed G /\ binary G /\ (2 <= length S -> is_Some (G !! S)).
Proof.
  destruct (getBisectionGrammar_spec S) as (G & HG & Hspec).
  exists G. split; [done|]. split; [split|split].
  - intros T rhs (HV & H2 & ->)%Hspec. by apply bisect_production_ok.
  - intros T rhs v (HV & H2 & ->)%Hspec Hv Hv2.
    exists (bisect v). apply Hspec. split; [|done].
    apply (visited_trans _ T); [done|].
    unfold bisect in Hv. apply elem_of_cons in Hv as [->|Hv].
    + apply visited_left; [done|constructor].
    + apply list_elem_of_singleton in Hv as ->.
      apply visited_right; [done|constructor].
  - intros T rhs (HV & H2 & ->)%Hspec. done.
  - intros H2. exists (bisect S). apply Hspec. split; [constructor|done].
Qed.

(** ** The exhaustive search *)

Lemma well_formed_union (g h : grammar) :
  well_formed g -> well_formed h -> well_formed (g ∪ h).
Proof.
  intros [Hg1 Hg2] [Hh1 Hh2]. split.
  - intros k rhs [Hk|[_ Hk]]%lookup_union_Some_raw; eauto.
  - intros k rhs v Hk Hv Hv2.
    assert (is_Some (g !! v) \/ is_Some (h !! v)) as Hor.
    { apply lookup_union_Some_raw in Hk as [Hk|[_ Hk]]; eauto. }
    apply lookup_union_is_Some. done.
Qed.

Lemma binary_union (g h : grammar) : binary g -> binary h -> binary (g ∪ h).
Proof.
  intros Hg Hh k rhs [Hk|[_ Hk]]%lookup_union_Some_raw; eauto.
Qed.

(** Adding the root production [goal -> [left, right]] on top of grammars
    for both parts. *)
Lemma tree_grammar_combine (goal : str) (i : nat) (g h : grammar) :
  1 <= i < length goal ->
  tree_grammar (take i goal) g -> tree_grammar (drop i goal) h ->
  tree_grammar goal (g ∪ (h ∪ {[goal := [take i goal; drop i goal]]})).
Proof.
  intros Hi (Hgw & Hgb & Hgk) (Hhw & Hhb & Hhk).
  assert (production_ok goal [take i goal; drop i goal]) as Hroot.
  { split.
    - unfold join. simpl. by rewrite app_nil_r, take_drop.
    - repeat constructor; rewrite ?length_take, ?length_drop; lia. }
  split; [|split].
  - split.
    + intros k rhs [Hk|[_ [Hk|[_ Hk]]%lookup_union_Some_raw]]%lookup_union_Some_raw.
      * by apply Hgw in Hk.
      * by apply Hhw in Hk.
      * apply lookup_singleton_Some in Hk as [<- <-]. done.
    + intros k rhs v Hk Hv Hv2.
      rewrite !lookup_union_is_Some.
      apply lookup_union_Some_raw in Hk
        as [Hk|[_ [Hk|[_ Hk]]%lookup_union_Some_raw]].
      * left. by eapply Hgw.
      * right; left. by eapply Hhw.
      * apply lookup_singleton_Some in Hk as [<- <-].
        apply elem_of_cons in Hv as [->|Hv]; [left; auto|].
        apply list_elem_of_singleton in Hv as ->. right; left; auto.
  - apply binary_union; [done|]. apply binary_union; [done|].
    intros k rhs [<- <-]%lookup_singleton_Some. done.
  - intros _. rewrite !lookup_union_is_Some. right; right.
    rewrite lookup_singleton_eq. eauto.
Qed.

(** All pairs are combined by the two inner [for] loops. *)
Lemma elem_of_combinations (gs hs : list grammar) (F : grammar -> grammar -> grammar) G :
  G ∈ (g ← gs; h ← hs; [F g h]) <-> exists g h, g ∈ gs /\ h ∈ hs /\ G = F g h.
Proof.
  rewrite list_elem_of_bind. split.
  - intros (g & (h & ->%list_elem_of_singleton & Hh)%list_elem_of_bind & Hg). eauto.
  - intros (g & h & Hg & Hh & ->). exists g. split; [|done].
    apply list_elem_of_bind. exists h. split; [by apply list_elem_of_singleton|done].
Qed.

(** The generator returns, and yields exactly the combinations of the
    grammars of the two parts, over all split points. *)
Lemma generateAllGrammars_spec (fuel : nat) (goal : str) :
  1 <= length goal <= fuel ->
  exists gs, generateAllGrammars fuel goal = Ret gs
    /\ gs <> []
    /\ (forall G, G ∈ gs -> tree_grammar goal G)
    /\ (forall P : grammar,
          well_formed P -> binary P -> (2 <= length goal -> is_Some (P !! goal)) ->
          exists G, G ∈ gs /\ G ⊆ P).
Proof.
  revert goal. induction fuel as [|f IH]; intros goal Hlen; [lia|].
  simpl. destruct (decide (length goal = 1)) as [H1|H1].
  - exists [∅]. split; [done|]. split; [done|]. split.
    + intros G ->%list_elem_of_singleton. split; [split|split].
      * apply map_Forall_empty.
      * intros k rhs v Hk. by rewrite lookup_empty in Hk.
      * apply map_Forall_empty.
      * lia.
    + intros P _ _ _. exists ∅. split; [by apply list_elem_of_singleton|].
      apply map_empty_subseteq.
  - set (body := fun (i : nat) (acc : list grammar) =>
        generateAllGrammars f (take i goal) ≫= (fun gs =>
        generateAllGrammars f (drop i goal) ≫= (fun hs =>
        Ret (acc ++ (g ← gs; h ← hs;
               [g ∪ (h ∪ {[goal := [take i goal; drop i goal]]})]))))).
    set (l := seq 1 (length goal - 1)).
    assert (forall i, i ∈ l -> 1 <= i < length goal) as Hl.
    { intros i Hi%elem_of_seq. lia. }
    destruct (forM_invariant_prefix
      (fun done_ acc =>
         (forall G, G ∈ acc -> tree_grammar goal G)
         /\ (done_ <> [] -> acc <> [])
         /\ (forall i gs hs g h, i ∈ done_ ->
               generateAllGrammars f (take i goal) = Ret gs ->
               generateAllGrammars f (drop i goal) = Ret hs ->
               g ∈ gs -> h ∈ hs ->
               g ∪ (h ∪ {[goal := [take i goal; drop i goal]]}) ∈ acc))
      l body []) as (gs & Hgs & Hall & Hne & Hin).
    { split; [by intros G ?%elem_of_nil|]. split; [done|].
      intros i ???? Hi. by apply elem_of_nil in Hi. }
    { intros done_ i rest acc Heq (Hacc & _ & Hprev).
      assert (1 <= i < length goal) as Hi.
      { apply Hl. rewrite Heq. apply elem_of_app. right. left. }
      destruct (IH (take i goal)) as (gs & Hgs & Hgne & Hgok & _);
        [rewrite length_take; lia|].
      destruct (IH (drop i goal)) as (hs & Hhs & Hhne & Hhok & _);
        [rewrite length_drop; lia|].
      unfold body. rewrite Hgs. simpl. rewrite Hhs. simpl.
      eexists. split; [done|]. split; [|split].
      - intros G [HG|HG]%elem_of_app; [auto|].
        apply elem_of_combinations in HG as (g & h & Hg & Hh & ->).
        apply tree_grammar_combine; auto.
      - intros _ Hnil. apply app_eq_nil in Hnil as [_ Hnil].
        destruct gs as [|g gs]; [done|]. destruct hs as [|h hs]; [done|].
        discriminate Hnil.
      - intros j gs' hs' g h [Hj|Hj]%elem_of_app Hgs' Hhs' Hg Hh.
        + apply elem_of_app. left. by eapply Hprev.
        + apply list_elem_of_singleton in Hj as ->.
          rewrite Hgs in Hgs'. rewrite Hhs in Hhs'.
          injection Hgs' as <-. injection Hhs' as <-.
          apply elem_of_app. right. apply elem_of_combinations. eauto. }
    exists gs. split; [done|]. split; [|split; [done|]].
    + apply Hne. unfold l. destruct (length goal) as [|[|n]]; [lia|lia|done].
    + intros P HPw HPb HPk.
      destruct HPk as [rhs Hrhs]; [lia|].
      pose proof (HPb _ _ Hrhs) as Hlen2.
      destruct rhs as [|x [|y [|z rhs]]]; try discriminate Hlen2.
      destruct HPw as [HPok HPcl].
      destruct (HPok _ _ Hrhs) as [Hjoin Hsym].
      unfold join in Hjoin. simpl in Hjoin. rewrite app_nil_r in Hjoin.
      apply Forall_cons in Hsym as [Hx Hsym].
      apply Forall_cons in Hsym as [Hy _].
      assert (take (length x) goal = x) as Htake.
      { rewrite <- Hjoin. by rewrite take_app_length. }
      assert (drop (length x) goal = y) as Hdrop.
      { rewrite <- Hjoin. by rewrite drop_app_length. }
      destruct (IH x) as (gs' & Hgs' & _ & _ & Hsubx); [lia|].
      destruct (IH y) as (hs' & Hhs' & _ & _ & Hsuby); [lia|].
      destruct (Hsubx P) as (g & Hg & Hgsub); [done|done| |].
      { intros ?. eapply HPcl; [done| |done]. left. }
      destruct (Hsuby P) as (h & Hh & Hhsub); [done|done| |].
      { intros ?. eapply HPcl; [done| |done]. right; left. }
      exists (g ∪ (h ∪ {[goal := [x; y]]})). split.
      * replace [x; y] with [take (length x) goal; drop (length x) goal]
          by (by rewrite Htake, Hdrop).
        apply (Hin (length x) gs' hs'); try done.
        -- apply elem_of_seq. lia.
        -- by rewrite Htake.
        -- by rewrite Hdrop.
      * apply map_union_least; [done|]. apply map_union_least; [done|].
        by apply map_singleton_subseteq_l.
Qed.

Lemma mapR_Forall2 {A B} (f : A -> res B) (l : list A) :
  (forall x, x ∈ l -> exists y, f x = Ret y) ->
  exists ys, mapR f l = Ret ys /\ Forall2 (fun x y => f x = Ret y) l ys.
Proof.
  induction l as [|x l IH]; intros Hf; simpl.
  - exists []. split; [done|constructor].
  - destruct (Hf x) as (y & Hy); [left|].
    destruct IH as (ys & Hys & Hall); [intros z Hz; apply Hf; by right|].
    rewrite Hy. simpl. rewrite Hys. simpl.
    exists (y :: ys). split; [done|]. by constructor.
Qed.

(** [stageCount] returns on the grammars of the generator. *)
Lemma stageCount_returns (G : grammar) :
  well_formed G -> binary G ->
  forall fuel s, length s < fuel -> exists c, stageCount fuel G s = Ret c.
Proof.
  intros [Hok _] Hb. induction fuel as [|f IH]; intros s Hs; [lia|].
  simpl. destruct (G !! s) as [rhs|] eqn:Hrhs; [|eauto].
  pose proof (Hb _ _ Hrhs) as Hlen2.
  destruct rhs as [|x [|y [|z rhs]]]; try discriminate Hlen2.
  destruct (Hok _ _ Hrhs) as [_ Hsym].
  apply Forall_cons in Hsym as [Hx Hsym].
  apply Forall_cons in Hsym as [Hy _].
  destruct (IH x) as (cx & Hcx); [lia|].
  destruct (IH y) as (cy & Hcy); [lia|].
  simpl. rewrite Hcx. simpl. rewrite Hcy. simpl. eauto.
Qed.

Lemma pair_ltb_spec (a b : nat * nat) :
  pair_ltb a b = true <-> a.1 < b.1 \/ (a.1 = b.1 /\ a.2 < b.2).
Proof.
  unfold pair_ltb.
  rewrite orb_true_iff, andb_true_iff, !Nat.ltb_lt, Nat.eqb_eq. done.
Qed.

(** [min] with a key returns an element whose key no other key is below. *)
Lemma min_by_key_spec {A} (cur : A * (nat * nat)) (l : list (A * (nat * nat))) :
  exists e, e ∈ cur :: l /\ min_by_key cur l = e.1
    /\ forall e', e' ∈ cur :: l -> pair_ltb e'.2 e.2 = false.
Proof.
  revert cur. induction l as [|x l IH]; intros cur; simpl.
  - exists cur. split; [left|]. split; [done|].
    intros e' ->%list_elem_of_singleton.
    apply not_true_iff_false. rewrite pair_ltb_spec. lia.
  - destruct (IH (if pair_ltb x.2 cur.2 then x else cur))
      as (e & He & Hmin & Hleast).
    exists e. split; [|split; [done|]].
    + apply elem_of_cons in He as [->|He]; [|by do 2 right].
      destruct (pair_ltb x.2 cur.2); [right; left|left].
    + assert (pair_ltb (if pair_ltb x.2 cur.2 then x else cur).2 e.2 = false)
        as Hc by (apply Hleast; left).
      apply not_true_iff_false in Hc. rewrite pair_ltb_spec in Hc.
      intros e' [->|[->|He']%elem_of_cons]%elem_of_cons.
      * apply not_true_iff_false. rewrite pair_ltb_spec.
        destruct (pair_ltb x.2 cur.2) eqn:Hx; [|done].
        apply pair_ltb_spec in Hx. lia.
      * apply not_true_iff_false. rewrite pair_ltb_spec.
        destruct (pair_ltb x.2 cur.2) eqn:Hx; [done|].
        apply not_true_iff_false in Hx. rewrite pair_ltb_spec in Hx. lia.
      * apply Hleast. by right.
Qed.

(** The exhaustive search returns one of the generated grammars, with the
    least number of productions among them. *)
Lemma getExhaustiveGrammar_spec (S : str) :
  1 <= length S ->
  exists G gs, getExhaustiveGrammar S = Ret G
    /\ generateAllGrammars (Datatypes.S (length S)) S = Ret gs
    /\ G ∈ gs
    /\ forall G', G' ∈ gs -> size G <= size G'.
Proof.
  intros Hlen. unfold getExhaustiveGrammar.
  destruct (generateAllGrammars_spec (Datatypes.S (length S)) S)
    as (gs & Hgs & Hne & Hok & _); [lia|].
  rewrite Hgs. cbn [mbind res_bind].
  destruct (mapR_Forall2
    (fun G => c ← stageCount (Datatypes.S (length S)) G S;
              Ret (G, (size G, c))) gs) as (keyed & Hkeyed & Hall).
  { intros G (Hw & Hb & _)%Hok.
    destruct (stageCount_returns G Hw Hb (Datatypes.S (length S)) S)
      as (c & ->); [lia|]. simpl. eauto. }
  rewrite Hkeyed. cbn [mbind res_bind].
  assert (forall e, e ∈ keyed -> e.1 ∈ gs /\ e.2.1 = size e.1) as Hk1.
  { intros e He. apply list_elem_of_lookup in He as (i & Hi).
    destruct (Forall2_lookup_r _ _ _ _ _ Hall Hi) as (G & HG & HGe).
    apply bind_Ret in HGe as (c & _ & [= <-]). simpl.
    split; [by eapply list_elem_of_lookup_2|done]. }
  assert (forall G, G ∈ gs -> exists e, e ∈ keyed /\ e.1 = G) as Hk2.
  { intros G HG. apply list_elem_of_lookup in HG as (i & Hi).
    destruct (Forall2_lookup_l _ _ _ _ _ Hall Hi) as (e & He & HGe).
    apply bind_Ret in HGe as (c & _ & [= <-]).
    eexists. split; [by eapply list_elem_of_lookup_2|done]. }
  destruct keyed as [|x l].
  { apply Forall2_nil_inv_r in Hall. done. }
  destruct (min_by_key_spec x l) as (e & He & -> & Hleast).
  exists e.1, gs. split; [done|]. split; [done|].
  split; [by apply Hk1|].
  intros G' (e' & He' & <-)%Hk2.
  specialize (Hleast e' He'). apply not_true_iff_false in Hleast.
  rewrite pair_ltb_spec in Hleast.
  destruct (Hk1 e He) as [_ <-]. destruct (Hk1 e' He') as [_ <-]. lia.
Qed.

Lemma getExhaustiveGrammar_well_formed (S : str) :
  1 <= length S ->
  exists G, getExhaustiveGrammar S = Ret G /\ tree_grammar S G.
Proof.
  intros Hlen.
  destruct (getExhaustiveGrammar_spec S Hlen) as (G & gs & HG & Hgs & Hin & _).
  destruct (generateAllGrammars_spec (Datatypes.S (length S)) S)
    as (gs' & Hgs' & _ & Hok & _); [lia|].
  rewrite Hgs in Hgs'. injection Hgs' as <-. eauto.
Qed.

(** No binary grammar of the common shape that derives [S] has fewer
    productions than the one the exhaustive search returns. *)
Lemma getExhaustiveGrammar_least (S : str) (P : grammar) :
  1 <= length S ->
  well_formed P -> binary P -> (2 <= length S -> is_Some (P !! S)) ->
  exists G, getExhaustiveGrammar S = Ret G /\ grammarSize G <= grammarSize P.
Proof.
  intros Hlen HPw HPb HPk.
  destruct (getExhaustiveGrammar_spec S Hlen) as (G & gs & HG & Hgs & Hin & Hmin).
  destruct (generateAllGrammars_spec (Datatypes.S (length S)) S)
    as (gs' & Hgs' & _ & Hok & Hsub); [lia|].
  rewrite Hgs in Hgs'. injection Hgs' as <-.
  exists G. split; [done|].
  destruct (Hsub P HPw HPb HPk) as (G' & HG' & HG'P).
  rewrite !grammarSize_binary; [|done|by apply Hok].
  pose proof (Hmin G' HG'). pose proof (map_subseteq_size _ _ HG'P). lia.
Qed.

(** ** The superstring kernel *)

(** *** The running maximum of [pairWithMaximumOverlap] *)

Lemma none_ltb_spec (a b : option nat) :
  none_ltb a b = true <-> (rank a < rank b)%Z.
Proof.
  destruct a as [x|], b as [y|]; simpl; rewrite ?Nat.ltb_lt;
    split; intros H; try lia; try done.
Qed.

Lemma rank_inj (a b : option nat) : rank a = rank b <-> a = b.
Proof.
  destruct a as [x|], b as [y|]; simpl; split; intros H;
    try discriminate; try lia; try done.
  - f_equal. lia.
  - injection H as ->. done.
Qed.

Lemma otriple_ltb_spec (a b : Z * option nat * option nat) :
  otriple_ltb a b = true <-> triple_below a b.
Proof.
  destruct a as [[a1 a2] a3], b as [[b1 b2] b3].
  unfold otriple_ltb, triple_below. simpl.
  repeat (rewrite orb_true_iff || rewrite andb_true_iff).
  rewrite !none_ltb_spec.
  rewrite Z.ltb_lt, Z.eqb_eq, bool_decide_eq_true, <- rank_inj. done.
Qed.

Lemma otriple_max_cases (a b : Z * option nat * option nat) :
  (otriple_max a b = b /\ triple_below a b)
  \/ (otriple_max a b = a /\ ~ triple_below a b).
Proof.
  unfold otriple_max. destruct (otriple_ltb a b) eqn:E.
  - left. split; [done|]. by apply otriple_ltb_spec.
  - right. split; [done|]. rewrite <- otriple_ltb_spec. by rewrite E.
Qed.

(** Folding [max] over a list gives an element that nothing in the list
    exceeds. *)
Lemma foldl_otriple_max (init : Z * option nat * option nat)
    (l : list (Z * option nat * option nat)) :
  let r := foldl otriple_max init l in
  (r = init \/ r ∈ l) /\ ~ triple_below r init
  /\ forall t, t ∈ l -> ~ triple_below r t.
Proof.
  revert init. induction l as [|x l IH]; intros init; simpl.
  - split; [by left|]. split; [unfold triple_below; lia|].
    by intros t ?%elem_of_nil.
  - destruct (IH (otriple_max init x)) as (Hr & Hinit & Hl).
    set (r := foldl otriple_max (otriple_max init x) l) in *.
    destruct (otriple_max_cases init x) as [[Hm Hb]|[Hm Hb]];
      rewrite Hm in Hr, Hinit.
    + split; [destruct Hr as [->|?]; right; [left|by right]|].
      split.
      * unfold triple_below in *. lia.
      * intros t [->|Ht]%elem_of_cons; auto.
    + split; [destruct Hr as [->|?]; [by left|right; by right]|].
      split; [done|].
      intros t [->|Ht]%elem_of_cons; auto.
      unfold triple_below in *. lia.
Qed.

Lemma foldl_bind {A B C} (f : C -> B -> C) (g : A -> list B) (c : C)
    (l : list A) :
  foldl f c (l ≫= g) = foldl (fun c x => foldl f c (g x)) c l.
Proof.
  revert c. induction l as [|x l IH]; intros c; simpl; [done|].
  change (mbind g (x :: l)) with (g x ++ (l ≫= g)).
  by rewrite foldl_app, IH.
Qed.

(** The nested loops of [pairWithMaximumOverlap] scan [scanned_pairs]. *)
Lemma maxOverlapTriple_scan (Ss : list str) :
  maxOverlapTriple Ss =
  foldl otriple_max ((-1)%Z, None, None)
    ((fun p => (Z.of_nat (pair_overlap Ss p), Some p.1, Some p.2))
       <$> scanned_pairs Ss).
Proof.
  unfold maxOverlapTriple, scanned_pairs.
  rewrite foldl_fmap, foldl_bind. apply foldl_ext_in.
  intros mo i _. rewrite foldl_bind. apply foldl_ext_in.
  intros mo' j _. done.
Qed.

Lemma elem_of_scanned_pairs (Ss : list str) (i j : nat) :
  (i, j) ∈ scanned_pairs Ss <-> i < j < length Ss.
Proof.
  unfold scanned_pairs. rewrite list_elem_of_bind. split.
  - intros (i' & (j' & [= -> ->]%list_elem_of_singleton & Hj%elem_of_seq)
             %list_elem_of_bind & Hi%elem_of_seq). lia.
  - intros Hij. exists i. split; [|apply elem_of_seq; lia].
    apply list_elem_of_bind. exists j.
    split; [by apply list_elem_of_singleton|apply elem_of_seq; lia].
Qed.

(** *** Splitting *)

Lemma splitTooBigs_join (strings : list str) (split_len : nat) :
  join (splitTooBigs strings split_len) = join strings.
Proof.
  unfold splitTooBigs, join. induction strings as [|s l IH]; [done|].
  change (mbind ?f (s :: l)) with (f s ++ (l ≫= f)).
  rewrite concat_app, IH. simpl. f_equal.
  destruct (decide (split_len < length s)); simpl.
  - by rewrite app_nil_r, take_drop.
  - by rewrite app_nil_r.
Qed.

Lemma elem_of_splitTooBigs (strings : list str) (split_len : nat) (t : str) :
  t ∈ splitTooBigs strings split_len <->
  exists s, s ∈ strings
    /\ ((length s <= split_len /\ t = s)
        \/ (split_len < length s
            /\ (t = take (length s / 2) s \/ t = drop (length s / 2) s))).
Proof.
  unfold splitTooBigs. rewrite list_elem_of_bind. split.
  - intros (s & Ht & Hs). exists s. split; [done|].
    destruct (decide (split_len < length s)).
    + right. split; [done|].
      apply elem_of_cons in Ht as [->|Ht]; [by left|].
      apply list_elem_of_singleton in Ht as ->. by right.
    + left. apply list_elem_of_singleton in Ht as ->. split; [lia|done].
  - intros (s & Hs & [ [Hle ->] | [Hlt Ht] ]); exists s; (split; [|done]).
    + destruct (decide (split_len < length s)); [lia|].
      by apply list_elem_of_singleton.
    + destruct (decide (split_len < length s)); [|lia].
      destruct Ht as [-> | ->]; [left|right; left].
Qed.

(** ** Grammars under construction *)

Lemma pre_grammar_well_formed (P : grammar) :
  pre_grammar (fun _ => False) P <-> well_formed P /\ binary P.
Proof.
  split.
  - intros (Hok & Hb & Hcl). split; [split|]; [done| |done].
    intros k rhs v Hk Hv Hv2. by destruct (Hcl k rhs v Hk Hv Hv2).
  - intros [[Hok Hcl] Hb]. split; [done|]. split; [done|].
    intros k rhs v Hk Hv Hv2. left. by eapply Hcl.
Qed.

Lemma pre_grammar_empty (pend : str -> Prop) : pre_grammar pend ∅.
Proof.
  split; [apply map_Forall_empty|]. split; [apply map_Forall_empty|].
  intros k rhs v Hk. by rewrite lookup_empty in Hk.
Qed.

Lemma pre_grammar_weaken (pend pend' : str -> Prop) (P : grammar) :
  pre_grammar pend P ->
  (forall v, pend v -> 2 <= length v -> is_Some (P !! v) \/ pend' v) ->
  pre_grammar pend' P.
Proof.
  intros (Hok & Hb & Hcl) Hw. split; [done|]. split; [done|].
  intros k rhs v Hk Hv Hv2.
  destruct (Hcl k rhs v Hk Hv Hv2) as [?|?]; auto.
Qed.

Lemma pre_grammar_insert (pend : str -> Prop) (P : grammar) (k x y : str) :
  pre_grammar pend P -> production_ok k [x; y] ->
  pre_grammar (fun v => pend v \/ v = x \/ v = y) (<[k := [x; y]]> P).
Proof.
  intros (Hok & Hb & Hcl) Hk. split; [|split].
  - by apply map_Forall_insert_2.
  - by apply map_Forall_insert_2.
  - intros k' rhs v Hk' Hv Hv2. rewrite lookup_insert_is_Some.
    apply lookup_insert_Some in Hk' as [[<- <-]|[Hne Hk']].
    + right. right.
      apply elem_of_cons in Hv as [->|Hv]; [by left|].
      apply list_elem_of_singleton in Hv as ->. by right.
    + destruct (Hcl k' rhs v Hk' Hv Hv2) as [?|?]; [|by right; left].
      left. destruct (decide (k = v)); [by left|by right].
Qed.

(** [P.update(P')]: the new productions may owe symbols that the old
    grammar provides. *)
Lemma pre_grammar_update (pend : str -> Prop) (P' P : grammar) :
  pre_grammar pend P' -> well_formed P -> binary P ->
  (forall v, pend v -> 2 <= length v -> is_Some (P !! v)) ->
  well_formed (P' ∪ P) /\ binary (P' ∪ P).
Proof.
  intros (Hok & Hb & Hcl) [HPok HPcl] HPb Hpend.
  split; [split|].
  - intros k rhs [Hk|[_ Hk]]%lookup_union_Some_raw; eauto.
  - intros k rhs v Hk Hv Hv2. rewrite lookup_union_is_Some.
    apply lookup_union_Some_raw in Hk as [Hk|[_ Hk]].
    + destruct (Hcl k rhs v Hk Hv Hv2) as [?|?]; [by left|right; auto].
    + right. by eapply HPcl.
  - by apply binary_union.
Qed.

(** ** Sakamoto: the trivial tail *)

Lemma join_take_S (w : list str) (i : nat) (c : str) :
  w !! i = Some c -> join (take (S i) w) = join (take i w) ++ c.
Proof.
  intros Hi. rewrite (take_S_r _ _ _ Hi). unfold join.
  by rewrite concat_app; simpl; rewrite app_nil_r.
Qed.

Lemma join_nonempty (w : list str) :
  Forall (fun a => 1 <= length a) w -> 1 <= length w ->
  1 <= length (join w).
Proof.
  intros Hw Hlen. destruct w as [|a w]; [simpl in Hlen; lia|].
  apply Forall_cons in Hw as [Ha _].
  unfold join. simpl. rewrite length_app. lia.
Qed.

(** After the iterations [i = 2 .. n] the dict binds every prefix of at
    least two symbols. *)
Lemma produceTrivialGrammar_prefix (w : list str) (n : nat) :
  Forall (fun a => 1 <= length a) w -> n <= length w - 1 ->
  let P := foldl (fun P i =>
             <[join (take i w) := [join (take (i - 1) w); w !!! (i - 1)]]> P)
             ∅ (seq 2 n) in
  pre_grammar (fun v => v ∈ w) P
  /\ forall i, 2 <= i < 2 + n -> is_Some (P !! join (take i w)).
Proof.
  intros Hw. induction n as [|n IH]; intros Hn P.
  - split; [apply pre_grammar_empty|]. intros i Hi. lia.
  - subst P. rewrite seq_S, foldl_snoc.
    destruct IH as [Hpre Hkeys]; [lia|].
    set (P := foldl _ ∅ (seq 2 n)) in *.
    replace (2 + n - 1) with (S n) by lia.
    assert (is_Some (w !! S n)) as [c Hc] by (apply lookup_lt_is_Some; lia).
    rewrite (list_lookup_total_correct _ _ _ Hc).
    assert (Forall (fun a => 1 <= length a) (take (S n) w)) as Hw'.
    { by apply Forall_take. }
    assert (1 <= length c) as Hc1.
    { rewrite Forall_forall in Hw. apply Hw. by eapply list_elem_of_lookup_2. }
    split.
    + eapply pre_grammar_weaken.
      * apply pre_grammar_insert; [exact Hpre|].
        split.
        -- replace (2 + n) with (S (S n)) by lia.
           rewrite (join_take_S _ _ _ Hc). unfold join. simpl.
           by rewrite app_nil_r.
        -- replace (2 + n) with (S (S n)) by lia.
           rewrite (join_take_S _ _ _ Hc), length_app.
           pose proof (join_nonempty (take (S n) w) Hw') as Hne.
           rewrite length_take in Hne.
           repeat constructor; lia.
      * intros v [Hv|[->| ->]] Hv2; [by right| |right].
        -- destruct n as [|n].
           ++ right. destruct w as [|a w]; [simpl in Hn; lia|].
              unfold join. simpl. rewrite ?take_0. simpl.
              rewrite app_nil_r. left.
           ++ left. rewrite lookup_insert_is_Some. right.
              assert (is_Some (P !! join (take (S (S n)) w))) as HS
                by (apply Hkeys; lia).
              split; [|done].
              change (2 + S n) with (S (S (S n))).
              rewrite (join_take_S w (S (S n)) c Hc).
              intros Heq. apply (f_equal length) in Heq.
              rewrite length_app in Heq. lia.
        -- by eapply list_elem_of_lookup_2.
    + intros i Hi. rewrite lookup_insert_is_Some.
      destruct (decide (i = 2 + n)) as [->|Hne]; [by left|].
      destruct (decide (join (take (2 + n) w) = join (take i w)));
        [by left|right]. split; [done|]. apply Hkeys. lia.
Qed.

Lemma produceTrivialGrammar_spec (w : list str) :
  Forall (fun a => 1 <= length a) w ->
  pre_grammar (fun v => v ∈ w) (produceTrivialGrammar w)
  /\ (2 <= length w -> is_Some (produceTrivialGrammar w !! join w)).
Proof.
  intros Hw. unfold produceTrivialGrammar.
  destruct (produceTrivialGrammar_prefix w (length w + 1 - 2) Hw) as [H1 H2];
    [lia|].
  split; [done|]. intros Hlen.
  specialize (H2 (length w)). rewrite firstn_all in H2. apply H2. lia.
Qed.

(** ** Sakamoto: the repetition pass *)

Lemma produceRepeatingSymbolGrammar_spec (fuel : nat) (P : grammar) (S : str)
    (pend : str -> Prop) :
  2 <= length S <= fuel ->
  pre_grammar (fun v => pend v \/ v = S) P ->
  exists P', produceRepeatingSymbolGrammar fuel P S = Ret P'
    /\ pre_grammar pend P' /\ is_Some (P' !! S)
    /\ forall k, is_Some (P !! k) -> is_Some (P' !! k).
Proof.
  revert P S pend. induction fuel as [|f IH]; intros P S pend Hlen HP; [lia|].
  simpl. destruct (decide (length S = 2)) as [H2|H2].
  - eexists. split; [done|].
    destruct S as [|a [|b [|c S]]]; try discriminate H2.
    split; [|split].
    + eapply pre_grammar_weaken.
      * apply pre_grammar_insert; [exact HP|].
        split; [done|]. unfold char_at. simpl. repeat constructor; lia.
      * intros v [[Hv| ->]|[->| ->]]; simpl; try lia.
        -- by right.
        -- intros _. left. by rewrite lookup_insert_eq.
    + by rewrite lookup_insert_eq.
    + intros k Hk. rewrite lookup_insert_is_Some.
      destruct (decide ((a :: b :: nil) = k)); [by left|by right].
  - destruct (decide (length S mod 2 = 0)) as [Hev|Hodd].
    + assert (4 <= length S) as H4.
      { pose proof (Nat.div_mod_eq (length S) 2). lia. }
      assert (2 <= length S / 2 < length S) as Hh.
      { split; [apply Nat.div_le_lower_bound; lia|apply Nat.div_lt; lia]. }
      assert (length S - length S / 2 = length S / 2) as Hhalf.
      { pose proof (Nat.div_mod_eq (length S) 2). lia. }
      set (rhs1 := take (length S / 2) S).
      set (rhs2 := drop (length S / 2) S).
      assert (production_ok S [rhs1; rhs2]) as Hprod.
      { subst rhs1 rhs2. split.
        - unfold join. simpl. by rewrite app_nil_r, take_drop.
        - repeat constructor; rewrite ?length_take, ?length_drop; lia. }
      destruct (IH (<[S := [rhs1; rhs2]]> P) rhs1 (fun v => pend v \/ v = rhs2))
        as (P2 & -> & HP2 & Hk2 & Hmono2).
      { subst rhs1. rewrite length_take. lia. }
      { eapply pre_grammar_weaken.
        - apply pre_grammar_insert; [exact HP|exact Hprod].
        - intros v [[Hv| ->]|[->| ->]] _; auto.
          left. by rewrite lookup_insert_eq. }
      simpl.
      destruct (IH P2 rhs2 pend) as (P3 & -> & HP3 & Hk3 & Hmono3).
      { subst rhs2. rewrite length_drop. lia. }
      { eapply pre_grammar_weaken; [exact HP2|]. intros v Hv _. by right. }
      exists P3. split; [done|]. split; [done|]. split.
      * apply Hmono3, Hmono2. by rewrite lookup_insert_eq.
      * intros k Hk. apply Hmono3, Hmono2. rewrite lookup_insert_is_Some.
        destruct (decide (S = k)); [by left|by right].
    + assert (3 <= length S) as H3.
      { pose proof (Nat.div_mod_eq (length S) 2). lia. }
      set (rhs1 := take (length S - 1) S).
      set (rhs2 := char_at S (length S - 1)).
      assert (length rhs2 = 1) as Hr2.
      { subst rhs2. unfold char_at. rewrite length_take, length_drop. lia. }
      assert (production_ok S [rhs1; rhs2]) as Hprod.
      { split.
        - unfold join, rhs1, rhs2, char_at. simpl. rewrite app_nil_r.
          rewrite (take_ge (drop (length S - 1) S)) by (rewrite length_drop; lia).
          by rewrite take_drop.
        - subst rhs1. repeat constructor; rewrite ?length_take; lia. }
      destruct (IH (<[S := [rhs1; rhs2]]> P) rhs1 pend)
        as (P2 & -> & HP2 & Hk2 & Hmono2).
      { subst rhs1. rewrite length_take. lia. }
      { eapply pre_grammar_weaken.
        - apply pre_grammar_insert; [exact HP|exact Hprod].
        - intros v [[Hv| ->]|[->| ->]] Hv2; auto; [|lia].
          left. by rewrite lookup_insert_eq. }
      exists P2. split; [done|]. split; [done|]. split.
      * apply Hmono2. by rewrite lookup_insert_eq.
      * intros k Hk. apply Hmono2. rewrite lookup_insert_is_Some.
        destruct (decide (S = k)); [by left|by right].
Qed.

Lemma run_end_spec (a : str) (l : list str) (j : nat) :
  exists n, run_end a l j = j + n /\ n <= length l
    /\ take n l = replicate n a /\ l !! n <> Some a.
Proof.
  revert j. induction l as [|x l IH]; intros j; simpl.
  - exists 0. split; [lia|]. split; [done|]. split; done.
  - destruct (decide (x = a)) as [->|Hne].
    + destruct (IH (j + 1)) as (n & -> & Hn & Htake & Hstop).
      exists (S n). split; [lia|]. split; [lia|]. split; [|done].
      simpl. by rewrite Htake.
    + exists 0. split; [lia|]. split; [lia|]. split; [done|].
      simpl. congruence.
Qed.

Lemma findMaxRepeating_spec (w : list str) (k : nat) (a : str) :
  w !! k = Some a ->
  exists n, findMaxRepeating w k = (k, k + n)
    /\ k + n < length w
    /\ take (S n) (drop k w) = replicate (S n) a
    /\ w !! (k + S n) <> Some a.
Proof.
  intros Hk. unfold findMaxRepeating.
  rewrite (list_lookup_total_correct _ _ _ Hk).
  destruct (run_end_spec a (drop (k + 1) w) (k + 1))
    as (n & -> & Hn & Htake & Hstop).
  exists n. split; [f_equal; lia|].
  rewrite length_drop in Hn. pose proof (lookup_lt_Some _ _ _ Hk).
  split; [lia|]. split.
  - rewrite (drop_S _ _ _ Hk). simpl. f_equal.
    by replace (S k) with (k + 1) by lia.
  - rewrite lookup_drop in Hstop. by replace (k + S n) with (k + 1 + n) by lia.
Qed.

Lemma hasRepeatingSymbol_Some (w : list str) (i j : nat) :
  hasRepeatingSymbol w = Some (i, j) ->
  i < j < length w
  /\ exists a, w !! i = Some a
       /\ take (j + 1 - i) (drop i w) = replicate (j + 1 - i) a.
Proof.
  unfold hasRepeatingSymbol. destruct (decide (length w < 2)); [done|].
  intros Hf. apply fmap_Some in Hf as ([k r] & Hf & Hr). simpl in Hr. subst r.
  apply list_find_Some in Hf as (Hk & Hne & _).
  rewrite list_lookup_fmap in Hk.
  apply fmap_Some in Hk as (k' & Hk' & Hr).
  apply lookup_seq in Hk' as [-> Hk']. simpl in Hr.
  assert (is_Some (w !! k)) as [a Ha] by (apply lookup_lt_is_Some; lia).
  destruct (findMaxRepeating_spec w k a Ha) as (m & Hm & Hlt & Htake & _).
  rewrite Hm in Hr. injection Hr as -> ->. simpl in Hne.
  split; [lia|]. exists a. split; [done|].
  by replace (k + m + 1 - k) with (S m) by lia.
Qed.

Lemma hasRepeatingSymbol_None (w : list str) :
  hasRepeatingSymbol w = None -> no_adjacent_equal w.
Proof.
  unfold hasRepeatingSymbol. intros Hf i a b Ha Hb.
  pose proof (lookup_lt_Some _ _ _ Hb) as Hlt.
  destruct (decide (length w < 2)); [lia|].
  apply fmap_None in Hf. apply list_find_None in Hf.
  rewrite Forall_forall in Hf.
  destruct (findMaxRepeating_spec w i a Ha) as (m & Hm & _ & _ & Hstop).
  specialize (Hf (i, i + m)). simpl in Hf.
  assert (i + m = i) as Hz.
  { destruct (decide (i + m = i)) as [|Hne]; [done|]. exfalso. apply Hf; [|lia].
    rewrite <- Hm. apply list_elem_of_fmap. exists i. split; [done|].
    apply elem_of_seq. lia. }
  assert (m = 0) as -> by lia.
  replace (i + 1) with (S i) in Hstop by lia. congruence.
Qed.

Lemma pop_Ret {A} (w : list A) (i : nat) :
  i < length w -> pop w (Z.of_nat i) = Ret (delete i w).
Proof.
  intros Hi. unfold pop, position.
  destruct (Z.ltb_spec (Z.of_nat i) 0); [lia|].
  destruct (Z.ltb_spec (Z.of_nat i) 0); [lia|].
  destruct (Z.ltb_spec (Z.of_nat i) (Z.of_nat (length w))); [|lia].
  by rewrite Nat2Z.id.
Qed.

(** Popping position [i] once for every element of [l] removes the
    symbols [w[i .. i + len(l) - 1]]. *)
Lemma pop_run {A B} (l : list B) (w : list A) (i : nat) :
  i + length l <= length w ->
  forM l (fun _ w => pop w (Z.of_nat i)) w
  = Ret (take i w ++ drop (i + length l) w).
Proof.
  revert w. induction l as [|x l IH]; intros w Hlen; simpl in *.
  - by rewrite Nat.add_0_r, take_drop.
  - rewrite pop_Ret by lia. simpl. rewrite IH.
    + rewrite delete_take_drop. f_equal.
      rewrite take_app_length' by (rewrite length_take; lia).
      rewrite drop_app_ge by (rewrite length_take; lia).
      rewrite length_take, drop_drop. do 2 f_equal. lia.
    + rewrite length_delete by (apply lookup_lt_is_Some; lia). lia.
Qed.

Lemma str_repeat_length (a : str) (n : nat) :
  length (str_repeat a n) = n * length a.
Proof.
  unfold str_repeat. induction n as [|n IH]; simpl; [done|].
  rewrite length_app, IH. done.
Qed.

Lemma repetition_loop_unfold (fuel : nat) (w : list str) (P : grammar) :
  repetition_loop fuel w P =
  match hasRepeatingSymbol w with
  | None => Ret (w, P)
  | Some (i, j) =>
      match fuel with
      | 0 => Raise OutOfFuel
      | S f =>
          wi ← index w (Z.of_nat i);
          let A_a_j := str_repeat wi (j - i + 1) in
          w ← forM (seq i (j + 1 - i)) (fun _ w => pop w (Z.of_nat i)) w;
          let w := insert_at i A_a_j w in
          P ← produceRepeatingSymbolGrammar (length A_a_j) P A_a_j;
          repetition_loop f w P
      end
  end.
Proof. by destruct fuel. Qed.

(** The repetition pass returns; it keeps the string [w] spells, leaves no
    two equal neighbours, and its productions form a grammar of their
    own that binds every symbol it introduced. *)
Lemma repetition_loop_spec (fuel : nat) (w : list str) (P : grammar) :
  length w <= fuel ->
  Forall (fun a => 1 <= length a) w ->
  pre_grammar (fun _ => False) P ->
  exists w' P', repetition_loop fuel w P = Ret (w', P')
    /\ pre_grammar (fun _ => False) P'
    /\ join w' = join w
    /\ length w' <= length w
    /\ Forall (fun a => 1 <= length a) w'
    /\ (forall a, a ∈ w' -> a ∈ w \/ is_Some (P' !! a))
    /\ (forall k, is_Some (P !! k) -> is_Some (P' !! k))
    /\ no_adjacent_equal w'.
Proof.
  revert w P. induction fuel as [|f IH]; intros w P Hfuel Hw HP;
    rewrite repetition_loop_unfold.
  - destruct w; [|simpl in Hfuel; lia]. simpl.
    exists [], P. split; [done|]. do 6 (split; [by auto|]).
    by intros i a b Ha.
  - destruct (hasRepeatingSymbol w) as [[i j]|] eqn:Hrep.
    + apply hasRepeatingSymbol_Some in Hrep as (Hij & a & Ha & Hrun).
      rewrite (index_Ret _ _ _ Ha). cbn [mbind res_bind].
      rewrite pop_run by (rewrite length_seq; lia).
      cbn [mbind res_bind]. rewrite length_seq.
      replace (i + (j + 1 - i)) with (j + 1) by lia.
      replace (j - i + 1) with (j + 1 - i) by lia.
      set (A := str_repeat a (j + 1 - i)).
      assert (1 <= length a) as Ha1.
      { rewrite Forall_forall in Hw. apply Hw. by eapply list_elem_of_lookup_2. }
      assert (2 <= length A) as HA2.
      { unfold A. rewrite str_repeat_length. nia. }
      assert (insert_at i A (take i w ++ drop (j + 1) w)
              = take i w ++ A :: drop (j + 1) w) as ->.
      { unfold insert_at.
        rewrite take_app_length' by (rewrite length_take; lia).
        rewrite drop_app_length' by (rewrite length_take; lia). done. }
      destruct (produceRepeatingSymbolGrammar_spec (length A) P A (fun _ => False))
        as (P2 & -> & HP2 & HAkey & Hmono2); [lia| |].
      { eapply pre_grammar_weaken; [exact HP|]. by intros v []. }
      cbn [mbind res_bind].
      destruct (IH (take i w ++ A :: drop (j + 1) w) P2)
        as (w' & P' & -> & HP' & Hjoin & Hlen & Hne & Hsym & Hmono & Hadj).
      { rewrite length_app, length_take. simpl. rewrite length_drop. lia. }
      { apply Forall_app. split; [by apply Forall_take|].
        apply Forall_cons. split; [lia|by apply Forall_drop]. }
      { done. }
      exists w', P'. split; [done|]. split; [done|]. split; [|split; [|split]].
      * assert (w = take i w ++ replicate (j + 1 - i) a ++ drop (j + 1) w)
          as Hsplit.
        { rewrite <- Hrun.
          replace (drop (j + 1) w) with (drop (j + 1 - i) (drop i w))
            by (rewrite drop_drop; f_equal; lia).
          by rewrite !take_drop. }
        rewrite Hjoin, (f_equal join Hsplit).
        unfold join. rewrite !concat_app. simpl. done.
      * rewrite length_app, length_take in Hlen. simpl in Hlen.
        rewrite length_drop in Hlen. lia.
      * done.
      * split; [|split; [|done]].
        -- intros b Hb. destruct (Hsym b Hb) as [Hin|?]; [|by right].
           apply elem_of_app in Hin as [Hin|Hin].
           ++ left. eapply elem_of_take in Hin as (? & ? & ?).
              by eapply list_elem_of_lookup_2.
           ++ apply elem_of_cons in Hin as [->|Hin]; [right; by apply Hmono|].
              left. apply list_elem_of_lookup in Hin as (k & Hk).
              rewrite lookup_drop in Hk. by eapply list_elem_of_lookup_2.
        -- intros k Hk. by apply Hmono, Hmono2.
    + exists w, P. split; [done|]. do 6 (split; [by auto|]).
      by apply hasRepeatingSymbol_None.
Qed.

Lemma repetition_spec (w : list str) :
  Forall (fun a => 1 <= length a) w ->
  exists w' P', repetition w = Ret (w', P')
    /\ well_formed P' /\ binary P'
    /\ join w' = join w
    /\ length w' <= length w
    /\ Forall (fun a => 1 <= length a) w'
    /\ (forall a, a ∈ w' -> a ∈ w \/ is_Some (P' !! a))
    /\ no_adjacent_equal w'.
Proof.
  intros Hw. unfold repetition.
  destruct (repetition_loop_spec (length w) w ∅)
    as (w' & P' & H & HP & Hrest); [done|done|apply pre_grammar_empty|].
  exists w', P'. split; [done|]. apply pre_grammar_well_formed in HP as [? ?].
  destruct Hrest as (? & ? & ? & ? & _ & ?). auto 10.
Qed.

(** ** Sakamoto: the arrangement pass *)

Lemma elem_of_adjacent_pairs (w : list str) (a b : str) :
  (a, b) ∈ adjacent_pairs w <->
  exists i, w !! i = Some a /\ w !! S i = Some b.
Proof.
  unfold adjacent_pairs. rewrite list_elem_of_fmap. split.
  - intros (i & Heq & Hi%elem_of_seq). exists i.
    assert (is_Some (w !! i)) as [x Hx] by (apply lookup_lt_is_Some; lia).
    assert (is_Some (w !! S i)) as [y Hy] by (apply lookup_lt_is_Some; lia).
    replace (i + 1) with (S i) in Heq by lia.
    rewrite (list_lookup_total_correct _ _ _ Hx),
      (list_lookup_total_correct _ _ _ Hy) in Heq.
    by injection Heq as -> ->.
  - intros (i & Ha & Hb). exists i.
    pose proof (lookup_lt_Some _ _ _ Hb).
    replace (i + 1) with (S i) by lia.
    rewrite (list_lookup_total_correct _ _ _ Ha),
      (list_lookup_total_correct _ _ _ Hb).
    split; [done|]. apply elem_of_seq. lia.
Qed.

Lemma grows_refl As : grows As As.
Proof. by intros k. Qed.

Lemma grows_trans As1 As2 As3 : grows As1 As2 -> grows As2 As3 -> grows As1 As3.
Proof. intros H1 H2 k Hk. by apply H2, H1. Qed.

Lemma grows_insert As k v : grows As (<[k := v]> As).
Proof.
  intros k' Hk'. rewrite lookup_insert_is_Some.
  destruct (decide (k = k')); [by left|by right].
Qed.

#[local] Hint Resolve grows_refl grows_insert : core.

Section arrangement.

Variable pyiter : forall A : Type, list A -> list A.
Hypothesis pyiter_perm : forall (A : Type) (l : list A), pyiter A l ≡ₚ l.

Lemma elem_of_set_iter `{Countable A} (s : gset A) (x : A) :
  x ∈ set_iter pyiter s <-> x ∈ s.
Proof. unfold set_iter. by rewrite pyiter_perm, elem_of_elements. Qed.

Lemma elem_of_dict_items `{Countable K} {V} (d : gmap K V) (k : K) (v : V) :
  (k, v) ∈ dict_items pyiter d <-> d !! k = Some v.
Proof. unfold dict_items. by rewrite pyiter_perm, elem_of_map_to_list. Qed.

(** *** The frequency list *)

Lemma segmentCounts_dom (l : list (str * str)) (m0 : gmap (str * str) nat)
    (seg : str * str) :
  is_Some (foldl (fun (m : gmap (str * str) nat) segment =>
                    match m !! segment with
                    | Some c => <[segment := c + 1]> m
                    | None => <[segment := 1]> m
                    end) m0 l !! seg)
  <-> is_Some (m0 !! seg) \/ seg ∈ l.
Proof.
  revert m0. induction l as [|x l IH]; intros m0; simpl.
  - rewrite elem_of_nil. tauto.
  - rewrite IH, elem_of_cons.
    destruct (m0 !! x) eqn:Hx; rewrite lookup_insert_is_Some;
      destruct (decide (x = seg)) as [->|]; rewrite ?Hx; naive_solver.
Qed.

Lemma elem_of_createSortedSegmentList (w : list str) (c : nat)
    (seg : str * str) :
  (c, seg) ∈ createSortedSegmentList pyiter w -> seg ∈ adjacent_pairs w.
Proof.
  unfold createSortedSegmentList.
  rewrite elem_of_reverse, merge_sort_Permutation, list_elem_of_fmap.
  intros ([seg' c'] & [= <- <-] & Hin).
  apply elem_of_dict_items in Hin.
  assert (is_Some ((∅ : gmap (str * str) nat) !! seg)
          \/ seg ∈ adjacent_pairs w) as [Hs|?]; [|  |done].
  - apply segmentCounts_dom. eauto.
  - rewrite lookup_empty in Hs. by destruct Hs.
Qed.

Lemma createSortedSegmentList_nonempty (w : list str) :
  2 <= length w -> createSortedSegmentList pyiter w <> [].
Proof.
  intros Hlen Hnil.
  assert (is_Some (w !! 0)) as [a Ha] by (apply lookup_lt_is_Some; lia).
  assert (is_Some (w !! 1)) as [b Hb] by (apply lookup_lt_is_Some; lia).
  assert ((a, b) ∈ adjacent_pairs w) as Hab.
  { apply elem_of_adjacent_pairs. eauto. }
  eapply (or_intror (B := (a, b) ∈ adjacent_pairs w)) in Hab.
  apply (segmentCounts_dom _ ∅) in Hab as [c Hc].
  apply (elem_of_dict_items (V := nat)) in Hc.
  assert ((c, (a, b)) ∈ createSortedSegmentList pyiter w) as Hin.
  { unfold createSortedSegmentList.
    rewrite elem_of_reverse, merge_sort_Permutation, list_elem_of_fmap.
    by exists ((a, b), c). }
  rewrite Hnil in Hin. by apply elem_of_nil in Hin.
Qed.

(** *** The occurrence sets *)

Lemma elem_of_make_set_c (seg : str * str) (w : list str) (x : Z * Z) :
  x ∈ make_set_c seg w <->
  exists i, x = (Z.of_nat i, Z.of_nat (i + 1))
    /\ w !! i = Some seg.1 /\ w !! S i = Some seg.2.
Proof.
  unfold make_set_c.
  assert (forall (l : list nat) (C0 : gset (Z * Z)),
    (forall i, i ∈ l -> i + 1 < length w) ->
    x ∈ foldl (fun C i =>
           if decide ((w !!! i, w !!! (i + 1)) = seg)
           then {[(Z.of_nat i, Z.of_nat (i + 1))]} ∪ C else C) C0 l
    <-> x ∈ C0 \/ exists i, i ∈ l /\ x = (Z.of_nat i, Z.of_nat (i + 1))
          /\ w !! i = Some seg.1 /\ w !! S i = Some seg.2) as Hgen.
  { induction l as [|i l IH]; intros C0 Hl; simpl.
    - split; [by left|]. intros [?|(i & ?%elem_of_nil & _)]; done.
    - rewrite IH by (intros j Hj; apply Hl; by right).
      assert (i + 1 < length w) as Hi by (apply Hl; left).
      assert (is_Some (w !! i)) as [a Ha] by (apply lookup_lt_is_Some; lia).
      assert (is_Some (w !! S i)) as [b Hb] by (apply lookup_lt_is_Some; lia).
      replace (i + 1) with (S i) by lia.
      rewrite (list_lookup_total_correct _ _ _ Ha),
        (list_lookup_total_correct _ _ _ Hb).
      destruct seg as [s1 s2]. simpl.
      destruct (decide ((a, b) = (s1, s2))) as [[= -> ->]|Hne].
      + rewrite elem_of_union, elem_of_singleton. split.
        * intros [[->|?]|(j & Hj & ?)]; [right|by left|right].
          -- exists i. split; [left|]. replace (i + 1) with (S i) by lia. done.
          -- exists j. split; [by right|done].
        * intros [?|(j & [->|Hj]%elem_of_cons & Hx & ?)]; [by left; right| |].
          -- left. left. rewrite Hx. f_equal. lia.
          -- right. eauto.
      + split.
        * intros [?|(j & Hj & ?)]; [by left|right].
          exists j. split; [by right|done].
        * intros [?|(j & [->|Hj]%elem_of_cons & Hx & H1 & H2)]; [by left| |].
          -- congruence.
          -- right. eauto. }
  rewrite Hgen.
  - rewrite elem_of_empty. split.
    + intros [[]|(i & _ & ?)]. eauto.
    + intros (i & Hx & Ha & Hb). right. exists i. split; [|done].
      apply elem_of_seq. pose proof (lookup_lt_Some _ _ _ Hb). lia.
  - intros i Hi%elem_of_seq. lia.
Qed.

Lemma make_set_c_valid (seg : str * str) (w : list str) (x : Z * Z) :
  x ∈ make_set_c seg w -> valid_pos w x.
Proof.
  intros (i & -> & _ & Hb)%elem_of_make_set_c. exists i. split; [done|].
  pose proof (lookup_lt_Some _ _ _ Hb). lia.
Qed.

(** [make_sets] sorts every occurrence into one of the three sets; the
    members of [L] and [R] have the neighbour the code looked up. *)
Lemma make_sets_spec (w : list str) (C : gset (Z * Z))
    (As : gmap (Z * Z) nat) (F L R : gset (Z * Z)) :
  make_sets pyiter w C ∅ ∅ ∅ As = (F, L, R) ->
  (forall x, x ∈ C <-> x ∈ F \/ x ∈ L \/ x ∈ R)
  /\ (forall x, x ∈ L -> is_Some (As !! ((x.1 - 1)%Z, x.1)))
  /\ (forall x, x ∈ R -> is_Some (As !! ((x.1 + 1)%Z, (x.1 + 2)%Z)))
  /\ (As = ∅ -> forall x, x ∈ C -> x ∈ F).
Proof.
  unfold make_sets.
  set (step := fun '(F, L, R) (i : Z * Z) => _).
  assert (forall (l : list (Z * Z)) F0 L0 R0 F L R,
    foldl step (F0, L0, R0) l = (F, L, R) ->
    (forall x, x ∈ F \/ x ∈ L \/ x ∈ R
               <-> (x ∈ F0 \/ x ∈ L0 \/ x ∈ R0) \/ x ∈ l)
    /\ ((forall x, x ∈ L0 -> is_Some (As !! ((x.1 - 1)%Z, x.1))) ->
        forall x, x ∈ L -> is_Some (As !! ((x.1 - 1)%Z, x.1)))
    /\ ((forall x, x ∈ R0 -> is_Some (As !! ((x.1 + 1)%Z, (x.1 + 2)%Z))) ->
        forall x, x ∈ R -> is_Some (As !! ((x.1 + 1)%Z, (x.1 + 2)%Z)))
    /\ (As = ∅ -> forall x, x ∈ F <-> x ∈ F0 \/ x ∈ l)) as Hgen.
  { induction l as [|i l IH]; intros F0 L0 R0 F' L' R' Hfold;
      cbn [foldl] in Hfold.
    - injection Hfold as <- <- <-. split; [|split; [|split]]; auto.
      + intros x. rewrite elem_of_nil. tauto.
      + intros _ x. rewrite elem_of_nil. tauto.
    - destruct (step (F0, L0, R0) i) as [[F1 L1] R1] eqn:Hstep.
      destruct (IH _ _ _ _ _ _ Hfold) as (Ha & Hb & Hc & Hd).
      unfold step in Hstep.
      destruct (decide _) as [[H1 H2]|Hn1];
        [|destruct (decide _) as [[H1 H2]|Hn2]];
        injection Hstep as <- <- <-.
      + split; [|split; [|split]].
        * intros x. rewrite Ha, elem_of_cons, elem_of_union, elem_of_singleton.
          tauto.
        * intros HL0. apply Hb.
          intros x [->%elem_of_singleton|?]%elem_of_union; auto.
        * done.
        * intros ->. rewrite lookup_empty in H2. by destruct H2.
      + split; [|split; [|split]].
        * intros x. rewrite Ha, elem_of_cons, elem_of_union, elem_of_singleton.
          tauto.
        * done.
        * intros HR0. apply Hc.
          intros x [->%elem_of_singleton|?]%elem_of_union; auto.
        * intros ->. rewrite lookup_empty in H2. by destruct H2.
      + split; [|split; [|split]].
        * intros x. rewrite Ha, elem_of_cons, elem_of_union, elem_of_singleton.
          tauto.
        * done.
        * done.
        * intros HAs x. rewrite (Hd HAs), elem_of_cons, elem_of_union,
            elem_of_singleton. tauto. }
  intros Hfold. destruct (Hgen _ _ _ _ _ _ _ Hfold) as (Ha & Hb & Hc & Hd).
  split; [|split; [|split]].
  - intros x. rewrite Ha, elem_of_set_iter. set_solver.
  - apply Hb. set_solver.
  - apply Hc. set_solver.
  - intros HAs x Hx. apply (Hd HAs). right. by apply elem_of_set_iter.
Qed.

End arrangement.

(** *** Assignment of ids *)

Lemma is_Some_insert_r `{Countable K} {V} (m : gmap K V) (i j : K) (x : V) :
  is_Some (m !! j) -> is_Some (<[i := x]> m !! j).
Proof. intros Hj. apply lookup_insert_is_Some'. by right. Qed.

Section assignment.

Variable pyiter : forall A : Type, list A -> list A.
Hypothesis pyiter_perm : forall (A : Type) (l : list A), pyiter A l ≡ₚ l.

Lemma subgroup_Ret (a : Z * Z) (As D : gmap (Z * Z) nat) :
  is_Some (As !! a) -> exists c, subgroup pyiter a As D = Ret c.
Proof.
  intros [v Hv]. unfold subgroup. rewrite (getitem_Ret _ _ _ Hv).
  cbn [mbind res_bind]. destruct (foldl _ _ _) as [inD ninD]. eauto.
Qed.

Lemma group_contents_Ret (seg : Z * Z) (w : list str)
    (As D : gmap (Z * Z) nat) :
  is_Some (As !! seg) -> exists c, group_contents pyiter seg w As D = Ret c.
Proof.
  intros Hseg. unfold group_contents.
  destruct (forM_invariant (fun o => is_Some (As !! o))
              (dict_items pyiter As)
              (fun '(x, y) otherseg =>
                 if decide (x.1 = seg.1 /\ x.2 = seg.2) then
                   a ← getitem As seg;
                   Ret (if decide (y <> a) then x else otherseg)
                 else Ret otherseg) seg) as (o & -> & Ho); [done| |].
  { intros [x y] o Hxy Ho. apply (elem_of_dict_items pyiter pyiter_perm) in Hxy.
    destruct (decide _); [|eauto].
    destruct Hseg as [v Hv]. rewrite (getitem_Ret _ _ _ Hv).
    cbn [mbind res_bind]. destruct (decide (y <> v)); eauto. }
  cbn [mbind res_bind].
  destruct (subgroup_Ret o As D Ho) as [c ->]. cbn [mbind res_bind].
  destruct (decide (c = irregular)); [eauto|].
  destruct (decide (c = unselected)); eauto.
Qed.

Lemma check_all_Ret (X : which_set) (a : gset (Z * Z))
    (As D : gmap (Z * Z) nat) :
  (forall xy, xy ∈ a -> is_Some (As !! neighbour X xy)) ->
  exists c, check_all pyiter X a As D = Ret c.
Proof.
  intros Ha. unfold check_all.
  assert (forall xy, xy ∈ set_iter pyiter a -> is_Some (As !! neighbour X xy))
    as Hl by (intros xy ?%(elem_of_set_iter pyiter pyiter_perm); auto).
  clear Ha. induction (set_iter pyiter a) as [|xy l IH]; simpl; [eauto|].
  destruct (subgroup_Ret (neighbour X xy) As D) as [c ->]; [apply Hl; left|].
  cbn [mbind res_bind]. destruct (decide (c = irregular)); [eauto|].
  apply IH. intros xy' Hxy'. apply Hl. by right.
Qed.

(** One iteration of a [Left] or [Right] loop returns; it only adds
    bindings to [assignments], and at most its own occurrence to [D]. *)
Lemma assign_fixed_spec (X : which_set) (a : gset (Z * Z)) (d1 d2 : nat)
    (w : list str) (dict : gmap (Z * Z) nat) (xy : Z * Z)
    (As D : gmap (Z * Z) nat) :
  is_Some (As !! neighbour X xy) ->
  (forall xy', xy' ∈ a -> is_Some (As !! neighbour X xy')) ->
  exists As' D',
    assign_fixed pyiter X a d1 d2 w dict xy (As, D) = Ret (As', D')
    /\ grows As As'
    /\ forall k, is_Some (D' !! k) -> is_Some (D !! k) \/ k = labelled X xy.
Proof.
  intros Hnb Ha. unfold assign_fixed.
  change (match X with
          | IsLeft => (xy.1, xy.2)
          | _ => (xy.1, (xy.1 + 1)%Z)
          end) with (labelled X xy).
  set (nb := neighbour X xy) in *. set (lab := labelled X xy).
  repeat first
    [ progress cbn [mbind res_bind]
    | match goal with
      | |- context [subgroup pyiter nb ?A dict] =>
          let c := fresh "c" in
          destruct (subgroup_Ret nb A dict) as [c ->];
          [repeat apply is_Some_insert_r; exact Hnb|]
      | |- context [group_contents pyiter nb w ?A dict] =>
          let c := fresh "gc" in
          destruct (group_contents_Ret nb w A dict) as [c ->];
          [repeat apply is_Some_insert_r; exact Hnb|]
      | |- context [check_all pyiter X a ?A dict] =>
          let c := fresh "ca" in
          destruct (check_all_Ret X a A dict) as [c ->];
          [intros ? ?; repeat apply is_Some_insert_r; by apply Ha|]
      | |- context [decide (?c = ?l)] => destruct (decide (c = l))
      end ];
  (eexists _, _; split; [reflexivity|]; split;
   [intros k Hk; repeat apply is_Some_insert_r; exact Hk
   |intros k Hk; try apply lookup_insert_is_Some' in Hk; naive_solver]).
Qed.

Lemma assignment_free_spec (F L R : gset (Z * Z)) (As : gmap (Z * Z) nat)
    (d1 d2 : nat) (w : list str) (dict : gmap (Z * Z) nat) :
  exists As' D',
    assignment pyiter IsFree F L R As d1 d2 w dict = Ret (As', D')
    /\ grows As As'
    /\ forall k, is_Some (D' !! k) <-> k ∈ F.
Proof.
  unfold assignment.
  set (step := fun '(assignments, D) (x : Z * Z) => _).
  assert (forall (l : list (Z * Z)) As0 D0,
    exists As' D', foldl step (As0, D0) l = (As', D')
      /\ grows As0 As'
      /\ forall k, is_Some (D' !! k) <-> is_Some (D0 !! k) \/ k ∈ l) as Hgen.
  { induction l as [|x l IH]; intros As0 D0; cbn [foldl].
    - exists As0, D0. split; [done|]. split; [apply grows_refl|].
      intros k. rewrite elem_of_nil. tauto.
    - unfold step at 2.
      destruct (IH (<[x := d1]> As0) (<[x := d1]> D0))
        as (As' & D' & -> & Hg & HD).
      exists As', D'. split; [done|]. split.
      + eapply grows_trans; [apply grows_insert|done].
      + intros k. rewrite HD, lookup_insert_is_Some', elem_of_cons.
        naive_solver. }
  destruct (Hgen (set_iter pyiter F) As ∅) as (As' & D' & -> & Hg & HD).
  exists As', D'. split; [done|]. split; [done|].
  intros k. rewrite HD, lookup_empty, (elem_of_set_iter pyiter pyiter_perm).
  split; [intros [[? [=]]|?]; done|by right].
Qed.

Lemma assignment_fixed_spec (X : which_set) (F L R : gset (Z * Z))
    (As : gmap (Z * Z) nat) (d1 d2 : nat) (w : list str)
    (dict : gmap (Z * Z) nat) :
  X <> IsFree ->
  let Xs := match X with IsLeft => L | _ => R end in
  (forall xy, xy ∈ Xs -> is_Some (As !! neighbour X xy)) ->
  exists As' D',
    assignment pyiter X F L R As d1 d2 w dict = Ret (As', D')
    /\ grows As As'
    /\ forall k, is_Some (D' !! k) -> exists xy, xy ∈ Xs /\ k = labelled X xy.
Proof.
  intros HX Xs HXs.
  assert (assignment pyiter X F L R As d1 d2 w dict
          = forM (set_iter pyiter Xs) (assign_fixed pyiter X Xs d1 d2 w dict)
              (As, ∅)) as -> by (by destruct X).
  destruct (forM_invariant
    (fun st : gmap (Z * Z) nat * gmap (Z * Z) nat =>
       grows As st.1
       /\ forall k, is_Some (st.2 !! k) ->
            exists xy, xy ∈ Xs /\ k = labelled X xy)
    (set_iter pyiter Xs) (assign_fixed pyiter X Xs d1 d2 w dict) (As, ∅))
    as ([As' D'] & -> & Hg & HD).
  { split; [apply grows_refl|]. simpl.
    intros k. rewrite lookup_empty. by intros [? [=]]. }
  { intros xy [As0 D0] Hxy%(elem_of_set_iter pyiter pyiter_perm) [Hg HD].
    cbn [fst snd] in *.
    destruct (assign_fixed_spec X Xs d1 d2 w dict xy As0 D0)
      as (As1 & D1 & -> & Hg1 & HD1).
    - by apply Hg, HXs.
    - intros xy' Hxy'. by apply Hg, HXs.
    - eexists. split; [done|]. cbn [fst snd]. split.
      + by eapply grows_trans.
      + intros k [Hk| ->]%HD1; [by apply HD|eauto]. }
  exists As', D'. done.
Qed.

(** One round of the [while len(L) > 0] loop returns.  It adds
    occurrences of its segment to [D] and removes nothing; in the first
    round, where nothing is assigned yet, every occurrence is free and
    enters [D]. *)
Lemma arrangement_round_spec (w : list str) (segment : str * str)
    (ID : gset nat) (As D : gmap (Z * Z) nat) :
  exists ID' As' D',
    arrangement_round pyiter w segment (ID, As, D) = Ret (ID', As', D')
    /\ (forall k, is_Some (D !! k) -> is_Some (D' !! k))
    /\ (forall k, is_Some (D' !! k) ->
          is_Some (D !! k) \/ k ∈ make_set_c segment w)
    /\ (As = ∅ -> forall k, k ∈ make_set_c segment w -> is_Some (D' !! k)).
Proof.
  unfold arrangement_round.
  set (C := make_set_c segment w).
  destruct (make_sets pyiter w C ∅ ∅ ∅ As) as [[F L] R] eqn:Hms.
  apply (make_sets_spec pyiter pyiter_perm) in Hms as (HC & HL & HR & HF).
  assert (forall x, x ∈ C -> x.2 = (x.1 + 1)%Z) as Hshape.
  { intros x (i & -> & _)%make_set_c_valid. simpl. lia. }
  set (id1 := size ID).
  destruct (assignment_free_spec F L R As id1 (id1 + 1) w D)
    as (As1 & D1 & -> & Hg1 & HD1).
  cbn [mbind res_bind].
  destruct (assignment_fixed_spec IsLeft F L R As1 id1 (id1 + 1) w (D1 ∪ D))
    as (As2 & D2 & -> & Hg2 & HD2); [done| |].
  { intros xy Hxy. apply Hg1. simpl. by apply HL. }
  cbn [mbind res_bind].
  destruct (assignment_fixed_spec IsRight F L R As2 id1 (id1 + 1) w
              (D2 ∪ (D1 ∪ D))) as (As3 & D3 & -> & Hg3 & HD3); [done| |].
  { intros xy Hxy. apply Hg2, Hg1. simpl.
    rewrite (Hshape xy) by (apply HC; auto).
    replace (xy.1 + 1 + 1)%Z with (xy.1 + 2)%Z by lia. by apply HR. }
  cbn [mbind res_bind]. eexists _, _, _. split; [reflexivity|].
  split; [|split].
  - intros k Hk. rewrite !lookup_union_is_Some. auto.
  - intros k. rewrite !lookup_union_is_Some.
    intros [(xy & Hxy & ->)%HD3|[(xy & Hxy & ->)%HD2|[Hk%HD1|?]]]; auto; right.
    + apply HC. simpl. rewrite <- (Hshape xy) by (apply HC; auto).
      destruct xy. auto.
    + apply HC. simpl. destruct xy. auto.
    + apply HC. auto.
  - intros HAs k Hk. rewrite !lookup_union_is_Some.
    right. right. left. apply HD1. by apply HF.
Qed.

End assignment.

(** *** Removing duplicate ids *)

Lemma count_occ_of_le `{EqDecision A} (x : A) (l : list A) :
  count_occ_of x l <= length l.
Proof. unfold count_occ_of. apply length_filter. Qed.

Lemma count_occ_of_pos `{EqDecision A} (x : A) (l : list A) :
  1 <= count_occ_of x l <-> x ∈ l.
Proof.
  unfold count_occ_of. induction l as [|y l IH].
  - simpl. rewrite elem_of_nil. lia.
  - rewrite filter_cons, elem_of_cons.
    destruct (decide (y = x)) as [->|Hne]; simpl.
    + split; [by left|lia].
    + rewrite IH. naive_solver.
Qed.

Lemma list_remove_Ret `{EqDecision A} (x : A) (l : list A) :
  x ∈ l ->
  exists l', list_remove x l = Ret l'
    /\ length l = S (length l')
    /\ (forall y, y ∈ l' -> y ∈ l)
    /\ count_occ_of x l = S (count_occ_of x l').
Proof.
  unfold count_occ_of. induction l as [|y l IH]; [by intros ?%elem_of_nil|].
  intros Hx. simpl. rewrite filter_cons.
  destruct (decide (y = x)) as [->|Hne].
  - exists l. split; [done|]. split; [done|]. split; [|done].
    intros z Hz. by right.
  - apply elem_of_cons in Hx as [->|Hx]; [done|].
    destruct (IH Hx) as (l' & -> & Hlen & Hsub & Hcount).
    cbn [mbind res_bind]. exists (y :: l'). split; [done|].
    split; [simpl; lia|]. split.
    + intros z [->|Hz]%elem_of_cons; [left|right; auto].
    + rewrite filter_cons. by destruct (decide (y = x)).
Qed.

Lemma remove_extra_unfold (fuel v : nat) (values : list nat) :
  remove_extra fuel v values =
  if decide (1 < count_occ_of v values) then
    match fuel with
    | 0 => Raise OutOfFuel
    | S f => values ← list_remove v values; remove_extra f v values
    end
  else Ret values.
Proof. by destruct fuel. Qed.

Lemma remove_extra_spec (fuel v : nat) (values : list nat) :
  count_occ_of v values <= fuel ->
  exists values', remove_extra fuel v values = Ret values'
    /\ (forall y, y ∈ values' -> y ∈ values)
    /\ length values' <= length values
    /\ (values <> [] -> values' <> []).
Proof.
  revert values. induction fuel as [|f IH]; intros values Hf;
    rewrite remove_extra_unfold;
    (destruct (decide (1 < count_occ_of v values)) as [Hc|Hc];
     [|by exists values]); [lia|].
  destruct (list_remove_Ret v values) as (l1 & -> & Hlen & Hsub & Hcount).
  { apply count_occ_of_pos. lia. }
  cbn [mbind res_bind].
  destruct (IH l1) as (values' & -> & Hsub' & Hlen' & Hne'); [lia|].
  exists values'. split; [done|]. split; [auto|]. split; [lia|].
  intros _. apply Hne'. intros ->. unfold count_occ_of in Hcount.
  simpl in Hcount. unfold count_occ_of in Hc. lia.
Qed.

Lemma remove_duplicates_unfold (fuel pos : nat) (values : list nat) :
  remove_duplicates fuel pos values =
  match values !! pos with
  | None => Ret values
  | Some v =>
      match fuel with
      | 0 => Raise OutOfFuel
      | S f =>
          values ← remove_extra (length values) v values;
          remove_duplicates f (pos + 1) values
      end
  end.
Proof. by destruct fuel. Qed.

(** The de-duplication loop returns a non-empty selection of the values it
    was given (when there are any). *)
Lemma remove_duplicates_spec (fuel pos : nat) (values : list nat) :
  length values - pos <= fuel ->
  exists values', remove_duplicates fuel pos values = Ret values'
    /\ (forall y, y ∈ values' -> y ∈ values)
    /\ (values <> [] -> values' <> []).
Proof.
  revert pos values. induction fuel as [|f IH]; intros pos values Hf;
    rewrite remove_duplicates_unfold;
    (destruct (values !! pos) as [v|] eqn:Hv; [|by exists values]).
  - apply lookup_lt_Some in Hv. lia.
  - destruct (remove_extra_spec (length values) v values)
      as (l1 & -> & Hsub & Hlen & Hne); [apply count_occ_of_le|].
    cbn [mbind res_bind]. apply lookup_lt_Some in Hv.
    destruct (IH (pos + 1) l1) as (values' & -> & Hsub' & Hne'); [lia|].
    exists values'. split; [done|]. split; [auto|]. auto.
Qed.

(** *** The selected pairs *)

Lemma index_valid_pos (w : list str) (x : Z * Z) :
  valid_pos w x ->
  exists a b, index w x.1 = Ret a /\ index w x.2 = Ret b
    /\ (a, b) ∈ adjacent_pairs w.
Proof.
  intros (i & -> & Hi).
  assert (is_Some (w !! i)) as [a Ha] by (apply lookup_lt_is_Some; lia).
  assert (is_Some (w !! (i + 1))) as [b Hb] by (apply lookup_lt_is_Some; lia).
  exists a, b. simpl. rewrite (index_Ret _ _ _ Ha), (index_Ret _ _ _ Hb).
  split; [done|]. split; [done|]. apply elem_of_adjacent_pairs. exists i.
  by replace (S i) with (i + 1) by lia.
Qed.

(** The two nested loops that collect [segments]: every collected pair
    is a pair of neighbours of [w], and some pair is collected as soon as
    a listed id labels an entry of [D]. *)
Lemma collect_segments_spec (w : list str) (items : list (Z * Z * nat))
    (values : list nat) :
  (forall x d, (x, d) ∈ items -> valid_pos w x) ->
  exists segments : gset (str * str),
    forM values
      (fun v segments =>
         forM items
           (fun '(x, d) (segments : gset (str * str)) =>
              if decide (d = v) then
                a ← index w x.1; b ← index w x.2;
                Ret ({[(a, b)]} ∪ segments)
              else Ret segments)
           segments)
      ∅ = Ret segments
    /\ (forall s, s ∈ segments -> s ∈ adjacent_pairs w)
    /\ ((exists v x, v ∈ values /\ (x, v) ∈ items) -> exists s, s ∈ segments).
Proof.
  intros Hvalid.
  assert (forall v (segs0 : gset (str * str)),
    exists segs,
      forM items
        (fun '(x, d) (segments : gset (str * str)) =>
           if decide (d = v) then
             a ← index w x.1; b ← index w x.2; Ret ({[(a, b)]} ∪ segments)
           else Ret segments) segs0 = Ret segs
      /\ (forall s, s ∈ segs0 -> s ∈ segs)
      /\ (forall s, s ∈ segs -> s ∈ segs0 \/ s ∈ adjacent_pairs w)
      /\ ((exists x, (x, v) ∈ items) -> exists s, s ∈ segs)) as Hinner.
  { intros v segs0.
    destruct (forM_invariant_prefix
      (fun done_ (segs : gset (str * str)) =>
         (forall s, s ∈ segs0 -> s ∈ segs)
         /\ (forall s, s ∈ segs -> s ∈ segs0 \/ s ∈ adjacent_pairs w)
         /\ ((exists x, (x, v) ∈ done_) -> exists s, s ∈ segs))
      items
      (fun '(x, d) (segments : gset (str * str)) =>
         if decide (d = v) then
           a ← index w x.1; b ← index w x.2; Ret ({[(a, b)]} ∪ segments)
         else Ret segments) segs0) as (segs & Hsegs & H1 & H2 & H3).
    - split; [done|]. split; [auto|]. intros (x & ?%elem_of_nil). done.
    - intros done_ [x d] rest segs Heq (H1 & H2 & H3).
      destruct (decide (d = v)) as [->|Hne].
      + destruct (index_valid_pos w x) as (a & b & -> & -> & Hab).
        { apply (Hvalid x v). rewrite Heq. apply elem_of_app. right. left. }
        cbn [mbind res_bind]. eexists. split; [done|]. split; [|split].
        * intros s Hs. apply elem_of_union. right. auto.
        * intros s [->%elem_of_singleton|Hs]%elem_of_union; auto.
        * intros _. exists (a, b). apply elem_of_union. left.
          by apply elem_of_singleton.
      + exists segs. split; [done|]. split; [done|]. split; [done|].
        intros (x' & [Hx'|Hx']%elem_of_app); [eauto|].
        apply list_elem_of_singleton in Hx'. congruence.
    - exists segs. auto. }
  destruct (forM_invariant_prefix
    (fun done_ (segs : gset (str * str)) =>
       (forall s, s ∈ segs -> s ∈ adjacent_pairs w)
       /\ ((exists v x, v ∈ done_ /\ (x, v) ∈ items) -> exists s, s ∈ segs))
    values
    (fun v segments =>
       forM items
         (fun '(x, d) (segments : gset (str * str)) =>
            if decide (d = v) then
              a ← index w x.1; b ← index w x.2; Ret ({[(a, b)]} ∪ segments)
            else Ret segments) segments) ∅) as (segs & Hsegs & H1 & H2).
  - split; [by intros s ?%elem_of_empty|].
    intros (v & x & ?%elem_of_nil & _). done.
  - intros done_ v rest segs0 Heq (H1 & H2).
    destruct (Hinner v segs0) as (segs & -> & Ha & Hb & Hc).
    exists segs. split; [done|]. split.
    + intros s [?|?]%Hb; auto.
    + intros (v' & x & [Hv'|Hv']%elem_of_app & Hx).
      * destruct H2 as (s & Hs); eauto.
      * apply list_elem_of_singleton in Hv' as ->. eauto.
  - exists segs. auto.
Qed.

(** *** Replacing the selected pairs *)

Lemma forM_fmap {A B St} (h : A -> B) (l : list A) (body : B -> St -> res St)
    (st : St) :
  forM (h <$> l) body st = forM l (fun x => body (h x)) st.
Proof.
  revert st. induction l as [|x l IH]; intros st; simpl; [done|].
  destruct (body (h x) st); simpl; [apply IH|done].
Qed.

Lemma forM_ext_in {A St} (l : list A) (f g : A -> St -> res St) (st : St) :
  (forall x st, x ∈ l -> f x st = g x st) -> forM l f st = forM l g st.
Proof.
  revert st. induction l as [|x l IH]; intros st H; simpl; [done|].
  rewrite H by left. destruct (g x st); simpl; [|done].
  apply IH. intros y st' Hy. apply H. by right.
Qed.

Lemma delete_insert_gt {A} (l : list A) (i q : nat) (x : A) :
  i < q -> delete i (<[q := x]> l) = <[q - 1 := x]> (delete i l).
Proof.
  revert i q. induction l as [|a l IH]; intros i q Hiq; [by destruct i, q|].
  destruct q as [|q]; [lia|]. destruct i as [|i]; simpl.
  - by rewrite Nat.sub_0_r.
  - rewrite IH by lia. rewrite Nat.sub_0_r.
    destruct q as [|q]; [lia|]. simpl. by rewrite Nat.sub_0_r.
Qed.

Lemma merge_shape {A} (l1 r : list A) (a b t : A) :
  delete (S (length l1)) (<[length l1 := t]> (l1 ++ a :: b :: r))
  = l1 ++ t :: r.
Proof. induction l1 as [|x l1 IH]; simpl; [done|]. by f_equal. Qed.

Lemma length_set_all (t : str) (w : list str) (ps : list nat) :
  length (set_all t w ps) = length w.
Proof.
  unfold set_all. revert w. induction ps as [|p ps IH]; intros w; simpl; [done|].
  by rewrite IH, length_insert.
Qed.

Lemma delete_set_all (t : str) (w : list str) (ps : list nat) (i : nat) :
  Forall (fun q => i < q) ps ->
  delete i (set_all t w ps) = set_all t (delete i w) (pred <$> ps).
Proof.
  unfold set_all. revert w. induction ps as [|p ps IH]; intros w Hps; simpl; [done|].
  apply Forall_cons in Hps as [Hp Hps].
  rewrite IH by done. rewrite delete_insert_gt by done.
  by replace (p - 1) with (pred p) by lia.
Qed.

Lemma merge_at (t : str) (w : list str) (p : nat) :
  pair_at t w p ->
  let w' := delete (S p) (<[p := t]> w) in
  join w' = join w /\ S (length w') = length w
  /\ (forall a, a ∈ w' -> a ∈ w \/ a = t)
  /\ (forall q, S p <= q -> w' !! q = w !! S q).
Proof.
  intros (a & b & Ha & Hb & Hab) w'.
  pose proof (lookup_lt_Some _ _ _ Hb) as Hlt.
  assert (w = take p w ++ a :: b :: drop (S (S p)) w) as Hw.
  { rewrite <- (take_drop p w) at 1. f_equal.
    rewrite (drop_S _ _ _ Ha). f_equal. by rewrite (drop_S _ _ _ Hb). }
  assert (w' = take p w ++ t :: drop (S (S p)) w) as Hw'.
  { unfold w'. rewrite Hw at 1.
    replace p with (length (take p w)) at 1 2 by (rewrite length_take; lia).
    apply merge_shape. }
  split; [|split; [|split]].
  - rewrite Hw' , (f_equal join Hw). unfold join.
    rewrite !concat_app. simpl. by rewrite <- Hab, <- app_assoc.
  - rewrite Hw', (f_equal length Hw), !length_app. simpl. lia.
  - intros c Hc. rewrite Hw' in Hc.
    apply elem_of_app in Hc as [Hc|[->|Hc]%elem_of_cons]; [left|by right|left].
    + apply elem_of_take in Hc as (? & ? & ?). by eapply list_elem_of_lookup_2.
    + apply list_elem_of_lookup in Hc as (k & Hk). rewrite lookup_drop in Hk.
      by eapply list_elem_of_lookup_2.
  - intros q Hq. unfold w'. rewrite list_lookup_delete_ge by lia.
    rewrite list_lookup_insert_ne by lia. done.
Qed.

Lemma StronglySorted_pred (ps : list nat) :
  StronglySorted (fun p q => p + 2 <= q) ps -> Forall (fun q => 1 <= q) ps ->
  StronglySorted (fun p q => p + 2 <= q) (pred <$> ps).
Proof.
  induction 1 as [|p ps Hss IH Hall]; intros Hpos; [constructor|].
  apply Forall_cons in Hpos as [Hp Hpos]. rewrite fmap_cons.
  constructor; [by apply IH|].
  rewrite Forall_fmap. rewrite Forall_forall in *.
  intros q Hq. specialize (Hall q Hq). specialize (Hpos q Hq). simpl. lia.
Qed.

(** Writing [t] at every position of [ps] and then popping the right
    neighbours, left to right, merges the pairs: the string spelt is
    unchanged and the list shrinks by [len(ps)]. *)
Lemma merge_positions (t : str) (ps : list nat) (w : list str) :
  StronglySorted (fun p q => p + 2 <= q) ps ->
  (forall q, q ∈ ps -> pair_at t w q) ->
  exists w2,
    forM (seq 0 (length ps))
      (fun li w' => pop w' (Z.of_nat (ps !!! li) - Z.of_nat li + 1)%Z)
      (set_all t w ps) = Ret w2
    /\ join w2 = join w
    /\ length w2 + length ps = length w
    /\ forall a, a ∈ w2 -> a ∈ w \/ a = t.
Proof.
  remember (length ps) as n eqn:Hn. revert ps w Hn.
  induction n as [|n IH]; intros ps w Hn Hss Hpairs;
    (destruct ps as [|p ps]; [|simpl in Hn]); try discriminate Hn.
  - exists w. simpl. split; [done|]. split; [done|]. split; [lia|auto].
  - injection Hn as Hn.
    apply StronglySorted_inv in Hss as [Hss Hgap].
    assert (pair_at t w p) as Hp by (apply Hpairs; left).
    destruct (merge_at t w p Hp) as (Hjoin & Hlen & Hsym & Hshift).
    assert (S p < length w) as HSp
      by (destruct Hp as (? & ? & _ & ?%lookup_lt_Some & _); done).
    set (w'' := delete (S p) (<[p := t]> w)) in *.
    cbn [length seq forM].
    replace (Z.of_nat ((p :: ps) !!! 0%nat) - Z.of_nat 0%nat + 1)%Z
      with (Z.of_nat (S p))
      by (change ((p :: ps) !!! 0%nat) with p; lia).
    rewrite pop_Ret by (rewrite length_set_all; lia).
    cbn [mbind res_bind].
    change (set_all t w (p :: ps)) with (set_all t (<[p := t]> w) ps).
    rewrite delete_set_all
      by (eapply Forall_impl; [exact Hgap|]; simpl; intros; lia).
    rewrite <- fmap_S_seq, forM_fmap.
    assert (Forall (fun q => 1 <= q) ps) as Hpos.
    { eapply Forall_impl; [exact Hgap|]. simpl. intros. lia. }
    rewrite (forM_ext_in _ _
      (fun li w' =>
         pop w' (Z.of_nat ((pred <$> ps) !!! li) - Z.of_nat li + 1)%Z)).
    2:{ intros li st Hli%elem_of_seq. f_equal.
        assert (is_Some (ps !! li)) as [q Hq] by (apply lookup_lt_is_Some; lia).
        assert ((pred <$> ps) !! li = Some (pred q)) as Hq'
          by (by rewrite list_lookup_fmap, Hq).
        rewrite (list_lookup_total_correct _ _ _ Hq').
        change ((p :: ps) !!! S li) with (ps !!! li).
        rewrite (list_lookup_total_correct _ _ _ Hq).
        rewrite Forall_forall in Hpos.
        pose proof (Hpos q (list_elem_of_lookup_2 _ _ _ Hq)). lia. }
    destruct (IH (pred <$> ps) w'') as (w2 & Hw2 & Hjoin2 & Hlen2 & Hsym2).
    + by rewrite length_fmap.
    + by apply StronglySorted_pred.
    + intros q' (q & -> & Hq)%list_elem_of_fmap.
      rewrite Forall_forall in Hgap. specialize (Hgap q Hq).
      destruct (Hpairs q) as (a & b & Ha & Hb & Hab); [by right|].
      exists a, b. split; [|split; [|done]].
      * rewrite Hshift by lia. by replace (S (pred q)) with q by lia.
      * rewrite Hshift by lia. by replace (S (pred q)) with q by lia.
    + exists w2. split; [exact Hw2|].
      split; [congruence|]. split.
      * lia.
      * intros a [Ha| ->]%Hsym2; auto.
Qed.

Lemma StronglySorted_filter_seq (P : nat -> Prop) `{forall i, Decision (P i)}
    (lo n : nat) :
  (forall i, P i -> ~ P (S i)) ->
  StronglySorted (fun p q => p + 2 <= q) (filter P (seq lo n)).
Proof.
  intros Hex. revert lo. induction n as [|n IH]; intros lo; [constructor|].
  simpl. rewrite filter_cons. destruct (decide (P lo)) as [Hlo|]; [|apply IH].
  constructor; [apply IH|].
  apply Forall_forall. intros q [Hq Hin%elem_of_seq]%list_elem_of_filter.
  destruct (decide (q = S lo)) as [->|]; [|lia]. by apply Hex in Hlo.
Qed.

(** One iteration of [for s in segments], for a pair of distinct symbols. *)
Lemma replace_segment_spec (s : str * str) (w : list str) (P : grammar) :
  s.1 <> s.2 ->
  exists w',
    replace_segment s (w, P) = Ret (w', <[s.1 ++ s.2 := [s.1; s.2]]> P)
    /\ join w' = join w
    /\ length w' <= length w
    /\ (s ∈ adjacent_pairs w -> length w' < length w)
    /\ forall a, a ∈ w' -> a ∈ w \/ a = s.1 ++ s.2.
Proof.
  intros Hne. unfold replace_segment.
  set (locs := filter (fun i => (w !!! i, w !!! (i + 1)) = s)
                      (seq 0 (length w - 1))).
  assert (forall q, q ∈ locs <-> w !! q = Some s.1 /\ w !! S q = Some s.2)
    as Hlocs.
  { intros q. unfold locs. rewrite list_elem_of_filter, elem_of_seq. split.
    - intros [Heq Hq].
      assert (is_Some (w !! q)) as [a Ha] by (apply lookup_lt_is_Some; lia).
      assert (is_Some (w !! S q)) as [b Hb] by (apply lookup_lt_is_Some; lia).
      replace (q + 1) with (S q) in Heq by lia.
      rewrite (list_lookup_total_correct _ _ _ Ha),
        (list_lookup_total_correct _ _ _ Hb) in Heq.
      subst s. done.
    - intros [Ha Hb]. pose proof (lookup_lt_Some _ _ _ Hb).
      replace (q + 1) with (S q) by lia.
      rewrite (list_lookup_total_correct _ _ _ Ha),
        (list_lookup_total_correct _ _ _ Hb).
      split; [by destruct s|lia]. }
  destruct (merge_positions (s.1 ++ s.2) locs w) as (w2 & Hw2 & Hjoin & Hlen & Hsym).
  - apply StronglySorted_filter_seq.
    intros i Hi Hi'. apply Hne.
    rewrite <- Hi' at 1. rewrite <- Hi. simpl.
    by replace (i + 1) with (S i) by lia.
  - intros q [Ha Hb]%Hlocs. exists s.1, s.2. done.
  - unfold set_all in Hw2. rewrite Hw2. cbn [mbind res_bind].
    exists w2. split; [done|]. split; [done|]. split; [lia|]. split; [|done].
    intros Hin. destruct s as [a b].
    apply elem_of_adjacent_pairs in Hin as (i & Ha & Hb).
    assert (i ∈ locs) as Hi by (by apply Hlocs).
    destruct locs; [by apply elem_of_nil in Hi|]. simpl in Hlen. lia.
Qed.

(** *** The whole pass, and the outer loop *)

Lemma adjacent_pairs_symbols (w : list str) (s : str * str) :
  s ∈ adjacent_pairs w -> s.1 ∈ w /\ s.2 ∈ w.
Proof.
  destruct s as [a b]. intros (i & Ha & Hb)%elem_of_adjacent_pairs.
  split; by eapply list_elem_of_lookup_2.
Qed.

Lemma hasRepeatingPairs_length (w : list str) :
  hasRepeatingPairs w = true -> 3 <= length w.
Proof.
  unfold hasRepeatingPairs, adjacent_pairs.
  destruct w as [|a [|b [|c w]]]; intros H; [done|done| |simpl; lia].
  cbn [length seq fmap list_fmap Nat.sub hasRepeatingPairs_loop] in H.
  destruct (decide _) as [Hin|] in H; [|done]. by apply elem_of_empty in Hin.
Qed.

Section repair.

Variable pyiter : forall A : Type, list A -> list A.
Hypothesis pyiter_perm : forall (A : Type) (l : list A), pyiter A l ≡ₚ l.

(** The rounds of [arrangement] return; [D] only names positions of
    [w], and is not empty when [w] has two symbols or more. *)
Lemma arrangement_rounds_spec (w : list str) (ID : gset nat) :
  exists ID' As D,
    forM (snd <$> createSortedSegmentList pyiter w)
         (arrangement_round pyiter w) (ID, ∅, ∅) = Ret (ID', As, D)
    /\ (forall k, is_Some (D !! k) -> valid_pos w k)
    /\ (2 <= length w -> exists k, is_Some (D !! k)).
Proof.
  pose proof (elem_of_createSortedSegmentList pyiter pyiter_perm w) as Hel.
  pose proof (createSortedSegmentList_nonempty pyiter pyiter_perm w) as Hne.
  destruct (createSortedSegmentList pyiter w) as [|[c seg] L].
  - exists ID, ∅, ∅. split; [done|]. split.
    + intros k. rewrite lookup_empty. by intros [? [=]].
    + intros Hlen. by destruct (Hne Hlen).
  - rewrite fmap_cons. cbn [forM snd].
    destruct (arrangement_round_spec pyiter pyiter_perm w seg ID ∅ ∅)
      as (ID1 & As1 & D1 & -> & _ & HD1 & Hfree).
    cbn [mbind res_bind].
    assert (exists k, is_Some (D1 !! k)) as [k0 Hk0].
    { assert (seg ∈ adjacent_pairs w) as Hseg by (apply (Hel c); left).
      destruct seg as [a b].
      apply elem_of_adjacent_pairs in Hseg as (i & Ha & Hb).
      exists (Z.of_nat i, Z.of_nat (i + 1)). apply Hfree; [done|].
      apply elem_of_make_set_c. eauto. }
    destruct (forM_invariant
      (fun st : gset nat * gmap (Z * Z) nat * gmap (Z * Z) nat =>
         (forall k, is_Some (D1 !! k) -> is_Some (st.2 !! k))
         /\ (forall k, is_Some (st.2 !! k) -> valid_pos w k))
      (snd <$> L) (arrangement_round pyiter w) (ID1, As1, D1))
      as ([[ID' As] D] & -> & Hmono & Hvalid).
    + split; [done|]. cbn [snd]. intros k [Hk|Hk]%HD1.
      * rewrite lookup_empty in Hk. by destruct Hk.
      * by eapply make_set_c_valid.
    + intros seg' [[ID2 As2] D2] _ [Hmono Hvalid]. cbn [snd] in *.
      destruct (arrangement_round_spec pyiter pyiter_perm w seg' ID2 As2 D2)
        as (ID3 & As3 & D3 & -> & Hkeep & HD3 & _).
      eexists. split; [done|]. cbn [snd]. split; [auto|].
      intros k [Hk|Hk]%HD3; [auto|]. by eapply make_set_c_valid.
    + exists ID', As, D. split; [done|]. split; [done|]. eauto.
Qed.

(** The arrangement pass returns on a list of non-empty symbols without
    equal neighbours.  It keeps the string [w] spells; its productions
    have right-hand sides drawn from the old [w]; and it shortens [w] as
    soon as [w] has two symbols. *)
Lemma arrangement_spec (w : list str) (ID : gset nat) :
  Forall (fun a => 1 <= length a) w ->
  no_adjacent_equal w ->
  exists w' ID' P',
    arrangement pyiter w ID = Ret (w', ID', P')
    /\ join w' = join w
    /\ Forall (fun a => 1 <= length a) w'
    /\ pre_grammar (fun v => v ∈ w) P'
    /\ (forall a, a ∈ w' -> a ∈ w \/ is_Some (P' !! a))
    /\ length w' <= length w
    /\ (2 <= length w -> length w' < length w).
Proof.
  intros Hw Hadj. unfold arrangement.
  destruct (arrangement_rounds_spec w ID) as (ID' & As & D & -> & Hvalid & HD).
  cbn [mbind res_bind].
  set (values := (dict_items pyiter D).*2).
  destruct (remove_duplicates_spec (length values) 0 values)
    as (values' & -> & Hsub & Hvne); [lia|].
  cbn [mbind res_bind].
  destruct (collect_segments_spec w (dict_items pyiter D) values')
    as (segments & -> & Hsegs & Hsne).
  { intros x d Hxd%(elem_of_dict_items pyiter pyiter_perm). eauto. }
  cbn [mbind res_bind].
  assert (2 <= length w -> set_iter pyiter segments <> []) as Hiter.
  { intros Hlen Hnil. destruct (HD Hlen) as (k & v & Hk).
    assert (v ∈ values) as Hv.
    { apply list_elem_of_fmap. exists (k, v). split; [done|].
      by apply (elem_of_dict_items pyiter pyiter_perm). }
    assert (values' <> []) as Hv'.
    { apply Hvne. intros Heq. rewrite Heq in Hv. by apply elem_of_nil in Hv. }
    destruct values' as [|v' vs'] eqn:Hvs; [done|].
    assert (v' ∈ values) as Hv'' by (apply Hsub; left).
    apply list_elem_of_fmap in Hv'' as ([k' d'] & -> & Hin).
    destruct Hsne as (s & Hs); [exists d', k'; split; [left|done]|].
    apply (elem_of_set_iter pyiter pyiter_perm) in Hs.
    rewrite Hnil in Hs. by apply elem_of_nil in Hs. }
  destruct (forM_invariant_prefix
    (fun done_ (st : list str * grammar) =>
       join st.1 = join w
       /\ Forall (fun a => 1 <= length a) st.1
       /\ pre_grammar (fun v => v ∈ w) st.2
       /\ (forall a, a ∈ st.1 -> a ∈ w \/ is_Some (st.2 !! a))
       /\ length st.1 <= length w
       /\ (done_ = [] -> st.1 = w)
       /\ (done_ <> [] -> length st.1 < length w))
    (set_iter pyiter segments) replace_segment (w, ∅))
    as ([w' P'] & -> & Hjoin & Hne' & Hpre & Hsym & Hlen & _ & Hlt).
  { cbn [fst snd]. split; [done|]. split; [done|].
    split; [apply pre_grammar_empty|]. split; [auto|]. split; [done|].
    split; done. }
  { intros done_ s rest [w1 P1] Heq
      (Hjoin & Hne1 & Hpre & Hsym & Hlen & Hfirst & Hlater).
    cbn [fst snd] in *.
    assert (s ∈ adjacent_pairs w) as Hs.
    { apply Hsegs, (elem_of_set_iter pyiter pyiter_perm).
      rewrite Heq. apply elem_of_app. right. left. }
    destruct (adjacent_pairs_symbols w s Hs) as [Hs1 Hs2].
    assert (s.1 <> s.2) as Hdiff.
    { destruct s as [a b].
      apply elem_of_adjacent_pairs in Hs as (i & Ha & Hb). by eapply Hadj. }
    assert (1 <= length s.1 /\ 1 <= length s.2) as [Hl1 Hl2].
    { rewrite Forall_forall in Hw. auto. }
    destruct (replace_segment_spec s w1 P1 Hdiff)
      as (w2 & -> & Hjoin2 & Hlen2 & Hlt2 & Hsym2).
    eexists. split; [done|]. cbn [fst snd].
    split; [congruence|]. split; [|split; [|split; [|split; [lia|split]]]].
    - apply Forall_forall. intros a [Ha| ->]%Hsym2.
      + rewrite Forall_forall in Hne1. auto.
      + rewrite length_app. lia.
    - eapply pre_grammar_weaken.
      + apply pre_grammar_insert; [exact Hpre|]. split.
        * unfold join. simpl. by rewrite app_nil_r.
        * rewrite length_app.
          apply Forall_cons; split; [lia|].
          apply Forall_cons; split; [lia|constructor].
      + intros v [Hv|[->| ->]] _; auto.
    - intros a [Ha| ->]%Hsym2.
      + destruct (Hsym a Ha) as [?|?]; [by left|right].
        apply lookup_insert_is_Some'. by right.
      + right. by rewrite lookup_insert_eq.
    - intros Hnil. by destruct done_.
    - intros _. destruct done_ as [|s0 done_].
      + rewrite (Hfirst eq_refl) in *. auto.
      + assert (length w1 < length w) by (by apply Hlater). lia. }
  cbn [mbind res_bind]. exists w', ID', P'. split; [done|].
  do 5 (split; [done|]). intros Hlen2. apply Hlt. by apply Hiter.
Qed.

(** One turn of the outer loop strictly shortens [w]. *)
Lemma repair_turn_spec (w : list str) (P : grammar) (ID : gset nat) :
  repair_invariant w P -> 2 <= length w ->
  exists w1 P1 w2 ID2 P2,
    repetition w = Ret (w1, P1)
    /\ arrangement pyiter w1 ID = Ret (w2, ID2, P2)
    /\ length w2 < length w
    /\ join w2 = join w
    /\ repair_invariant w2 (P2 ∪ (P1 ∪ P)).
Proof.
  intros (Hw & HPw & HPb & Hsym) Hlen.
  destruct (repetition_spec w Hw)
    as (w1 & P1 & Hrep & HP1w & HP1b & Hjoin1 & Hlen1 & Hw1 & Hsym1 & Hadj1).
  destruct (arrangement_spec w1 ID Hw1 Hadj1)
    as (w2 & ID2 & P2 & Harr & Hjoin2 & Hw2 & HP2 & Hsym2 & Hlen2 & Hlt2).
  exists w1, P1, w2, ID2, P2. split; [done|]. split; [done|].
  split; [|split; [congruence|]].
  { destruct (decide (2 <= length w1)) as [H2|H2]; [|lia].
    specialize (Hlt2 H2). lia. }
  assert (forall a, a ∈ w1 -> 2 <= length a -> is_Some ((P1 ∪ P) !! a)) as Hk1.
  { intros a Ha Ha2. rewrite lookup_union_is_Some.
    destruct (Hsym1 a Ha) as [?|?]; auto. }
  destruct (pre_grammar_update (fun v => v ∈ w1) P2 (P1 ∪ P)) as [Hw' Hb'];
    [done|by apply well_formed_union|by apply binary_union|done|].
  split; [done|]. split; [done|]. split; [done|].
  intros a Ha Ha2. rewrite lookup_union_is_Some.
  destruct (Hsym2 a Ha) as [?|?]; auto.
Qed.

Lemma levelwiseRepair_loop_unfold (fuel : nat) (w : list str) (P : grammar)
    (ID : gset nat) :
  levelwiseRepair_loop pyiter fuel w P ID =
  if hasRepeatingPairs w then
    match fuel with
    | 0 => Raise OutOfFuel
    | S f =>
        '(w, P') ← repetition w;
        let P := P' ∪ P in
        '(w, ID, P') ← arrangement pyiter w ID;
        let P := P' ∪ P in
        levelwiseRepair_loop pyiter f w P ID
    end
  else Ret (w, P).
Proof. by destruct fuel. Qed.

Lemma levelwiseRepair_loop_spec (fuel : nat) (w : list str) (P : grammar)
    (ID : gset nat) :
  length w <= fuel -> repair_invariant w P ->
  exists w' P',
    levelwiseRepair_loop pyiter fuel w P ID = Ret (w', P')
    /\ repair_invariant w' P' /\ join w' = join w.
Proof.
  revert w P ID. induction fuel as [|f IH]; intros w P ID Hfuel Hinv;
    rewrite levelwiseRepair_loop_unfold;
    (destruct (hasRepeatingPairs w) eqn:Hrep; [|by exists w, P]);
    apply hasRepeatingPairs_length in Hrep; [lia|].
  destruct (repair_turn_spec w P ID Hinv)
    as (w1 & P1 & w2 & ID2 & P2 & -> & Harr & Hlt & Hjoin & Hinv2); [lia|].
  cbn [mbind res_bind]. rewrite Harr. cbn [mbind res_bind].
  destruct (IH w2 (P2 ∪ (P1 ∪ P)) ID2) as (w' & P' & -> & Hinv' & Hjoin');
    [lia|done|].
  exists w', P'. split; [done|]. split; [done|]. congruence.
Qed.

Lemma join_chars (S : str) : join (chars S) = S.
Proof.
  unfold join, chars. induction S as [|c S IH]; [done|].
  rewrite fmap_cons. cbn [concat app]. by rewrite IH.
Qed.

(** [getSakamotoGrammar] returns a closed binary grammar that binds the
    input. *)
Lemma getSakamotoGrammar_spec (S : str) :
  exists G, getSakamotoGrammar pyiter S = Ret G
    /\ well_formed G /\ binary G /\ (2 <= length S -> is_Some (G !! S)).
Proof.
  unfold getSakamotoGrammar, levelwiseRepair.
  destruct (levelwiseRepair_loop_spec (length (chars S)) (chars S) ∅ ∅)
    as (w & P & -> & (Hw & HPw & HPb & Hsym) & Hjoin); [done| |].
  { split; [|split; [|split]].
    - unfold chars. rewrite Forall_fmap. apply Forall_true.
      intros c. simpl. lia.
    - by destruct (proj1 (pre_grammar_well_formed ∅) (pre_grammar_empty _)).
    - by destruct (proj1 (pre_grammar_well_formed ∅) (pre_grammar_empty _)).
    - intros a (c & -> & _)%list_elem_of_fmap. simpl. lia. }
  rewrite join_chars in Hjoin. cbn [mbind res_bind].
  destruct (decide (length w = 1)) as [H1|H1].
  - exists P. split; [done|]. split; [done|]. split; [done|].
    destruct w as [|a [|b w]]; try discriminate H1.
    unfold join in Hjoin. simpl in Hjoin. rewrite app_nil_r in Hjoin.
    subst a. intros H2. apply Hsym; [left|done].
  - destruct (produceTrivialGrammar_spec w Hw) as [HT Hkey].
    destruct (pre_grammar_update (fun v => v ∈ w) (produceTrivialGrammar w) P)
      as [Hw' Hb']; [done|done|done|done|].
    eexists. split; [done|]. split; [done|]. split; [done|].
    intros H2. rewrite lookup_union_is_Some. left.
    rewrite <- Hjoin. apply Hkey.
    destruct w as [|a [|b w]]; [|done|simpl; lia].
    rewrite <- Hjoin in H2. simpl in H2. lia.
Qed.

End repair.

(** ** The superstring kernel, continued *)

(** [computeOverlap] returns [(k, len(s1) - k, 0)] for a suffix of [s1] of
    length [k] that is a prefix of [s2]. *)
Lemma computeOverlap_spec (s1 s2 : str) :
  let o := (computeOverlap s1 s2).1.2 in
  o <= length s1 /\ drop o s1 `prefix_of` s2.
Proof.
  unfold computeOverlap.
  apply (foldl_invariant
    (fun mo : nat * nat * nat =>
       mo.1.2 <= length s1 /\ drop mo.1.2 s1 `prefix_of` s2)).
  - simpl. split; [done|]. rewrite drop_all. apply prefix_nil.
  - intros mo i _ Hmo. destruct (decide _) as [Heq|]; [|done].
    unfold triple_max. destruct (triple_ltb _ _); [|done].
    simpl. split; [lia|]. rewrite Heq. apply prefix_take.
Qed.

Lemma merge_prefix (s1 s2 : str) :
  let o := (computeOverlap s1 s2).1.2 in
  s1 `prefix_of` take o s1 ++ s2 /\ length (take o s1) = o.
Proof.
  destruct (computeOverlap_spec s1 s2) as [Ho Hpre]. simpl.
  split; [|rewrite length_take; lia].
  rewrite <- (take_drop (computeOverlap s1 s2).1.2 s1) at 1.
  by apply prefix_app.
Qed.

(** With at least two strings, the scan settles on a pair of positions
    [i < j]; no scanned pair has a greater triple [(overlap, i, j)]. *)
Lemma maxOverlapTriple_spec (Ss : list str) :
  2 <= length Ss ->
  exists i j,
    maxOverlapTriple Ss = (Z.of_nat (pair_overlap Ss (i, j)), Some i, Some j)
    /\ i < j < length Ss
    /\ forall i' j', i' < j' < length Ss ->
         pair_overlap Ss (i', j') < pair_overlap Ss (i, j)
         \/ (pair_overlap Ss (i', j') = pair_overlap Ss (i, j)
             /\ (i' < i \/ (i' = i /\ j' <= j))).
Proof.
  intros Hlen. rewrite maxOverlapTriple_scan.
  set (l := (fun p => (Z.of_nat (pair_overlap Ss p), Some p.1, Some p.2))
              <$> scanned_pairs Ss).
  destruct (foldl_otriple_max ((-1)%Z, None, None) l) as (Hr & _ & Hmax).
  set (r := foldl otriple_max ((-1)%Z, None, None) l) in *.
  assert ((0, 1) ∈ scanned_pairs Ss) as H01
    by (apply elem_of_scanned_pairs; lia).
  destruct Hr as [Hr|Hr].
  - exfalso. apply (Hmax (Z.of_nat (pair_overlap Ss (0, 1)), Some 0, Some 1)).
    + apply list_elem_of_fmap. by exists (0, 1).
    + rewrite Hr. unfold triple_below. simpl. lia.
  - apply list_elem_of_fmap in Hr as ([i j] & Hr & Hij).
    exists i, j. split; [done|]. apply elem_of_scanned_pairs in Hij.
    split; [done|]. intros i' j' Hij'.
    assert (~ triple_below r (Z.of_nat (pair_overlap Ss (i', j')), Some i', Some j'))
      as Hnb.
    { apply Hmax, list_elem_of_fmap. exists (i', j').
      split; [done|]. by apply elem_of_scanned_pairs. }
    rewrite Hr in Hnb. unfold triple_below in Hnb. simpl in Hnb. lia.
Qed.

Lemma pairWithMaximumOverlap_Ret (Ss : list str) :
  2 <= length Ss ->
  exists i j s1 s2,
    pairWithMaximumOverlap Ss = Ret (s1, s2)
    /\ i < j /\ Ss !! i = Some s1 /\ Ss !! j = Some s2.
Proof.
  intros Hlen. destruct (maxOverlapTriple_spec Ss Hlen) as (i & j & Hm & Hij & _).
  assert (is_Some (Ss !! i)) as [s1 H1] by (apply lookup_lt_is_Some; lia).
  assert (is_Some (Ss !! j)) as [s2 H2] by (apply lookup_lt_is_Some; lia).
  exists i, j, s1, s2. unfold pairWithMaximumOverlap. rewrite Hm.
  rewrite (index_Ret _ _ _ H1). cbn [mbind res_bind].
  rewrite (index_Ret _ _ _ H2). cbn [mbind res_bind].
  split; [done|]. split; [lia|done].
Qed.

(** [l.remove(x)] *)
Lemma list_remove_Permutation `{EqDecision A} (x : A) (l l' : list A) :
  list_remove x l = Ret l' -> l ≡ₚ x :: l'.
Proof.
  revert l'. induction l as [|y l IH]; intros l'; simpl; [done|].
  destruct (decide (y = x)) as [->|Hne]; [by intros [= ->]|].
  destruct (list_remove x l) as [l''|]; [|done]. simpl. intros [= <-].
  rewrite (IH l'' eq_refl). apply Permutation_swap.
Qed.

Lemma count_occ_of_two `{EqDecision A} (x : A) (l : list A) (i j : nat) :
  i < j -> l !! i = Some x -> l !! j = Some x -> 2 <= count_occ_of x l.
Proof.
  intros Hij Hi Hj. unfold count_occ_of.
  rewrite <- (take_drop_middle l i x Hi), filter_app, filter_cons.
  destruct (decide (x = x)); [|done]. rewrite length_app. simpl.
  assert (x ∈ drop (S i) l) as Hin.
  { apply list_elem_of_lookup. exists (j - S i). rewrite lookup_drop.
    by replace (S i + (j - S i)) with j by lia. }
  apply (count_occ_of_pos x) in Hin. unfold count_occ_of in Hin. lia.
Qed.

(** Removing the two chosen strings succeeds and leaves the others. *)
Lemma remove_pair (strings : list str) (i j : nat) (s1 s2 : str) :
  i < j -> strings !! i = Some s1 -> strings !! j = Some s2 ->
  exists l1 l2,
    list_remove s1 strings = Ret l1 /\ list_remove s2 l1 = Ret l2
    /\ strings ≡ₚ s1 :: s2 :: l2.
Proof.
  intros Hij H1 H2.
  destruct (list_remove_Ret s1 strings) as (l1 & Hl1 & _ & _ & Hc1).
  { by eapply list_elem_of_lookup_2. }
  pose proof (list_remove_Permutation _ _ _ Hl1) as Hp1.
  assert (s2 ∈ l1) as Hin.
  { destruct (decide (s1 = s2)) as [->|Hne].
    - apply count_occ_of_pos.
      pose proof (count_occ_of_two s2 strings i j Hij H1 H2). lia.
    - assert (s2 ∈ s1 :: l1) as [?|?]%elem_of_cons; [|congruence|done].
      rewrite <- Hp1. by eapply list_elem_of_lookup_2. }
  destruct (list_remove_Ret s2 l1 Hin) as (l2 & Hl2 & _).
  pose proof (list_remove_Permutation _ _ _ Hl2) as Hp2.
  exists l1, l2. split; [done|]. split; [done|]. by rewrite Hp1, Hp2.
Qed.

(** The overlap is shorter than both strings. *)
Lemma computeOverlap_bound (s1 s2 : str) :
  let o := (computeOverlap s1 s2).1.2 in
  o = length s1 \/ length s1 - o < length s1 `min` length s2.
Proof.
  unfold computeOverlap.
  apply (foldl_invariant
    (fun mo : nat * nat * nat =>
       mo.1.2 = length s1
       \/ length s1 - mo.1.2 < length s1 `min` length s2)).
  - by left.
  - intros mo i Hi%elem_of_seq Hmo. destruct (decide _); [|done].
    unfold triple_max. destruct (triple_ltb _ _); [|done].
    simpl. right. lia.
Qed.

Lemma prefix_drop {A} (l1 l2 : list A) (p : nat) :
  l1 `prefix_of` l2 -> drop p l1 `prefix_of` drop p l2.
Proof. intros [k ->]. rewrite drop_app. by eexists. Qed.

Lemma blum_step_spec (Ss strings : list str) (idx : gmap str (list nat)) :
  blum_invariant Ss strings idx -> 2 <= length strings ->
  exists strings' idx',
    blum_step strings idx = Ret (strings', idx')
    /\ blum_invariant Ss strings' idx'
    /\ S (length strings') = length strings.
Proof.
  intros (Hne & _ & Hkeys & Hbound & Hcov) Hlen. unfold blum_step.
  destruct (pairWithMaximumOverlap_Ret strings Hlen)
    as (i & j & s1 & s2 & -> & Hij & H1 & H2).
  cbn [mbind res_bind].
  destruct (remove_pair strings i j s1 s2 Hij H1 H2)
    as (l1 & l2 & -> & Hl2 & Hperm).
  cbn [mbind res_bind]. rewrite Hl2. cbn [mbind res_bind].
  destruct (merge_prefix s1 s2) as [Hpre Hlo].
  set (o := (computeOverlap s1 s2).1.2) in *.
  set (merged := take o s1 ++ s2) in *.
  assert (s1 ∈ strings) as Hs1 by (by eapply list_elem_of_lookup_2).
  assert (s2 ∈ strings) as Hs2 by (by eapply list_elem_of_lookup_2).
  destruct (Hkeys s1 Hs1) as [i1 Hi1]. destruct (Hkeys s2 Hs2) as [i2 Hi2].
  assert (length s1 < length merged) as Hlonger.
  { assert (1 <= length s2).
    { rewrite Forall_forall in Hne. by apply Hne. }
    unfold merged. rewrite length_app, Hlo.
    destruct (computeOverlap_spec s1 s2) as [Ho _].
    pose proof (computeOverlap_bound s1 s2) as Hb.
    cbv zeta in Ho, Hb. unfold o. lia. }
  set (idx1 := match idx !! merged with
               | Some _ => idx
               | None => <[merged := []]> idx
               end).
  assert (exists old, idx1 !! merged = Some old
            /\ (idx !! merged = Some old \/ (idx !! merged = None /\ old = [])))
    as (old & Hold & Holdcase).
  { unfold idx1. destruct (idx !! merged) as [old|] eqn:E.
    - exists old. auto.
    - exists []. rewrite lookup_insert_eq. auto. }
  assert (forall t, t <> merged -> idx1 !! t = idx !! t) as Hother.
  { intros t Ht. unfold idx1. destruct (idx !! merged); [done|].
    by rewrite lookup_insert_ne. }
  assert (s1 <> merged) as Hne1.
  { intros Heq. rewrite <- Heq in Hlonger. lia. }
  assert (s2 <> merged) as Hne2.
  { intros Heq. apply (f_equal length) in Heq. unfold merged in Heq.
    rewrite length_app, Hlo in Heq.
    assert (1 <= length s1).
    { rewrite Forall_forall in Hne. by apply Hne. }
    pose proof (computeOverlap_bound s1 s2) as Hb.
    cbv zeta in Hb. unfold o in Heq. lia. }
  rewrite (getitem_Ret _ _ _ Hold). cbn [mbind res_bind].
  rewrite (getitem_Ret idx1 s1 i1) by (by rewrite Hother).
  cbn [mbind res_bind].
  rewrite (getitem_Ret idx1 s2 i2) by (by rewrite Hother).
  cbn [mbind res_bind].
  eexists _, _. split; [reflexivity|].
  assert (forall t, t ∈ l2 -> t ∈ strings) as Hsub.
  { intros t Ht. rewrite Hperm. by do 2 right. }
  split; [|rewrite length_app; rewrite (Permutation_length Hperm); simpl; lia].
  split; [|split; [|split; [|split]]].
  - apply Forall_app. split.
    + rewrite Forall_forall in *. auto.
    + apply Forall_singleton. lia.
  - by destruct l2.
  - intros t [Ht|Ht%list_elem_of_singleton]%elem_of_app.
    + apply lookup_insert_is_Some'. right.
      destruct (decide (t = merged)) as [->|Hnm]; [by rewrite Hold|].
      rewrite Hother by done. auto.
    + subst t. by rewrite lookup_insert_eq.
  - intros t l Hl. apply lookup_insert_Some in Hl as [[<- <-]|[Hnm Hl]].
    + apply Forall_app. split; [|apply Forall_app; split].
      * destruct Holdcase as [Ho|[_ ->]]; [by eapply Hbound|constructor].
      * eapply Forall_impl; [by eapply Hbound|]. simpl. intros. lia.
      * rewrite Forall_fmap. eapply Forall_impl; [by eapply Hbound|].
        simpl. intros p Hp. unfold merged. rewrite length_app, Hlo. lia.
    + rewrite Hother in Hl by done. by eapply Hbound.
  - intros s Hs. destruct (Hcov s Hs) as (t & l & p & Ht & Hl & Hp & Hsp).
    rewrite Hperm in Ht.
    apply elem_of_cons in Ht as [->|[->|Ht]%elem_of_cons].
    + exists merged. eexists. exists p.
      split; [apply elem_of_app; right; left|].
      split; [by rewrite lookup_insert_eq|]. split.
      * rewrite Hi1 in Hl. injection Hl as <-. rewrite !elem_of_app. auto.
      * etrans; [exact Hsp|]. by apply prefix_drop.
    + exists merged. eexists. exists (p + o).
      split; [apply elem_of_app; right; left|].
      split; [by rewrite lookup_insert_eq|]. split.
      * rewrite Hi2 in Hl. injection Hl as <-. rewrite !elem_of_app.
        right. right. apply list_elem_of_fmap. eauto.
      * unfold merged. rewrite drop_app_ge by lia. rewrite Hlo.
        by replace (p + o - o) with p by lia.
    + destruct (decide (t = merged)) as [->|Hnm].
      * exists merged. eexists. exists p.
        split; [apply elem_of_app; right; left|].
        split; [by rewrite lookup_insert_eq|]. split; [|done].
        destruct Holdcase as [Ho|[Ho _]]; [|congruence].
        rewrite Ho in Hl. injection Hl as <-. rewrite !elem_of_app. auto.
      * exists t, l, p. split; [apply elem_of_app; by left|].
        split; [|done]. rewrite lookup_insert_ne by done. by rewrite Hother.
Qed.

Lemma blum_loop_spec (fuel : nat) (Ss strings : list str)
    (idx : gmap str (list nat)) :
  length strings <= fuel -> blum_invariant Ss strings idx ->
  exists superstring idx',
    blum_loop fuel strings idx = Ret ([superstring], idx')
    /\ blum_invariant Ss [superstring] idx'.
Proof.
  revert strings idx. induction fuel as [|f IH]; intros strings idx Hfuel Hinv.
  - destruct Hinv as (_ & Hne & _). destruct strings; [done|simpl in Hfuel; lia].
  - simpl. destruct (decide (1 < length strings)) as [Hlen|Hlen].
    + destruct (blum_step_spec Ss strings idx Hinv)
        as (strings' & idx' & -> & Hinv' & Hlen'); [lia|].
      cbn [mbind res_bind]. apply IH; [lia|done].
    + destruct strings as [|t [|t' strings]]; [by destruct Hinv as (_ & ? & _)|
        |simpl in Hlen; lia].
      eauto.
Qed.

(** *** Breaking the superstring *)

Lemma slice_app {A} (l : list A) (a b c : nat) :
  a <= b <= c -> slice a b l ++ slice b c l = slice a c l.
Proof.
  intros Habc. unfold slice.
  replace (drop b l) with (drop (b - a) (drop a l))
    by (rewrite drop_drop; f_equal; lia).
  rewrite take_take_drop. f_equal. lia.
Qed.

Lemma slice_length {A} (l : list A) (a b : nat) :
  a <= b <= length l -> length (slice a b l) = b - a.
Proof. intros H. unfold slice. rewrite length_take, length_drop. lia. Qed.

Lemma break_at_cons (sup : str) (x y : nat) (rest : list nat) :
  break_at sup (x :: y :: rest) = slice x y sup :: break_at sup (y :: rest).
Proof.
  unfold break_at. simpl. by rewrite ?Nat.sub_0_r.
Qed.

Lemma drop_break_at (sup : str) (L : list nat) (i : nat) :
  drop i (break_at sup L) = break_at sup (drop i L).
Proof.
  revert i. induction L as [|x [|y rest] IH]; intros i.
  - by destruct i.
  - destruct i as [|[|i]]; done.
  - destruct i as [|i]; [done|]. rewrite break_at_cons. simpl. apply IH.
Qed.

Lemma length_break_at (sup : str) (L : list nat) :
  length (break_at sup L) = length L - 1.
Proof.
  induction L as [|x [|y rest] IH]; [done|done|].
  rewrite break_at_cons. simpl in *. lia.
Qed.

Lemma StronglySorted_lt_last (x y : nat) (L : list nat) :
  StronglySorted lt (x :: L) -> last (x :: L) = Some y -> x <= y.
Proof.
  intros Hss Hlast. apply StronglySorted_inv in Hss as [_ Hall].
  destruct L as [|z L]; [by injection Hlast as ->|].
  rewrite last_cons_cons in Hlast. apply last_Some_elem_of in Hlast.
  rewrite Forall_forall in Hall. specialize (Hall y Hlast). lia.
Qed.

Lemma break_at_join (sup : str) (x y : nat) (L : list nat) :
  StronglySorted lt (x :: L) -> last (x :: L) = Some y ->
  join (break_at sup (x :: L)) = slice x y sup.
Proof.
  revert x. induction L as [|z L IH]; intros x Hss Hlast.
  - injection Hlast as ->. unfold slice. by rewrite Nat.sub_diag.
  - rewrite break_at_cons. rewrite last_cons_cons in Hlast.
    pose proof Hss as Hss'.
    apply StronglySorted_inv in Hss as [Hss Hall].
    apply Forall_cons in Hall as [Hxz _].
    pose proof (StronglySorted_lt_last z y L Hss Hlast).
    unfold join in *. simpl. rewrite (IH z Hss Hlast).
    apply slice_app. lia.
Qed.

Lemma break_at_nonempty (sup : str) (L : list nat) :
  StronglySorted lt L -> Forall (fun p => p <= length sup) L ->
  Forall (fun t => 1 <= length t) (break_at sup L).
Proof.
  induction L as [|x [|y rest] IH]; intros Hss Hb; [constructor|constructor|].
  rewrite break_at_cons.
  apply StronglySorted_inv in Hss as [Hss Hall].
  apply Forall_cons in Hall as [Hxy _].
  apply Forall_cons in Hb as [Hx Hb]. pose proof Hb as Hb'.
  apply Forall_cons in Hb' as [Hy _].
  constructor; [|by apply IH]. rewrite slice_length; lia.
Qed.

Lemma StronglySorted_le_lt (L : list nat) :
  StronglySorted le L -> NoDup L -> StronglySorted lt L.
Proof.
  induction 1 as [|x L Hss IH Hall]; intros Hnd; [constructor|].
  apply NoDup_cons in Hnd as [Hx Hnd]. constructor; [by apply IH|].
  rewrite Forall_forall in *. intros y Hy. specialize (Hall y Hy).
  assert (x <> y) by (by intros ->). lia.
Qed.

Lemma sorted_set_spec (l : list nat) :
  StronglySorted lt (sorted_set l) /\ forall x, x ∈ sorted_set l <-> x ∈ l.
Proof.
  unfold sorted_set. split.
  - apply StronglySorted_le_lt.
    + apply StronglySorted_merge_sort; apply _.
    + rewrite merge_sort_Permutation. apply NoDup_remove_dups.
  - intros x. by rewrite merge_sort_Permutation, elem_of_remove_dups.
Qed.

Lemma StronglySorted_lt_last_max (L : list nat) (m : nat) :
  StronglySorted lt L -> m ∈ L -> (forall x, x ∈ L -> x <= m) ->
  last L = Some m.
Proof.
  intros Hss Hm Hmax.
  destruct (last L) as [y|] eqn:Hlast; [|by apply last_None in Hlast; subst;
    apply elem_of_nil in Hm].
  f_equal. apply last_Some in Hlast as [L' ->].
  apply elem_of_app in Hm as [Hm|Hm%list_elem_of_singleton]; [|done].
  pose proof (StronglySorted_app_1_elem_of _ _ _ m y Hss Hm ltac:(left)) as Hlt.
  assert (y <= m) by (apply Hmax; apply elem_of_app; right; left).
  lia.
Qed.

(** Every string that starts at a recorded offset starts at a boundary of
    the broken sequence. *)
Lemma break_at_starts (sup s : str) (l : list nat) (p : nat) :
  Forall (fun q => q <= length sup) l -> p ∈ l ->
  1 <= length s -> s `prefix_of` drop p sup ->
  starts_in s (break_at sup (sorted_set ([0] ++ l ++ [length sup]))).
Proof.
  intros Hb Hp Hs Hpre.
  set (L := sorted_set ([0] ++ l ++ [length sup])).
  destruct (sorted_set_spec ([0] ++ l ++ [length sup])) as [Hss Hmem].
  fold L in Hss, Hmem.
  assert (forall x, x ∈ L -> x <= length sup) as HLb.
  { intros x [ ->%list_elem_of_singleton | [Hx | ->%list_elem_of_singleton]
      %elem_of_app ]%Hmem%elem_of_app; [lia| |lia].
    rewrite Forall_forall in Hb. auto. }
  assert (last L = Some (length sup)) as Hlast.
  { apply StronglySorted_lt_last_max; [done| |done].
    apply Hmem. rewrite !elem_of_app. right. right. left. }
  assert (p < length sup) as Hplt.
  { apply prefix_length in Hpre. rewrite length_drop in Hpre. lia. }
  assert (p ∈ L) as HpL by (apply Hmem; rewrite !elem_of_app; auto).
  apply list_elem_of_lookup in HpL as (i & Hi).
  pose proof (lookup_lt_Some _ _ _ Hi) as Hilt.
  assert (i < length L - 1) as Hi'.
  { rewrite last_lookup in Hlast.
    destruct (decide (i = pred (length L))) as [->|]; [|lia].
    rewrite Hi in Hlast. injection Hlast as ->. lia. }
  exists i. split; [rewrite length_break_at; lia|].
  rewrite drop_break_at, (drop_S _ _ _ Hi).
  rewrite (break_at_join sup p (length sup)).
  - unfold slice. rewrite take_ge; [done|]. rewrite length_drop. lia.
  - rewrite <- (drop_S _ _ _ Hi).
    rewrite <- (take_drop i L) in Hss.
    by apply StronglySorted_app_1_r in Hss.
  - rewrite <- (drop_S _ _ _ Hi).
    rewrite <- (take_drop i L), last_app in Hlast.
    destruct (last (drop i L)) eqn:E; [done|].
    apply last_None in E. apply (f_equal length) in E.
    rewrite length_drop in E. simpl in E. lia.
Qed.

Lemma initial_indices (l : list str) (m0 : gmap str (list nat)) (t : str) :
  foldl (fun idx s => <[s := [0]]> idx) m0 l !! t
  = if decide (t ∈ l) then Some [0] else m0 !! t.
Proof.
  revert m0. induction l as [|s l IH]; intros m0; cbn [foldl].
  - case_decide as Hin; [by apply elem_of_nil in Hin|done].
  - rewrite IH. destruct (decide (t ∈ l)) as [Hin|Hnin].
    + rewrite decide_True; [done|by right].
    + destruct (decide (t = s)) as [->|Hne].
      * rewrite lookup_insert_eq. rewrite decide_True; [done|left].
      * rewrite lookup_insert_ne by done.
        rewrite decide_False; [done|]. by intros [?|?]%elem_of_cons.
Qed.

(** [blumSmallestSuperstringAndBreaking] returns non-empty segments, and
    every input string starts at one of their boundaries. *)
Lemma blumSmallestSuperstringAndBreaking_spec (Ss : list str) :
  Ss <> [] -> Forall (fun s => 1 <= length s) Ss ->
  exists out, blumSmallestSuperstringAndBreaking Ss = Ret out
    /\ Forall (fun s => 1 <= length s) out
    /\ forall s, s ∈ Ss -> starts_in s out.
Proof.
  intros Hne Hlen. unfold blumSmallestSuperstringAndBreaking.
  destruct (blum_loop_spec (length Ss) Ss Ss
              (foldl (fun idx s => <[s := [0]]> idx) ∅ Ss))
    as (sup & idx & -> & (_ & _ & Hkeys & Hbound & Hcov)); [done| |].
  { split; [done|]. split; [done|]. split; [|split].
    - intros t Ht. rewrite initial_indices, decide_True by done. eauto.
    - intros t l. rewrite initial_indices.
      destruct (decide _); [|by rewrite lookup_empty].
      intros [= <-]. constructor; [lia|constructor].
    - intros s Hs. exists s, [0], 0. split; [done|].
      split; [by rewrite initial_indices, decide_True|]. split; [left|].
      by rewrite drop_0. }
  cbn [mbind res_bind]. change (index [sup] 0%Z) with (Ret sup).
  cbn [mbind res_bind].
  destruct (Hkeys sup) as [l Hl]; [left|].
  rewrite (getitem_Ret _ _ _ Hl). cbn [mbind res_bind].
  eexists. split; [done|]. split.
  - destruct (sorted_set_spec ([0] ++ l ++ [length sup])) as [Hss Hmem].
    apply break_at_nonempty; [done|]. apply Forall_forall.
    intros x [ ->%list_elem_of_singleton | [Hx | ->%list_elem_of_singleton]
      %elem_of_app ]%Hmem%elem_of_app; [lia| |lia].
    specialize (Hbound sup l Hl). rewrite Forall_forall in Hbound. auto.
  - intros s Hs. destruct (Hcov s Hs) as (t & l' & p & Ht & Hl' & Hp & Hpre).
    apply list_elem_of_singleton in Ht as ->.
    rewrite Hl in Hl'. injection Hl' as <-.
    apply (break_at_starts sup s l p); [by eapply Hbound|done| |done].
    rewrite Forall_forall in Hlen. auto.
Qed.

(** *** Levels *)

Lemma splitTooBigs_cons (s : str) (C : list str) (k : nat) :
  splitTooBigs (s :: C) k = splitTooBigs [s] k ++ splitTooBigs C k.
Proof. unfold splitTooBigs. simpl. by rewrite app_nil_r. Qed.

Lemma splitTooBigs_single_length (s : str) (k : nat) :
  1 <= length (splitTooBigs [s] k).
Proof. unfold splitTooBigs. simpl. destruct (decide _); simpl; lia. Qed.

(** Splitting keeps every segment boundary. *)
Lemma splitTooBigs_boundary (C : list str) (k j : nat) :
  j < length C ->
  exists j', j' < length (splitTooBigs C k)
    /\ join (drop j' (splitTooBigs C k)) = join (drop j C).
Proof.
  revert j. induction C as [|s C IH]; intros j Hj; [simpl in Hj; lia|].
  rewrite splitTooBigs_cons. pose proof (splitTooBigs_single_length s k).
  destruct j as [|j].
  - exists 0. split; [rewrite length_app; lia|].
    rewrite !drop_0, <- splitTooBigs_cons. apply splitTooBigs_join.
  - destruct (IH j) as (j' & Hj' & Heq); [simpl in Hj; lia|].
    exists (length (splitTooBigs [s] k) + j'). split.
    + rewrite length_app. lia.
    + rewrite drop_app_ge by lia.
      replace (length (splitTooBigs [s] k) + j' - length (splitTooBigs [s] k))
        with j' by lia.
      done.
Qed.

Lemma splitTooBigs_starts (s : str) (C : list str) (k : nat) :
  starts_in s C -> starts_in s (splitTooBigs C k).
Proof.
  intros (j & Hj & Hpre).
  destruct (splitTooBigs_boundary C k j Hj) as (j' & Hj' & Heq).
  exists j'. split; [done|]. by rewrite Heq.
Qed.

Lemma splitTooBigs_nonempty (C : list str) (k : nat) :
  1 <= k -> Forall (fun s => 1 <= length s) C ->
  Forall (fun s => 1 <= length s) (splitTooBigs C k).
Proof.
  intros Hk HC. apply Forall_forall. intros t Ht.
  apply elem_of_splitTooBigs in Ht as (s & Hs & Hcase).
  rewrite Forall_forall in HC. specialize (HC s Hs).
  destruct Hcase as [[_ ->]|[Hlt [-> | ->]]]; [done| |].
  - rewrite length_take. pose proof (half_lt (length s)). lia.
  - rewrite length_drop. pose proof (half_lt (length s)). lia.
Qed.

Lemma index_last {A} (l : list A) (x : A) :
  last l = Some x -> index l (-1) = Ret x.
Proof.
  intros Hlast. rewrite last_lookup in Hlast.
  pose proof (lookup_lt_Some _ _ _ Hlast) as Hlt.
  unfold index, position. simpl.
  destruct (Z.ltb_spec (Z.of_nat (length l) + -1) 0); [lia|].
  destruct (Z.ltb_spec (Z.of_nat (length l) + -1) (Z.of_nat (length l))); [|lia].
  replace (Z.to_nat (Z.of_nat (length l) + -1)) with (pred (length l)) by lia.
  by rewrite Hlast.
Qed.

Lemma generateCs_loop_spec (fuel k : nat) (Cs : list (list str)) :
  k <= fuel -> Cs <> [] -> levels_ok Cs ->
  exists Cs', generateCs_loop fuel k Cs = Ret Cs'
    /\ levels_ok Cs' /\ Cs `prefix_of` Cs'.
Proof.
  revert k Cs. induction fuel as [|f IH]; intros k Cs Hk Hne Hok; simpl.
  - destruct (decide (2 <= k)); [lia|]. by exists Cs.
  - destruct (decide (2 <= k)) as [Hk2|]; [|by exists Cs].
    destruct (last Cs) as [C|] eqn:Hlast; [|by apply last_None in Hlast].
    rewrite (index_last _ _ Hlast). cbn [mbind res_bind].
    destruct Hok as [Hlev Hnext].
    destruct (Hlev C) as [HCne HClen]; [by apply last_Some_elem_of|].
    destruct (blumSmallestSuperstringAndBreaking_spec C HCne HClen)
      as (pk & -> & Hpk & Hstarts).
    cbn [mbind res_bind].
    destruct (IH (k / 2) (Cs ++ [splitTooBigs pk k])) as (Cs' & -> & Hok' & Hpre).
    + pose proof (half_lt k). lia.
    + by destruct Cs.
    + split.
      * intros C' [HC' | ->%list_elem_of_singleton]%elem_of_app; [auto|].
        split; [|apply splitTooBigs_nonempty; [lia|done]].
        destruct C as [|s C]; [done|].
        destruct (Hstarts s) as (j & Hj & _); [left|].
        apply (splitTooBigs_starts s pk k) in Hstarts as (j' & Hj' & _); [|left].
        intros Heq. rewrite Heq in Hj'. simpl in Hj'. lia.
      * intros i C1 C2 H1 H2 s Hs.
        destruct (decide (S i < length Cs)) as [Hi|Hi].
        -- rewrite lookup_app_l in H1, H2 by lia.
           exact (Hnext i C1 C2 H1 H2 s Hs).
        -- assert (S i = length Cs) as Hi'.
           { apply lookup_lt_Some in H2. rewrite length_app in H2.
             simpl in H2. lia. }
           rewrite lookup_app_l in H1 by lia.
           rewrite lookup_app_r, Hi', Nat.sub_diag in H2 by lia.
           injection H2 as <-.
           rewrite last_lookup in Hlast.
           replace (pred (length Cs)) with i in Hlast by lia.
           rewrite H1 in Hlast. injection Hlast as ->.
           by apply splitTooBigs_starts, Hstarts.
    + exists Cs'. split; [done|]. split; [done|].
      etrans; [|exact Hpre]. by apply prefix_app_r.
Qed.

Lemma generateCs_spec (ceil_log2 : nat -> nat) (S : str) :
  1 <= length S ->
  exists rest, generateCs ceil_log2 S = Ret ([S] :: rest)
    /\ levels_ok ([S] :: rest).
Proof.
  intros Hlen. unfold generateCs.
  destruct (decide (length S = 0)); [lia|]. cbv zeta.
  destruct (generateCs_loop_spec (initial_k (ceil_log2 (length S)))
              (initial_k (ceil_log2 (length S))) [[S]])
    as (Cs & -> & Hok & [rest ->]); [done|done| |].
  - split.
    + intros C ->%list_elem_of_singleton. split; [done|].
      constructor; [done|constructor].
    + intros i C C' H1 H2. apply lookup_lt_Some in H2. simpl in H2. lia.
  - exists rest. done.
Qed.

(** ** LEHMAN1: the substring construction *)

Lemma foldl_insert_lookup {A} (f : A -> str) (h : A -> list str)
    (l : list A) (g : grammar) (k : str) (v : list str) :
  foldl (fun g i => <[f i := h i]> g) g l !! k = Some v ->
  g !! k = Some v \/ exists i, i ∈ l /\ k = f i /\ v = h i.
Proof.
  revert g. induction l as [|i l IH]; intros g; simpl; [by left|].
  intros [Hk|(j & Hj & ? & ?)]%IH.
  - apply lookup_insert_Some in Hk as [[<- <-]|[_ Hk]]; [right|by left].
    exists i. split; [left|done].
  - right. exists j. split; [by right|done].
Qed.

Lemma foldl_insert_keys {A} (f : A -> str) (h : A -> list str)
    (l : list A) (g : grammar) (k : str) :
  is_Some (g !! k) \/ (exists i, i ∈ l /\ k = f i) ->
  is_Some (foldl (fun g i => <[f i := h i]> g) g l !! k).
Proof.
  revert g. induction l as [|i l IH]; intros g; simpl.
  - intros [?|(i & ?%elem_of_nil & _)]; done.
  - intros [Hk|(j & [->|Hj]%elem_of_cons & ->)]; apply IH.
    + left. by apply is_Some_insert_r.
    + left. by rewrite lookup_insert_eq.
    + right. eauto.
Qed.

Lemma slice_cons {A} (l : list A) (a b : nat) (x : A) :
  l !! a = Some x -> a < b -> slice a b l = x :: slice (S a) b l.
Proof.
  intros Ha Hab. unfold slice. rewrite (drop_S _ _ _ Ha).
  replace (b - a) with (S (b - S a)) by lia. done.
Qed.

Lemma slice_snoc {A} (l : list A) (a b : nat) (x : A) :
  l !! b = Some x -> a <= b -> slice a (S b) l = slice a b l ++ [x].
Proof.
  intros Hb Hab. rewrite <- (slice_app l a b (S b)) by lia. f_equal.
  rewrite (slice_cons _ _ _ _ Hb) by lia. unfold slice.
  by rewrite Nat.sub_diag.
Qed.

Lemma slice_single {A} (l : list A) (a : nat) (x : A) :
  l !! a = Some x -> slice a (S a) l = [x].
Proof.
  intros Ha. rewrite (slice_cons _ _ _ _ Ha) by lia. unfold slice.
  by rewrite Nat.sub_diag.
Qed.

Lemma join_single (x : str) : join [x] = x.
Proof. unfold join. simpl. apply app_nil_r. Qed.

Lemma join_cons (x : str) (l : list str) : join (x :: l) = x ++ join l.
Proof. done. Qed.

Lemma slice_nonempty_join (S : list str) (a b : nat) :
  Forall (fun s => 1 <= length s) S -> a < b <= length S ->
  1 <= length (join (slice a b S)).
Proof.
  intros HS Hab. apply join_nonempty.
  - unfold slice. by apply Forall_take, Forall_drop.
  - rewrite slice_length; lia.
Qed.

Lemma slice_take {A} (l : list A) (a b n : nat) :
  a <= b <= n -> slice a b (take n l) = slice a b l.
Proof.
  intros Hb. unfold slice. rewrite !take_drop_commute, take_take.
  do 2 f_equal. lia.
Qed.

Lemma slice_drop {A} (l : list A) (a b n : nat) :
  slice a b (drop n l) = slice (n + a) (n + b) l.
Proof.
  unfold slice. rewrite drop_drop. f_equal. lia.
Qed.

Lemma sc_production_mono (S S' : list str) (g g' : grammar) k rhs :
  (forall x, x ∈ S -> x ∈ S') ->
  (forall x, is_Some (g !! x) -> is_Some (g' !! x)) ->
  sc_production S g k rhs -> sc_production S' g' k rhs.
Proof.
  intros HS Hg (x & y & -> & Hk & Hx & Hy & Hxs & Hys).
  exists x, y. repeat split; try done; [destruct Hxs|destruct Hys]; auto.
Qed.

(** [recursiveCall] returns on a non-empty list of non-empty segments.
    It only adds keys; what it adds are productions of the construction;
    and afterwards every range of three or more segments splits. *)
Lemma recursiveCall_spec (fuel : nat) (S : list str) (g : grammar) :
  1 <= length S <= fuel ->
  Forall (fun s => 1 <= length s) S ->
  exists g', recursiveCall fuel S g = Ret g'
    /\ (forall k, is_Some (g !! k) -> is_Some (g' !! k))
    /\ (forall k rhs, g' !! k = Some rhs ->
          g !! k = Some rhs \/ sc_production S g' k rhs)
    /\ has_splits g' S.
Proof.
  revert S g. induction fuel as [|f IH]; intros S g Hlen HS; [lia|].
  simpl. destruct (decide (length S = 1)) as [H1|H1].
  - exists g. split; [done|]. split; [done|]. split; [by left|].
    intros a b Hab Hb. lia.
  - assert (2 <= length S) as H2 by lia.
    pose proof (half_lt _ H2) as Hmid.
    set (mid := length S / 2) in *.
    set (g1 := foldl (fun g i =>
                 <[join (slice i mid S) :=
                     [S !!! i; join (slice (i + 1) mid S)]]> g)
               g (seq 0 (mid - 1))).
    set (g2 := foldl (fun g i =>
                 <[join (slice mid (i + 1) S) :=
                     [join (slice mid i S); S !!! i]]> g)
               g1 (seq (mid + 1) (length S - (mid + 1)))).
    destruct (IH (take mid S) g2) as (g3 & -> & Hmono3 & Hprod3 & Hsplit3).
    { rewrite length_take. lia. }
    { by apply Forall_take. }
    cbn [mbind res_bind].
    destruct (IH (drop mid S) g3) as (g4 & -> & Hmono4 & Hprod4 & Hsplit4).
    { rewrite length_drop. lia. }
    { by apply Forall_drop. }
    assert (forall i, i + 2 <= mid -> is_Some (g1 !! join (slice i mid S)))
      as Hkeys1.
    { intros i Hi. apply (foldl_insert_keys (fun i => join (slice i mid S))).
      right. exists i. split; [apply elem_of_seq; lia|done]. }
    assert (forall k, is_Some (g !! k) -> is_Some (g1 !! k)) as Hmono1.
    { intros k Hk. apply (foldl_insert_keys (fun i => join (slice i mid S))).
      by left. }
    assert (forall i, mid + 1 <= i < length S ->
              is_Some (g2 !! join (slice mid (i + 1) S))) as Hkeys2.
    { intros i Hi.
      apply (foldl_insert_keys (fun i => join (slice mid (i + 1) S))).
      right. exists i. split; [apply elem_of_seq; lia|done]. }
    assert (forall k, is_Some (g1 !! k) -> is_Some (g2 !! k)) as Hmono2.
    { intros k Hk.
      apply (foldl_insert_keys (fun i => join (slice mid (i + 1) S))).
      by left. }
    assert (forall k, is_Some (g2 !! k) -> is_Some (g4 !! k)) as Hmono24
      by auto.
    exists g4. split; [done|]. split; [auto|]. split.
    + intros k rhs Hk.
      destruct (Hprod4 k rhs Hk) as [Hk3|Hsc].
      2:{ right.
          eapply (sc_production_mono (drop mid S) S g4 g4); [|done|exact Hsc].
          intros x Hx. apply list_elem_of_lookup in Hx as (j & Hj).
          rewrite lookup_drop in Hj. by eapply list_elem_of_lookup_2. }
      destruct (Hprod3 k rhs Hk3) as [Hk2|Hsc].
      2:{ right.
          eapply (sc_production_mono (take mid S) S g3 g4);
            [|exact Hmono4|exact Hsc].
          intros x (j & Hj & _)%elem_of_take. by eapply list_elem_of_lookup_2. }
      apply (foldl_insert_lookup (fun i => join (slice mid (i + 1) S))
               (fun i => [join (slice mid i S); S !!! i])) in Hk2
        as [Hk1|(i & Hi%elem_of_seq & -> & ->)].
      2:{ right.
          assert (is_Some (S !! i)) as [x Hx] by (apply lookup_lt_is_Some; lia).
          rewrite (list_lookup_total_correct _ _ _ Hx).
          exists (join (slice mid i S)), x. split; [done|].
          split; [|split; [|split; [|split]]].
          - replace (i + 1) with (Datatypes.S i) by lia.
            rewrite (slice_snoc _ _ _ _ Hx) by lia.
            by rewrite join_app, join_single.
          - apply slice_nonempty_join; [done|lia].
          - rewrite Forall_forall in HS. apply HS.
            by eapply list_elem_of_lookup_2.
          - destruct (decide (i = mid + 1)) as [->|Hne].
            + left.
              assert (is_Some (S !! mid)) as [y Hy]
                by (apply lookup_lt_is_Some; lia).
              replace (mid + 1) with (Datatypes.S mid) by lia.
              rewrite (slice_single _ _ _ Hy), join_single.
              by eapply list_elem_of_lookup_2.
            + right. apply Hmono24.
              replace i with (i - 1 + 1) at 1 by lia. apply Hkeys2. lia.
          - left. by eapply list_elem_of_lookup_2. }
      apply (foldl_insert_lookup (fun i => join (slice i mid S))
               (fun i => [S !!! i; join (slice (i + 1) mid S)])) in Hk1
        as [Hk0|(i & Hi%elem_of_seq & -> & ->)]; [by left|].
      right.
      assert (is_Some (S !! i)) as [x Hx] by (apply lookup_lt_is_Some; lia).
      rewrite (list_lookup_total_correct _ _ _ Hx).
      exists x, (join (slice (i + 1) mid S)). split; [done|].
      split; [|split; [|split; [|split]]].
      * rewrite (slice_cons _ _ _ _ Hx) by lia.
        by replace (i + 1) with (Datatypes.S i) by lia.
      * rewrite Forall_forall in HS. apply HS.
        by eapply list_elem_of_lookup_2.
      * apply slice_nonempty_join; [done|lia].
      * left. by eapply list_elem_of_lookup_2.
      * destruct (decide (i + 2 = mid)) as [Heq|Hne].
        -- left.
           assert (is_Some (S !! (i + 1))) as [y Hy]
             by (apply lookup_lt_is_Some; lia).
           replace mid with (Datatypes.S (i + 1)) by lia.
           rewrite (slice_single _ _ _ Hy), join_single.
           by eapply list_elem_of_lookup_2.
        -- right. apply Hmono24, Hmono2, Hkeys1. lia.
    + intros a b Hab Hb.
      destruct (decide (b <= mid)) as [Hbm|Hbm].
      { destruct (Hsplit3 a b Hab) as (m & Hm & Hl & Hr).
        { rewrite length_take. lia. }
        exists m. split; [done|].
        rewrite !slice_take in Hl, Hr by lia.
        split; [destruct Hl; auto|destruct Hr; auto]. }
      destruct (decide (mid <= a)) as [Ham|Ham].
      { destruct (Hsplit4 (a - mid) (b - mid)) as (m & Hm & Hl & Hr); [lia| |].
        { rewrite length_drop. lia. }
        exists (mid + m). split; [lia|].
        rewrite !slice_drop in Hl, Hr.
        replace (mid + (a - mid)) with a in Hl by lia.
        replace (mid + (b - mid)) with b in Hr by lia.
        split; [destruct Hl; [left; lia|by right]
               |destruct Hr; [left; lia|by right]]. }
      exists mid. split; [lia|]. split.
      * destruct (decide (mid = a + 1)); [by left|right].
        apply Hmono24, Hmono2, Hkeys1. lia.
      * destruct (decide (mid = b - 1)); [by left|right].
        apply Hmono24. replace b with (b - 1 + 1) by lia. apply Hkeys2. lia.
Qed.

Lemma generateSubstringConstructionGrammar_spec (S : list str) :
  1 <= length S -> Forall (fun s => 1 <= length s) S ->
  exists g, generateSubstringConstructionGrammar S = Ret g
    /\ (forall k rhs, g !! k = Some rhs -> sc_production S g k rhs)
    /\ has_splits g S.
Proof.
  intros Hlen HS. unfold generateSubstringConstructionGrammar.
  destruct (recursiveCall_spec (Datatypes.S (length S)) S ∅)
    as (g & -> & _ & Hprod & Hsplit); [lia|done|].
  exists g. split; [done|]. split; [|done].
  intros k rhs Hk. destruct (Hprod k rhs Hk) as [He|?]; [|done].
  by rewrite lookup_empty in He.
Qed.

(** ** LEHMAN1: longest prefixes and split search *)

Lemma prefix_take_length {A} (s t : list A) :
  s `prefix_of` t <-> s = take (length s) t.
Proof.
  split.
  - intros [k ->]. by rewrite take_app_length.
  - intros ->. apply prefix_take.
Qed.

Lemma findPrefixStart_spec (s : str) (C : list str) :
  starts_in s C ->
  exists start, findPrefixStart s C = Ret start /\ start < length C
    /\ s `prefix_of` join (drop start C).
Proof.
  intros (j & Hj & Hpre). unfold findPrefixStart.
  destruct (list_find _ (seq 0 (length C))) as [[i x]|] eqn:E.
  - apply list_find_Some in E as (Hx & HP & _).
    apply lookup_seq in Hx as [-> Hi]. simpl in *.
    exists i. split; [done|]. split; [done|].
    by apply prefix_take_length.
  - apply list_find_None in E. rewrite Forall_forall in E.
    destruct (E j); [apply elem_of_seq; lia|].
    by apply prefix_take_length.
Qed.

(** The [while] loop takes [n] whole segments, as many as fit. *)
Lemma consume_spec (l : list str) (e r : nat) :
  exists n, consume l e r = (e + n, r - length (join (take n l)))
    /\ n <= length l /\ length (join (take n l)) <= r
    /\ forall x, l !! n = Some x -> r - length (join (take n l)) < length x.
Proof.
  revert e r. induction l as [|x l IH]; intros e r; simpl.
  - exists 0. simpl. split; [f_equal; lia|]. split; [done|]. split; [lia|].
    done.
  - destruct (decide (length x <= r)) as [Hle|Hgt].
    + destruct (IH (e + 1) (r - length x)) as (n & -> & Hn & Hfit & Hnext).
      exists (S n). cbn [take]. rewrite join_cons, length_app.
      split; [f_equal; lia|]. split; [simpl; lia|]. split; [lia|].
      intros y Hy. simpl in Hy. apply Hnext in Hy. lia.
    + exists 0. simpl. split; [f_equal; lia|]. split; [lia|]. split; [lia|].
      intros y [= <-]. lia.
Qed.

(** [findLongestPrefix] finds a run of whole segments spelling a prefix of
    [s]; what is left of [s] is a proper part of one segment. *)
Lemma findLongestPrefix_spec (s : str) (C : list str) :
  starts_in s C ->
  exists start n rem t,
    findLongestPrefix s C = Ret (start, start + n, length s - length rem)
    /\ start < length C /\ start + n <= length C
    /\ s = join (slice start (start + n) C) ++ rem
    /\ t ∈ C /\ rem `prefix_of` t.
Proof.
  intros Hs. unfold findLongestPrefix.
  destruct (findPrefixStart_spec s C Hs) as (start & -> & Hstart & [k Hk]).
  cbn [mbind res_bind].
  destruct (consume_spec (drop start C) start (length s))
    as (n & -> & Hn & Hfit & Hnext).
  rewrite length_drop in Hn.
  set (D := drop start C) in *.
  set (J := join (take n D)) in *.
  assert (join D = J ++ join (drop n D)) as HD.
  { unfold J. by rewrite <- join_app, take_drop. }
  set (rem := drop (length J) s).
  assert (s = J ++ rem) as Hsplit.
  { unfold rem. rewrite <- (take_drop (length J) s) at 1. f_equal.
    assert (take (length J) (s ++ k) = J) as HJ.
    { rewrite <- Hk, HD. by rewrite take_app_length. }
    rewrite take_app_le in HJ by done. done. }
  assert (rem ++ k = join (drop n D)) as Hrem.
  { apply (app_inv_head J). rewrite <- HD, Hk, Hsplit at 1.
    by rewrite <- app_assoc. }
  assert (length rem = length s - length J) as Hlrem.
  { unfold rem. by rewrite length_drop. }
  assert (slice start (start + n) C = take n D) as Hslice.
  { unfold slice, D. f_equal. lia. }
  assert (exists t, t ∈ C /\ rem `prefix_of` t) as (t & Ht & Hpre).
  { destruct (D !! n) as [x|] eqn:Hx.
    - exists x. split.
      + unfold D in Hx. rewrite lookup_drop in Hx.
        by eapply list_elem_of_lookup_2.
      + pose proof (Hnext x eq_refl) as Hlt.
        rewrite (drop_S _ _ _ Hx), join_cons in Hrem.
        apply prefix_take_length.
        assert (take (length rem) (rem ++ k) = rem) as Htk
          by by rewrite take_app_length.
        rewrite Hrem, take_app_le in Htk by lia. done.
    - apply lookup_ge_None in Hx.
      rewrite drop_ge in Hrem by done.
      apply app_eq_nil in Hrem as [Hr _].
      destruct (C !! start) as [x|] eqn:Hx0.
      + exists x. split; [by eapply list_elem_of_lookup_2|].
        rewrite Hr. apply prefix_nil.
      + apply lookup_ge_None in Hx0. lia. }
  exists start, n, rem, t.
  split.
  { do 3 f_equal. rewrite Hlrem. lia. }
  split; [done|]. split; [lia|]. split; [by rewrite Hslice|]. done.
Qed.

Lemma find_split_spec (C : list str) (g : grammar) (start end_ : nat)
    (splits : list nat) (halves : option (str * str)) :
  (exists m, m ∈ splits /\ split_ok C g start end_ m) ->
  exists m, m ∈ splits /\ split_ok C g start end_ m
    /\ find_split C g start end_ splits halves
       = Some (join (slice start m C), join (slice m end_ C)).
Proof.
  revert halves. induction splits as [|x l IH]; intros halves (m & Hm & Hok).
  - by apply elem_of_nil in Hm.
  - cbn [find_split].
    destruct ((bool_decide (x = start + 1)
               || bool_decide (is_Some (g !! join (slice start x C))))
              && (bool_decide (x = end_ - 1)
                  || bool_decide (is_Some (g !! join (slice x end_ C)))))
      eqn:E.
    + exists x. split; [left|]. split; [|done].
      apply andb_true_iff in E as [E1 E2].
      apply orb_true_iff in E1, E2.
      rewrite !bool_decide_eq_true in E1, E2. done.
    + destruct (IH (Some (join (slice start x C), join (slice x end_ C))))
        as (m' & Hm' & Hok' & Hfind).
      * apply elem_of_cons in Hm as [-> | Hm]; [|by exists m].
        destruct Hok as [H1 H2].
        apply andb_false_iff in E.
        rewrite !orb_false_iff, !bool_decide_eq_false in E.
        destruct E as [[? ?]|[? ?]]; [destruct H1|destruct H2]; done.
      * exists m'. split; [by right|]. done.
Qed.

(** ** LEHMAN1: stitching the levels *)

Lemma sym_ok_mono (pend pend' : str -> Prop) (g g' : grammar) (v : str) :
  (forall v, 2 <= length v -> pend v -> is_Some (g' !! v) \/ pend' v) ->
  (forall v, is_Some (g !! v) -> is_Some (g' !! v)) ->
  sym_ok pend g v -> sym_ok pend' g' v.
Proof.
  intros Hp Hg [H1 H2]. split; [done|].
  intros Hlen. destruct (H2 Hlen) as [?|?]; [left|]; auto.
Qed.

Lemma key_ok_mono (pend pend' : str -> Prop) (g g' : grammar) k rhs :
  (forall v, 2 <= length v -> pend v -> is_Some (g' !! v) \/ pend' v) ->
  (pend k -> 2 <= length rhs \/ pend' k) ->
  (forall v, is_Some (g !! v) -> is_Some (g' !! v)) ->
  key_ok pend g k rhs -> key_ok pend' g' k rhs.
Proof.
  intros Hp Hk Hg (H1 & H2 & H3 & H4).
  split; [done|]. split; [done|]. split.
  - destruct H3 as [?|?]; [by left|auto].
  - eapply Forall_impl; [exact H4|].
    intros v. by apply sym_ok_mono.
Qed.

Lemma has_splits_keys (g g' : grammar) (C : list str) :
  (forall v, is_Some (g !! v) -> is_Some (g' !! v)) ->
  has_splits g C -> has_splits g' C.
Proof.
  intros Hg H a b Hab Hb. destruct (H a b Hab Hb) as (m & Hm & Hl & Hr).
  exists m. split; [done|].
  split; [destruct Hl; auto|destruct Hr; auto].
Qed.

Lemma rhs_append_lookup_eq (s : str) (xs r : list str) (g : grammar) :
  g !! s = Some r -> rhs_append s xs g !! s = Some (r ++ xs).
Proof. intros H. unfold rhs_append. by rewrite lookup_alter_eq, H. Qed.

Lemma rhs_append_lookup_ne (s k : str) (xs : list str) (g : grammar) :
  k <> s -> rhs_append s xs g !! k = g !! k.
Proof. intros H. unfold rhs_append. by rewrite lookup_alter_ne. Qed.

Lemma rhs_append_is_Some (s k : str) (xs : list str) (g : grammar) :
  is_Some (rhs_append s xs g !! k) <-> is_Some (g !! k).
Proof. unfold rhs_append. apply lookup_alter_is_Some. Qed.

Lemma rhs_append_app (s : str) (xs ys : list str) (g : grammar) :
  rhs_append s ys (rhs_append s xs g) = rhs_append s (xs ++ ys) g.
Proof.
  unfold rhs_append. rewrite alter_alter_eq. apply alter_ext.
  intros r _. simpl. by rewrite app_assoc.
Qed.

(** Appending symbols that spell the next part of the remainder. *)
Lemma stitching_append (s : str) (pend : str -> Prop) (g : grammar)
    (sRemainder : str) (xs : list str) (rem' : str) :
  stitching s pend g sRemainder ->
  sRemainder = join xs ++ rem' ->
  xs <> [] ->
  Forall (sym_ok pend g) xs ->
  (length xs = 1 -> Forall pend xs) ->
  stitching s pend (rhs_append s xs g) rem'.
Proof.
  intros (rhs_s & Hs & Hjoin & Hsym & Hone & Hothers) Hrem Hne Hxs Hpend.
  assert (forall v, is_Some (g !! v) -> is_Some (rhs_append s xs g !! v))
    as Hkeys by (intros v; apply rhs_append_is_Some).
  exists (rhs_s ++ xs). split; [by apply rhs_append_lookup_eq|].
  split; [by rewrite join_app, <- app_assoc, <- Hrem|].
  split.
  { apply Forall_app. split.
    - eapply Forall_impl; [exact Hsym|].
      intros v. apply sym_ok_mono; auto.
    - eapply Forall_impl; [exact Hxs|].
      intros v. apply sym_ok_mono; auto. }
  split.
  { rewrite length_app. intros Hlen.
    destruct xs as [|x xs]; [done|]. simpl in Hlen.
    destruct rhs_s; [|simpl in Hlen; lia].
    simpl. apply Hpend. simpl in *. lia. }
  intros k rhs Hk Hks. rewrite rhs_append_lookup_ne in Hk by done.
  eapply key_ok_mono; [| | |by apply Hothers]; auto.
Qed.

Lemma stitch_level_spec (s : str) (pend : str -> Prop) (C : list str)
    (g : grammar) (sRemainder : str) :
  stitching s pend g sRemainder ->
  Forall (fun s => 1 <= length s) C ->
  (forall v, v ∈ C -> pend v) ->
  has_splits g C ->
  starts_in sRemainder C ->
  exists g' sRemainder',
    stitch_level s C (g, sRemainder) = Ret (g', sRemainder')
    /\ stitching s pend g' sRemainder'
    /\ (forall k, is_Some (g !! k) <-> is_Some (g' !! k))
    /\ exists t, t ∈ C /\ sRemainder' `prefix_of` t.
Proof.
  intros Hst HC Hpend Hsplits Hstart.
  destruct (findLongestPrefix_spec sRemainder C Hstart)
    as (start & n & rem & t & Hfind & Hlt & Hend & Hspell & Ht & Hpre).
  unfold stitch_level. rewrite Hfind. cbn [mbind res_bind].
  assert (drop (length sRemainder - length rem) sRemainder = rem) as Hdrop.
  { rewrite Hspell at 2. rewrite Hspell at 1. rewrite length_app.
    replace (length (join (slice start (start + n) C)) + length rem
             - length rem)
      with (length (join (slice start (start + n) C))) by lia.
    by rewrite drop_app_length. }
  rewrite Hdrop.
  assert (forall i, start <= i < start + n ->
            exists c, C !! i = Some c /\ index C (Z.of_nat i) = Ret c
                      /\ sym_ok pend g c /\ pend c) as Hseg.
  { intros i Hi.
    assert (is_Some (C !! i)) as [c Hc] by (apply lookup_lt_is_Some; lia).
    exists c. split; [done|]. split; [by apply index_Ret|].
    assert (c ∈ C) as Hin by by eapply list_elem_of_lookup_2.
    split; [|by apply Hpend].
    split; [by rewrite Forall_forall in HC; apply HC|].
    intros _. right. by apply Hpend. }
  destruct (decide (start = start + n)) as [H0|H0].
  { exists g, sRemainder. split; [done|]. split; [done|]. split; [done|].
    exists t. split; [done|].
    assert (n = 0) as -> by lia.
    replace (start + 0) with start in Hspell by lia.
    unfold slice in Hspell. rewrite Nat.sub_diag, take_0 in Hspell.
    simpl in Hspell. by rewrite Hspell. }
  destruct (decide (start + 1 = start + n)) as [H1|H1].
  { assert (n = 1) as -> by lia.
    destruct (Hseg start) as (c & Hc & -> & Hsym & Hp); [lia|].
    cbn [mbind res_bind].
    exists (rhs_append s [c] g), rem. split; [done|]. split.
    - apply (stitching_append s pend g sRemainder); [done| |done| |].
      + rewrite Hspell at 1. f_equal.
        replace (start + 1) with (S start) by lia.
        by rewrite (slice_single _ _ _ Hc).
      + by constructor.
      + intros _. by constructor.
    - split; [intros k; by rewrite rhs_append_is_Some|]. by exists t. }
  destruct (decide (start + 2 = start + n)) as [H2|H2].
  { assert (n = 2) as -> by lia.
    destruct (Hseg start) as (c0 & Hc0 & -> & Hsym0 & Hp0); [lia|].
    destruct (Hseg (start + 1)) as (c1 & Hc1 & -> & Hsym1 & Hp1); [lia|].
    cbn [mbind res_bind]. rewrite rhs_append_app.
    exists (rhs_append s ([c0] ++ [c1]) g), rem. split; [done|]. split.
    - apply (stitching_append s pend g sRemainder); [done| |done| |].
      + rewrite Hspell at 1. f_equal.
        rewrite (slice_cons _ _ _ _ Hc0) by lia.
        replace (start + 2) with (S (S start)) by lia.
        replace (start + 1) with (S start) in Hc1 by lia.
        by rewrite (slice_single _ _ _ Hc1).
      + constructor; [done|constructor; [done|constructor]].
      + simpl. lia.
    - split; [intros k; by rewrite rhs_append_is_Some|]. by exists t. }
  destruct (find_split_spec C g start (start + n)
              (seq (start + 1) (start + n - (start + 1))) None)
    as (m & Hm%elem_of_seq & [Hl Hr] & ->).
  { destruct (Hsplits start (start + n)) as (m & Hm & Hl & Hr); [lia|done|].
    exists m. split; [apply elem_of_seq; lia|done]. }
  rewrite rhs_append_app.
  exists (rhs_append s
            ([join (slice start m C)] ++ [join (slice m (start + n) C)]) g),
    rem.
  split; [done|]. split.
  - apply (stitching_append s pend g sRemainder); [done| |done| |].
    + rewrite Hspell at 1. f_equal.
      rewrite <- (slice_app C start m (start + n)) by lia.
      rewrite join_app. simpl. unfold join at 4. simpl.
      by rewrite app_nil_r.
    + constructor; [|constructor; [|constructor]].
      * split; [apply slice_nonempty_join; [done|lia]|].
        intros _. destruct Hl as [-> | Hl]; [|by left].
        destruct (Hseg start) as (c & Hc & _ & _ & Hp); [lia|].
        right. replace (start + 1) with (S start) by lia.
        by rewrite (slice_single _ _ _ Hc), join_single.
      * split; [apply slice_nonempty_join; [done|lia]|].
        intros _. destruct Hr as [-> | Hr]; [|by left].
        destruct (Hseg (start + n - 1)) as (c & Hc & _ & _ & Hp); [lia|].
        right. replace (start + n) with (S (start + n - 1)) at 2 by lia.
        by rewrite (slice_single _ _ _ Hc), join_single.
    + simpl. lia.
  - split; [intros k; by rewrite rhs_append_is_Some|]. by exists t.
Qed.

Lemma stitch_levels_spec (s : str) (pend : str -> Prop)
    (rest : list (list str)) :
  forall (prev : list str) (g : grammar) (sRemainder : str),
  chain_ok prev rest ->
  (forall C v, C ∈ rest -> v ∈ C -> pend v) ->
  (forall C, C ∈ rest -> has_splits g C) ->
  stitching s pend g sRemainder ->
  (exists t, t ∈ prev /\ sRemainder `prefix_of` t) ->
  exists g' sRemainder',
    forM rest (stitch_level s) (g, sRemainder) = Ret (g', sRemainder')
    /\ stitching s pend g' sRemainder'
    /\ (forall k, is_Some (g !! k) <-> is_Some (g' !! k)).
Proof.
  induction rest as [|C rest IH];
    intros prev g sRem Hchain Hpend Hsplits Hst (t & Ht & Hpre).
  - exists g, sRem. done.
  - destruct Hchain as (HC & Hstarts & Hchain).
    destruct (stitch_level_spec s pend C g sRem)
      as (g1 & r1 & Hstep & Hst1 & Hk1 & Hnext).
    + done.
    + done.
    + intros v Hv. apply (Hpend C); [left|done].
    + apply Hsplits. left.
    + destruct (Hstarts t Ht) as (j & Hj & Hp). exists j.
      split; [done|]. by etrans.
    + cbn [forM]. rewrite Hstep. cbn [mbind res_bind].
      destruct (IH C g1 r1) as (g2 & r2 & -> & Hst2 & Hk2).
      * done.
      * intros C' v HC' Hv. apply (Hpend C'); [by right|done].
      * intros C' HC'. apply (has_splits_keys g); [intros v; apply Hk1|].
        apply Hsplits. by right.
      * done.
      * done.
      * exists g2, r2. split; [done|]. split; [done|].
        intros k. by rewrite Hk1, Hk2.
Qed.

Lemma stitch_spec (rest : list (list str)) (prev : list str) (s : str)
    (pend : str -> Prop) (g : grammar) :
  1 <= length s -> s ∈ prev -> chain_ok prev rest ->
  (forall C v, C ∈ rest -> v ∈ C -> pend v) ->
  (forall C, C ∈ rest -> has_splits g C) ->
  linv (fun v => v = s \/ pend v) g ->
  exists g', stitch rest s g = Ret g' /\ linv pend g'
    /\ (forall k, is_Some (g !! k) -> is_Some (g' !! k))
    /\ (2 <= length s -> is_Some (g' !! s)).
Proof.
  intros Hlen Hprev Hchain Hpend Hsplits Hinv. unfold stitch.
  destruct (decide (length s = 1)) as [H1|H1].
  - exists g. split; [done|]. split; [|split; [done|lia]].
    intros k rhs Hk. pose proof (Hinv k rhs Hk) as Hok.
    destruct Hok as (Hk2 & _).
    eapply key_ok_mono; [| | |by apply Hinv].
    + intros v Hv [-> | ?]; [lia|by right].
    + intros [-> | ?]; [lia|by right].
    + done.
  - assert (2 <= length s) as H2 by lia.
    set (g1 := <[s := []]> g).
    assert (forall v, is_Some (g !! v) -> is_Some (g1 !! v)) as Hk01.
    { intros v Hv. unfold g1. apply lookup_insert_is_Some'. by right. }
    destruct (stitch_levels_spec s pend rest prev g1 s)
      as (g2 & r2 & -> & Hst2 & Hk12).
    + done.
    + done.
    + intros C HC. apply (has_splits_keys g); [done|]. by apply Hsplits.
    + exists []. split; [unfold g1; by rewrite lookup_insert_eq|].
      split; [done|]. split; [constructor|]. split; [by constructor|].
      intros k rhs Hk Hks. unfold g1 in Hk.
      rewrite lookup_insert_ne in Hk by done.
      eapply key_ok_mono; [| | |by apply Hinv].
      * intros v Hv [-> | ?]; [left|by right].
        unfold g1. by rewrite lookup_insert_eq.
      * intros [-> | ?]; [done|by right].
      * done.
    + exists s. done.
    + cbn [mbind res_bind].
      destruct Hst2 as (rhs_s & Hs & Hjoin & Hsym & Hone & Hothers).
      assert (forall v, is_Some (g2 !! v) ->
                is_Some (rhs_append s (chars r2) g2 !! v)) as Hk23
        by (intros v; apply rhs_append_is_Some).
      exists (rhs_append s (chars r2) g2). split; [done|]. split; [|split].
      * intros k rhs Hk. destruct (decide (k = s)) as [-> | Hks].
        -- rewrite (rhs_append_lookup_eq _ _ _ _ Hs) in Hk.
           injection Hk as <-.
           split; [done|].
           split; [by rewrite join_app, join_chars|]. split.
           ++ rewrite length_app. unfold chars. rewrite length_fmap.
              destruct (decide (2 <= length rhs_s + length r2));
                [by left|right].
              destruct rhs_s as [|v [|? ?]]; [| |simpl in *; lia].
              { simpl in Hjoin. subst r2. simpl in *. lia. }
              destruct r2; [|simpl in *; lia].
              rewrite join_single, app_nil_r in Hjoin. subst v.
              assert (Forall pend [s]) as Hp by (apply Hone; simpl; lia).
              by apply Forall_inv in Hp.
           ++ apply Forall_app. split.
              ** eapply Forall_impl; [exact Hsym|].
                 intros v. apply sym_ok_mono; auto.
              ** apply Forall_forall.
                 intros v (c & -> & _)%list_elem_of_fmap.
                 split; simpl; lia.
        -- rewrite rhs_append_lookup_ne in Hk by done.
           eapply key_ok_mono; [| | |by apply Hothers]; auto.
      * intros k Hk. apply Hk23, Hk12, Hk01, Hk.
      * intros _. apply Hk23, Hk12. unfold g1. by rewrite lookup_insert_eq.
Qed.

Lemma chain_ok_weaken (prev : list str) (rest : list (list str)) :
  chain_ok prev rest -> (forall C, rest !! 0 = Some C ->
                           Forall (fun s => 1 <= length s) C) ->
  chain_ok [] rest.
Proof.
  destruct rest as [|C rest]; [done|].
  intros (HC & _ & Hchain) _. split; [done|]. split; [|done].
  by intros t ?%elem_of_nil.
Qed.

Lemma stitch_all_spec (Cs : list (list str)) :
  forall g : grammar,
  chain_ok [] Cs ->
  (forall C, C ∈ Cs -> has_splits g C) ->
  linv (fun v => exists C, C ∈ Cs /\ v ∈ C) g ->
  exists g', stitch_all Cs g = Ret g' /\ linv (fun _ => False) g'
    /\ (forall k, is_Some (g !! k) -> is_Some (g' !! k))
    /\ (forall C s, Cs !! 0 = Some C -> s ∈ C -> 2 <= length s ->
          is_Some (g' !! s)).
Proof.
  induction Cs as [|C rest IH]; intros g Hchain Hsplits Hinv.
  - exists g. split; [done|]. split; [|split; [done|done]].
    intros k rhs Hk. eapply key_ok_mono; [| | |by apply Hinv].
    + intros v _ (C & HC%elem_of_nil & _). done.
    + intros (C & HC%elem_of_nil & _). done.
    + done.
  - destruct Hchain as (HC & _ & Hchain). cbn [stitch_all].
    set (pend_rest := fun v : str => exists C', C' ∈ rest /\ v ∈ C').
    destruct (forM_invariant_prefix
                (fun done_ g' =>
                   linv (fun v => v ∈ drop (length done_) C \/ pend_rest v) g'
                   /\ (forall k, is_Some (g !! k) -> is_Some (g' !! k))
                   /\ (forall s, s ∈ done_ -> 2 <= length s ->
                         is_Some (g' !! s)))
                C (stitch rest) g) as (g1 & -> & Hinv1 & Hk1 & Hdone1).
    + split; [|split; [done|by intros s ?%elem_of_nil]].
      intros k rhs Hk. eapply key_ok_mono; [| | |by apply Hinv].
      * intros v _ (C' & [-> | HC']%elem_of_cons & Hv); right;
          [by left|right; by exists C'].
      * intros (C' & [-> | HC']%elem_of_cons & Hv); right;
          [by left|right; by exists C'].
      * done.
    + intros done_ x rest_c g0 HeqC (Hinv0 & Hk0 & Hdone0).
      assert (drop (length done_) C = x :: rest_c) as Hdrop.
      { rewrite HeqC. by rewrite drop_app_length. }
      assert (drop (length (done_ ++ [x])) C = rest_c) as Hdrop'.
      { rewrite HeqC. rewrite (cons_middle x done_ rest_c), app_assoc.
        by rewrite drop_app_length. }
      assert (x ∈ C) as HxC.
      { rewrite HeqC. apply elem_of_app. right. left. }
      destruct (stitch_spec rest C x
                  (fun v => v ∈ rest_c \/ pend_rest v) g0)
        as (g' & Hret & Hinv' & Hk' & Hx').
      * rewrite Forall_forall in HC. by apply HC.
      * done.
      * done.
      * intros C' v HC' Hv. right. by exists C'.
      * intros C' HC'. apply (has_splits_keys g); [done|].
        apply Hsplits. by right.
      * intros k rhs Hk. eapply key_ok_mono; [| | |by apply Hinv0].
        -- intros v _ [Hv | Hv]; right; [|by right; right].
           rewrite Hdrop in Hv.
           apply elem_of_cons in Hv as [-> | Hv]; [by left|right; by left].
        -- intros [Hv | Hv]; right; [|by right; right].
           rewrite Hdrop in Hv.
           apply elem_of_cons in Hv as [-> | Hv]; [by left|right; by left].
        -- done.
      * exists g'. split; [done|]. rewrite Hdrop'.
        split; [done|]. split; [auto|].
        intros s [Hs | ->%list_elem_of_singleton]%elem_of_app Hlen; auto.
    + cbn [mbind res_bind].
      rewrite drop_all in Hinv1.
      destruct (IH g1) as (g2 & -> & Hinv2 & Hk2 & _).
      * apply (chain_ok_weaken C); [done|].
        destruct rest; [done|]. destruct Hchain as [? _].
        by intros ? [= <-].
      * intros C' HC'. apply (has_splits_keys g); [done|].
        apply Hsplits. by right.
      * intros k rhs Hk. eapply key_ok_mono; [| | |by apply Hinv1].
        -- intros v _ [Hv%elem_of_nil | Hv]; [done|by right].
        -- intros [Hv%elem_of_nil | Hv]; [done|by right].
        -- done.
      * exists g2. split; [done|]. split; [done|]. split; [auto|].
        intros C' s [= <-] Hs Hlen. auto.
Qed.

(** ** LEHMAN1: the whole algorithm *)

Lemma levels_ok_tail (C : list str) (Cs : list (list str)) :
  levels_ok (C :: Cs) -> levels_ok Cs.
Proof.
  intros [H1 H2]. split.
  - intros C' HC'. apply H1. by right.
  - intros i C1 C2 Hi HSi. by apply (H2 (S i) C1 C2).
Qed.

Lemma levels_ok_chain (Cs : list (list str)) :
  levels_ok Cs -> chain_ok [] Cs.
Proof.
  assert (forall rest C, levels_ok (C :: rest) -> chain_ok C rest) as Hrest.
  { induction rest as [|C' rest IH]; intros C Hok; [done|].
    split; [|split].
    - apply (proj1 Hok). right. left.
    - intros t Ht. by apply (proj2 Hok 0 C C').
    - apply IH. by eapply levels_ok_tail. }
  destruct Cs as [|C rest]; [done|].
  intros Hok. split; [|split].
  - apply (proj1 Hok). left.
  - by intros t ?%elem_of_nil.
  - by apply Hrest.
Qed.

Lemma sc_production_key_ok (pend : str -> Prop) (C : list str)
    (g g' : grammar) (k : str) (rhs : list str) :
  (forall v, 2 <= length v -> v ∈ C -> pend v) ->
  (forall v, is_Some (g !! v) -> is_Some (g' !! v)) ->
  sc_production C g k rhs -> key_ok pend g' k rhs.
Proof.
  intros HC Hg (x & y & -> & <- & Hx & Hy & Hxs & Hys).
  split; [rewrite length_app; lia|].
  split; [unfold join; simpl; by rewrite app_nil_r|].
  split; [left; simpl; lia|].
  constructor; [|constructor; [|constructor]].
  - split; [done|]. intros Hlen. destruct Hxs; [right|left]; auto.
  - split; [done|]. intros Hlen. destruct Hys; [right|left]; auto.
Qed.

Lemma closure_check_Ret (g : grammar) :
  linv (fun _ => False) g -> closure_check g = Ret g.
Proof.
  intros Hinv. unfold closure_check. rewrite bool_decide_eq_true_2; [done|].
  intros k rhs Hk. destruct (Hinv k rhs Hk) as (_ & _ & _ & Hsym).
  eapply Forall_impl; [exact Hsym|].
  intros v [_ Hv] Hlen. destruct Hv as [?|[]]; [lia|done].
Qed.

(** [getLehman1Grammar] returns; its grammar keeps every key of the
    substring construction over the characters of [S], and binds [S]. *)
Lemma getLehman1Grammar_spec (ceil_log2 : nat -> nat) (S : str) :
  1 <= length S ->
  exists G g', getLehman1Grammar ceil_log2 S = Ret G
    /\ generateSubstringConstructionGrammar (chars S) = Ret g'
    /\ linv (fun _ => False) G
    /\ (forall k, is_Some (g' !! k) -> is_Some (G !! k))
    /\ (2 <= length S -> is_Some (G !! S)).
Proof.
  intros Hlen. unfold getLehman1Grammar.
  destruct (generateCs_spec ceil_log2 S Hlen) as (rest & -> & Hok).
  cbn [mbind res_bind].
  set (Cs := [S] :: rest) in *.
  set (pend := fun v : str => exists C, C ∈ Cs /\ v ∈ C).
  destruct (forM_invariant_prefix
              (fun done_ g =>
                 linv pend g /\ forall C, C ∈ done_ -> has_splits g C)
              Cs
              (fun C g =>
                 g' ← generateSubstringConstructionGrammar C; Ret (g' ∪ g))
              ∅) as (g0 & -> & Hinv0 & Hsplits0).
  { split; [|by intros C ?%elem_of_nil].
    intros k rhs Hk. by rewrite lookup_empty in Hk. }
  { intros done_ C rest_ g HeqCs (Hinv & Hsplits).
    assert (C ∈ Cs) as HC.
    { rewrite HeqCs. apply elem_of_app. right. left. }
    destruct (proj1 Hok C HC) as [Hne Hseg].
    destruct (generateSubstringConstructionGrammar_spec C)
      as (gC & -> & Hprod & HsplitC).
    { destruct C; [done|simpl; lia]. }
    { done. }
    cbn [mbind res_bind]. exists (gC ∪ g). split; [done|].
    assert (forall v, is_Some (gC !! v) -> is_Some ((gC ∪ g) !! v)) as HkC.
    { intros v Hv. apply lookup_union_is_Some. by left. }
    assert (forall v, is_Some (g !! v) -> is_Some ((gC ∪ g) !! v)) as Hkg.
    { intros v Hv. apply lookup_union_is_Some. by right. }
    split.
    - intros k rhs Hk. apply lookup_union_Some_raw in Hk as [Hk | [_ Hk]].
      + apply (sc_production_key_ok pend C gC); [|done|by apply Hprod].
        intros v _ Hv. by exists C.
      + eapply key_ok_mono; [| | |by apply Hinv]; auto.
    - intros C' [HC' | ->%list_elem_of_singleton]%elem_of_app.
      + apply (has_splits_keys g); [done|]. by apply Hsplits.
      + by apply (has_splits_keys gC). }
  cbn [mbind res_bind].
  destruct (generateSubstringConstructionGrammar_spec (chars S))
    as (g' & Hg' & Hprod & _).
  { unfold chars. by rewrite length_fmap. }
  { apply Forall_forall. intros v (c & -> & _)%list_elem_of_fmap.
    simpl. lia. }
  rewrite Hg'. cbn [mbind res_bind].
  assert (forall v, is_Some (g' !! v) -> is_Some ((g' ∪ g0) !! v)) as Hk'.
  { intros v Hv. apply lookup_union_is_Some. by left. }
  assert (forall v, is_Some (g0 !! v) -> is_Some ((g' ∪ g0) !! v)) as Hk0.
  { intros v Hv. apply lookup_union_is_Some. by right. }
  destruct (stitch_all_spec Cs (g' ∪ g0)) as (G & -> & HinvG & HkG & Hfirst).
  { by apply levels_ok_chain. }
  { intros C HC. apply (has_splits_keys g0); [done|]. by apply Hsplits0. }
  { intros k rhs Hk. apply lookup_union_Some_raw in Hk as [Hk | [_ Hk]].
    - apply (sc_production_key_ok pend (chars S) g'); [|done|by apply Hprod].
      intros v Hv (c & -> & _)%list_elem_of_fmap. simpl in Hv. lia.
    - eapply key_ok_mono; [| | |by apply Hinv0]; auto. }
  cbn [mbind res_bind]. rewrite (closure_check_Ret G HinvG).
  exists G, g'. split; [done|]. split; [done|]. split; [done|].
  split; [auto|].
  intros H2. apply (Hfirst [S] S); [done|left|done].
Qed.

(** A symbol among two or more non-empty ones is shorter than what they
    spell together. *)
Lemma join_elem_shorter (l : list str) (v : str) :
  Forall (fun a => 1 <= length a) l -> 2 <= length l -> v ∈ l ->
  length v < length (join l).
Proof.
  intros Hl Hlen (l1 & l2 & ->)%list_elem_of_split.
  rewrite join_app, join_cons, !length_app.
  apply Forall_app in Hl as [Hl1 Hl2]. apply Forall_cons in Hl2 as [_ Hl2].
  rewrite length_app in Hlen. simpl in Hlen.
  destruct l1 as [|a l1].
  - pose proof (join_nonempty l2 Hl2) as Hj. unfold join in *.
    cbn [concat length] in *. lia.
  - pose proof (join_nonempty (a :: l1) Hl1) as Hj. unfold join in *.
    cbn [length] in *. lia.
Qed.

Lemma linv_well_formed (G : grammar) :
  linv (fun _ => False) G -> well_formed G.
Proof.
  intros Hinv. split.
  - intros k rhs Hk.
    destruct (Hinv k rhs Hk) as (Hlen & Hjoin & [H2 | []] & Hsym).
    split; [done|]. apply Forall_forall. intros v Hv.
    rewrite Forall_forall in Hsym. split; [by apply Hsym|].
    rewrite <- Hjoin. apply join_elem_shorter; [|done|done].
    apply Forall_forall. intros a Ha. by apply Hsym.
  - intros k rhs v Hk Hv Hlen.
    destruct (Hinv k rhs Hk) as (_ & _ & _ & Hsym).
    rewrite Forall_forall in Hsym.
    destruct (Hsym v Hv) as [_ [? | []]]; done.
Qed.

Lemma grammarSize_at_least (G : grammar) :
  (forall k rhs, G !! k = Some rhs -> 2 <= length rhs) ->
  2 * size G <= grammarSize G.
Proof.
  induction G as [|k rhs G Hk _ IH] using map_first_key_ind.
  - intros _. by rewrite grammarSize_empty, map_size_empty.
  - intros Hb. rewrite grammarSize_insert, map_size_insert_None by done.
    pose proof (Hb k rhs (lookup_insert_eq _ _ _)) as Hrhs.
    assert (2 * size G <= grammarSize G) as HG.
    { apply IH. intros k' rhs' Hk'. apply (Hb k' rhs').
      rewrite lookup_insert_ne; [done|]. intros ->. congruence. }
    lia.
Qed.

(** ** LEHMAN1 against the exhaustive search *)

(** The keys the first round of the substring construction adds stay in
    its result: the suffixes of the first half and the prefixes of the
    second half. *)
Lemma recursiveCall_first_keys (S : list str) (g' : grammar) :
  generateSubstringConstructionGrammar S = Ret g' ->
  2 <= length S -> Forall (fun s => 1 <= length s) S ->
  (forall i, i + 2 <= length S / 2 ->
     is_Some (g' !! join (slice i (length S / 2) S)))
  /\ (forall i, length S / 2 + 1 <= i < length S ->
        is_Some (g' !! join (slice (length S / 2) (i + 1) S))).
Proof.
  unfold generateSubstringConstructionGrammar. intros Hret H2 HS.
  pose proof (half_lt _ H2) as Hmid.
  cbn [recursiveCall] in Hret.
  destruct (decide (length S = 1)); [lia|].
  set (mid := length S / 2) in *.
  set (g1 := foldl (fun g i =>
               <[join (slice i mid S) :=
                   [S !!! i; join (slice (i + 1) mid S)]]> g)
             ∅ (seq 0 (mid - 1))) in *.
  set (g2 := foldl (fun g i =>
               <[join (slice mid (i + 1) S) :=
                   [join (slice mid i S); S !!! i]]> g)
             g1 (seq (mid + 1) (length S - (mid + 1)))) in *.
  destruct (recursiveCall_spec (length S) (take mid S) g2)
    as (g3 & E3 & Hmono3 & _).
  { rewrite length_take. lia. }
  { by apply Forall_take. }
  rewrite E3 in Hret. cbn [mbind res_bind] in Hret.
  destruct (recursiveCall_spec (length S) (drop mid S) g3)
    as (g4 & E4 & Hmono4 & _).
  { rewrite length_drop. lia. }
  { by apply Forall_drop. }
  rewrite E4 in Hret. injection Hret as <-.
  assert (forall k, is_Some (g1 !! k) -> is_Some (g2 !! k)) as Hmono2.
  { intros k Hk.
    apply (foldl_insert_keys (fun i => join (slice mid (i + 1) S))).
    by left. }
  split.
  - intros i Hi. apply Hmono4, Hmono3, Hmono2.
    apply (foldl_insert_keys (fun i => join (slice i mid S))).
    right. exists i. split; [apply elem_of_seq; lia|done].
  - intros i Hi. apply Hmono4, Hmono3.
    apply (foldl_insert_keys (fun i => join (slice mid (i + 1) S))).
    right. exists i. split; [apply elem_of_seq; lia|done].
Qed.

Lemma join_slice_chars (a b : nat) (S : str) :
  join (slice a b (chars S)) = slice a b S.
Proof.
  unfold slice, chars. rewrite <- fmap_drop, <- fmap_take.
  apply join_chars.
Qed.

Lemma chain_grammar_lookup (S : str) (k : str) (rhs : list str) :
  chain_grammar S !! k = Some rhs ->
  (k = S /\ rhs = [take (length S / 2) S; drop (length S / 2) S])
  \/ (exists i, i + 2 <= length S / 2
        /\ k = slice i (length S / 2) S
        /\ rhs = [slice i (i + 1) S; slice (i + 1) (length S / 2) S])
  \/ (exists i, length S / 2 + 1 <= i < length S
        /\ k = slice (length S / 2) (i + 1) S
        /\ rhs = [slice (length S / 2) i S; slice i (i + 1) S]).
Proof.
  unfold chain_grammar. set (mid := length S / 2).
  intros [[<- <-]|[_ Hk]]%lookup_insert_Some; [by left|right].
  apply (foldl_insert_lookup (fun i => slice mid (i + 1) S)
           (fun i => [slice mid i S; slice i (i + 1) S])) in Hk
    as [Hk|(i & Hi%elem_of_seq & -> & ->)].
  - apply (foldl_insert_lookup (fun i => slice i mid S)
             (fun i => [slice i (i + 1) S; slice (i + 1) mid S])) in Hk
      as [Hk|(i & Hi%elem_of_seq & -> & ->)].
    + by rewrite lookup_empty in Hk.
    + left. exists i. split; [lia|done].
  - right. exists i. split; [lia|done].
Qed.

Lemma chain_grammar_keys (S : str) :
  is_Some (chain_grammar S !! S)
  /\ (forall i, i + 2 <= length S / 2 ->
        is_Some (chain_grammar S !! slice i (length S / 2) S))
  /\ (forall i, length S / 2 + 1 <= i < length S ->
        is_Some (chain_grammar S !! slice (length S / 2) (i + 1) S)).
Proof.
  unfold chain_grammar. set (mid := length S / 2).
  split; [by rewrite lookup_insert_eq|]. split.
  - intros i Hi. apply lookup_insert_is_Some'. right.
    apply (foldl_insert_keys (fun i => slice mid (i + 1) S)). left.
    apply (foldl_insert_keys (fun i => slice i mid S)). right.
    exists i. split; [apply elem_of_seq; lia|done].
  - intros i Hi. apply lookup_insert_is_Some'. right.
    apply (foldl_insert_keys (fun i => slice mid (i + 1) S)). right.
    exists i. split; [apply elem_of_seq; lia|done].
Qed.

Lemma take_slice {A} (n : nat) (l : list A) : take n l = slice 0 n l.
Proof. unfold slice. by rewrite Nat.sub_0_r, drop_0. Qed.

Lemma drop_slice {A} (n : nat) (l : list A) :
  drop n l = slice n (length l) l.
Proof. unfold slice. rewrite take_ge; [done|]. rewrite length_drop. lia. Qed.

Lemma join_pair (x y : str) : join [x; y] = x ++ y.
Proof. unfold join. simpl. by rewrite app_nil_r. Qed.

Lemma chain_grammar_well_formed (S : str) :
  2 <= length S -> well_formed (chain_grammar S) /\ binary (chain_grammar S).
Proof.
  intros H2. pose proof (half_lt _ H2) as Hmid.
  destruct (chain_grammar_keys S) as (HkS & Hk1 & Hk2).
  split; [split|].
  - intros k rhs Hk.
    apply chain_grammar_lookup in Hk
      as [[-> ->]|[(i & Hi & -> & ->)|(i & Hi & -> & ->)]].
    + split; [rewrite join_pair; apply take_drop|].
      constructor; [|constructor; [|constructor]].
      * rewrite length_take. lia.
      * rewrite length_drop. lia.
    + split; [rewrite join_pair; apply slice_app; lia|].
      constructor; [|constructor; [|constructor]];
        rewrite !slice_length by lia; lia.
    + split; [rewrite join_pair; apply slice_app; lia|].
      constructor; [|constructor; [|constructor]];
        rewrite !slice_length by lia; lia.
  - intros k rhs v Hk Hv Hlen.
    apply chain_grammar_lookup in Hk
      as [[-> ->]|[(i & Hi & -> & ->)|(i & Hi & -> & ->)]].
    + apply elem_of_cons in Hv as [-> | Hv].
      * rewrite length_take in Hlen. rewrite take_slice. apply Hk1. lia.
      * apply list_elem_of_singleton in Hv as ->.
        rewrite length_drop in Hlen. rewrite drop_slice.
        replace (slice (length S / 2) (length S) S)
          with (slice (length S / 2) (length S - 1 + 1) S)
          by (f_equal; lia).
        apply Hk2. lia.
    + apply elem_of_cons in Hv as [-> | Hv].
      * rewrite slice_length in Hlen by lia. lia.
      * apply list_elem_of_singleton in Hv as ->.
        rewrite slice_length in Hlen by lia. apply Hk1. lia.
    + apply elem_of_cons in Hv as [-> | Hv].
      * rewrite slice_length in Hlen by lia.
        replace i with (i - 1 + 1) at 1 by lia. apply Hk2. lia.
      * apply list_elem_of_singleton in Hv as ->.
        rewrite slice_length in Hlen by lia. lia.
  - intros k rhs Hk.
    by apply chain_grammar_lookup in Hk
      as [[-> ->]|[(i & Hi & -> & ->)|(i & Hi & -> & ->)]].
Qed.

(** The exhaustive search is never beaten by LEHMAN1. *)
Lemma exhaustive_le_lehman1 (ceil_log2 : nat -> nat) (S : str) :
  1 <= length S ->
  exists GE GL, getExhaustiveGrammar S = Ret GE
    /\ getLehman1Grammar ceil_log2 S = Ret GL
    /\ grammarSize GE <= grammarSize GL.
Proof.
  intros Hlen.
  destruct (getLehman1Grammar_spec ceil_log2 S Hlen)
    as (GL & g' & HGL & Hg' & Hinv & Hkeys & HS).
  destruct (decide (2 <= length S)) as [H2|H1].
  - destruct (chain_grammar_well_formed S H2) as [Hwf Hbin].
    destruct (chain_grammar_keys S) as (HkS & _).
    destruct (getExhaustiveGrammar_least S (chain_grammar S))
      as (GE & HGE & Hle); [done|done|done|done|].
    exists GE, GL. split; [done|]. split; [done|].
    rewrite (grammarSize_binary _ Hbin) in Hle.
    assert (2 * size GL <= grammarSize GL) as HsizeL.
    { apply grammarSize_at_least. intros k rhs Hk.
      by destruct (Hinv k rhs Hk) as (_ & _ & [? | []] & _). }
    assert (size (chain_grammar S) <= size GL) as Hsize.
    { rewrite <- !(size_dom (D := gset str)). apply subseteq_size.
      intros k [rhs Hk]%elem_of_dom. apply elem_of_dom.
      destruct (recursiveCall_first_keys (chars S) g' Hg') as [Hf1 Hf2].
      { unfold chars. by rewrite length_fmap. }
      { apply Forall_forall. intros v (c & -> & _)%list_elem_of_fmap.
        simpl. lia. }
      unfold chars in Hf1, Hf2. rewrite length_fmap in Hf1, Hf2.
      fold (chars S) in Hf1, Hf2.
      apply chain_grammar_lookup in Hk
        as [[-> ->]|[(i & Hi & -> & ->)|(i & Hi & -> & ->)]].
      - by apply HS.
      - apply Hkeys. rewrite <- join_slice_chars. by apply Hf1.
      - apply Hkeys. rewrite <- join_slice_chars. by apply Hf2. }
    lia.
  - destruct (getExhaustiveGrammar_least S ∅) as (GE & HGE & Hle).
    + done.
    + split; [apply map_Forall_empty|]. intros k rhs v Hk.
      by rewrite lookup_empty in Hk.
    + apply map_Forall_empty.
    + lia.
    + exists GE, GL. split; [done|]. split; [done|].
      rewrite grammarSize_empty in Hle. lia.
Qed.

(** * Properties of the specification *)

Lemma listed_order_perm (A : Type) (l : list A) : listed_order A l ≡ₚ l.
Proof. done. Qed.

Lemma tree_grammar_expand (S : str) (G : grammar) (fuel : nat) :
  1 <= length S -> well_formed G -> (2 <= length S -> is_Some (G !! S)) ->
  length S <= fuel -> expand fuel G S = Ret S.
Proof.
  intros Hlen Hwf Hkey Hfuel. apply expand_well_formed; [done|done|lia|done].
Qed.

(** C1: for every non-empty string [S], each of the four algorithms
    returns a grammar whose expansion from the nonterminal [S] is exactly
    [S] -- with any fuel of at least [|S|] for the expander, and under any
    iteration order of sets and dicts for Sakamoto's algorithm. *)
Theorem C1_expansion_yields_input
    (pyiter : forall A : Type, list A -> list A)
    (pyiter_perm : forall (A : Type) (l : list A), pyiter A l ≡ₚ l)
    (ceil_log2 : nat -> nat) (S : str) (fuel : nat) :
  1 <= length S -> length S <= fuel ->
  (exists G, getBisectionGrammar S = Ret G /\ expand fuel G S = Ret S)
  /\ (exists G, getExhaustiveGrammar S = Ret G /\ expand fuel G S = Ret S)
  /\ (exists G, getLehman1Grammar ceil_log2 S = Ret G
                /\ expand fuel G S = Ret S)
  /\ (exists G, getSakamotoGrammar pyiter S = Ret G
                /\ expand fuel G S = Ret S).
Proof.
  intros Hlen Hfuel. split; [|split; [|split]].
  - destruct (getBisectionGrammar_well_formed S) as (G & HG & Hwf & _ & Hkey).
    exists G. split; [done|]. by apply tree_grammar_expand.
  - destruct (getExhaustiveGrammar_well_formed S Hlen)
      as (G & HG & Hwf & _ & Hkey).
    exists G. split; [done|]. by apply tree_grammar_expand.
  - destruct (getLehman1Grammar_spec ceil_log2 S Hlen)
      as (G & g' & HG & _ & Hinv & _ & Hkey).
    exists G. split; [done|].
    apply tree_grammar_expand; [done|by apply linv_well_formed|done|done].
  - destruct (getSakamotoGrammar_spec pyiter pyiter_perm S)
      as (G & HG & Hwf & _ & Hkey).
    exists G. split; [done|]. by apply tree_grammar_expand.
Qed.

Lemma C1_expansion_yields_input_witness :
  (exists G, getBisectionGrammar (py "abab") = Ret G
             /\ expand 4 G (py "abab") = Ret (py "abab"))
  /\ (exists G, getExhaustiveGrammar (py "abab") = Ret G
                /\ expand 4 G (py "abab") = Ret (py "abab"))
  /\ (exists G, getLehman1Grammar Nat.log2_up (py "abab") = Ret G
                /\ expand 4 G (py "abab") = Ret (py "abab"))
  /\ (exists G, getSakamotoGrammar listed_order (py "abab") = Ret G
                /\ expand 4 G (py "abab") = Ret (py "abab")).
Proof.
  apply (C1_expansion_yields_input listed_order listed_order_perm
           Nat.log2_up (py "abab") 4); simpl; lia.
Defined.

(** C2: for every non-empty string [S], [getLehman1Grammar] returns a
    grammar (no exception, in particular not the one of the final closure
    check), and every right-hand-side symbol of length at least two of that
    grammar is one of its keys. *)
Theorem C2_lehman1_returns_closed (ceil_log2 : nat -> nat) (S : str) :
  1 <= length S ->
  exists G, getLehman1Grammar ceil_log2 S = Ret G /\ closed G.
Proof.
  intros Hlen.
  destruct (getLehman1Grammar_spec ceil_log2 S Hlen)
    as (G & g' & HG & _ & Hinv & _).
  exists G. split; [done|]. by apply linv_well_formed.
Qed.

Lemma C2_lehman1_returns_closed_witness :
  exists G, getLehman1Grammar Nat.log2_up (py "aababbabababbaba") = Ret G
            /\ closed G.
Proof.
  apply (C2_lehman1_returns_closed Nat.log2_up (py "aababbabababbaba")).
  simpl. lia.
Defined.



(** C4: for every non-empty string [S] all four algorithms return, and
    the size of the exhaustive grammar is at most the size of the
    Bisection, the LEHMAN1 and the Sakamoto grammar of [S]. *)
Theorem C4_exhaustive_is_smallest
    (pyiter : forall A : Type, list A -> list A)
    (pyiter_perm : forall (A : Type) (l : list A), pyiter A l ≡ₚ l)
    (ceil_log2 : nat -> nat) (S : str) :
  1 <= length S ->
  exists GE GB GL GS,
    getExhaustiveGrammar S = Ret GE
    /\ getBisectionGrammar S = Ret GB
    /\ getLehman1Grammar ceil_log2 S = Ret GL
    /\ getSakamotoGrammar pyiter S = Ret GS
    /\ grammarSize GE <= grammarSize GB
    /\ grammarSize GE <= grammarSize GL
    /\ grammarSize GE <= grammarSize GS.
Proof.
  intros Hlen.
  destruct (getBisectionGrammar_well_formed S) as (GB & HGB & HwB & HbB & HkB).
  destruct (getSakamotoGrammar_spec pyiter pyiter_perm S)
    as (GS & HGS & HwS & HbS & HkS).
  destruct (exhaustive_le_lehman1 ceil_log2 S Hlen)
    as (GE & GL & HGE & HGL & HL).
  destruct (getExhaustiveGrammar_least S GB Hlen HwB HbB HkB)
    as (GE1 & HGE1 & HB).
  destruct (getExhaustiveGrammar_least S GS Hlen HwS HbS HkS)
    as (GE2 & HGE2 & HS).
  rewrite HGE in HGE1, HGE2. injection HGE1 as <-. injection HGE2 as <-.
  by exists GE, GB, GL, GS.
Qed.

Lemma C4_exhaustive_is_smallest_witness :
  exists GE GB GL GS,
    getExhaustiveGrammar (py "abaab") = Ret GE
    /\ getBisectionGrammar (py "abaab") = Ret GB
    /\ getLehman1Grammar Nat.log2_up (py "abaab") = Ret GL
    /\ getSakamotoGrammar listed_order (py "abaab") = Ret GS
    /\ grammarSize GE <= grammarSize GB
    /\ grammarSize GE <= grammarSize GL
    /\ grammarSize GE <= grammarSize GS.
Proof.
  apply (C4_exhaustive_is_smallest listed_order listed_order_perm
           Nat.log2_up (py "abaab")).
  simpl. lia.
Defined.

(** C5: for every non-empty string [S] the grammar of each of the four
    algorithms is acyclic: no nonterminal reaches itself along one or more
    steps of "has on its right-hand side as a symbol of length at least
    two". *)
Theorem C5_grammars_acyclic
    (pyiter : forall A : Type, list A -> list A)
    (pyiter_perm : forall (A : Type) (l : list A), pyiter A l ≡ₚ l)
    (ceil_log2 : nat -> nat) (S : str) :
  1 <= length S ->
  (exists G, getBisectionGrammar S = Ret G /\ acyclic G)
  /\ (exists G, getExhaustiveGrammar S = Ret G /\ acyclic G)
  /\ (exists G, getLehman1Grammar ceil_log2 S = Ret G /\ acyclic G)
  /\ (exists G, getSakamotoGrammar pyiter S = Ret G /\ acyclic G).
Proof.
  intros Hlen. split; [|split; [|split]].
  - destruct (getBisectionGrammar_well_formed S) as (G & HG & Hwf & _).
    exists G. split; [done|]. by apply well_formed_acyclic.
  - destruct (getExhaustiveGrammar_well_formed S Hlen) as (G & HG & Hwf & _).
    exists G. split; [done|]. by apply well_formed_acyclic.
  - destruct (getLehman1Grammar_spec ceil_log2 S Hlen)
      as (G & g' & HG & _ & Hinv & _).
    exists G. split; [done|]. by apply well_formed_acyclic, linv_well_formed.
  - destruct (getSakamotoGrammar_spec pyiter pyiter_perm S)
      as (G & HG & Hwf & _).
    exists G. split; [done|]. by apply well_formed_acyclic.
Qed.

Lemma C5_grammars_acyclic_witness :
  (exists G, getBisectionGrammar (py "abcabc") = Ret G /\ acyclic G)
  /\ (exists G, getExhaustiveGrammar (py "abcabc") = Ret G /\ acyclic G)
  /\ (exists G, getLehman1Grammar Nat.log2_up (py "abcabc") = Ret G
                /\ acyclic G)
  /\ (exists G, getSakamotoGrammar listed_order (py "abcabc") = Ret G
                /\ acyclic G).
Proof.
  apply (C5_grammars_acyclic listed_order listed_order_perm Nat.log2_up
           (py "abcabc")).
  simpl. lia.
Defined.

(** C6, as stated, fails: on ["a"; "b"; "c"] every pair has overlap 0,
    the first pair scanned with that overlap is (0, 1), and
    [pairWithMaximumOverlap] returns the strings at (1, 2). *)
Lemma C6_first_found_counterexample :
  let Ss := [py "a"; py "b"; py "c"] in
  firstPairWithMaximumOverlap Ss = Some (0, 1)
  /\ pairWithMaximumOverlap Ss = Ret (py "b", py "c")
  /\ pairWithMaximumOverlap Ss <> Ret (Ss !!! 0, Ss !!! 1).
Proof.
  split; [by vm_compute|]. split; [by vm_compute|].
  vm_compute. discriminate.
Qed.

(** C6, amended: [pairWithMaximumOverlap] returns the strings at the pair
    of positions [i < j] that is greatest in the order of the triples
    (overlap, i, j): its overlap is the maximum over all pairs, and among
    the pairs of maximum overlap it is the last one scanned. *)
Theorem C6_last_pair_of_maximum_overlap (Ss : list str) :
  2 <= length Ss ->
  exists i j,
    pairWithMaximumOverlap Ss = Ret (Ss !!! i, Ss !!! j)
    /\ i < j < length Ss
    /\ forall i' j', i' < j' < length Ss ->
         pair_overlap Ss (i', j') < pair_overlap Ss (i, j)
         \/ (pair_overlap Ss (i', j') = pair_overlap Ss (i, j)
             /\ (i' < i \/ (i' = i /\ j' <= j))).
Proof.
  intros Hlen.
  destruct (maxOverlapTriple_spec Ss Hlen) as (i & j & Hmax & Hij & Hbest).
  exists i, j. split; [|done].
  unfold pairWithMaximumOverlap. rewrite Hmax.
  assert (is_Some (Ss !! i)) as [a Ha] by (apply lookup_lt_is_Some; lia).
  assert (is_Some (Ss !! j)) as [b Hb] by (apply lookup_lt_is_Some; lia).
  rewrite (index_Ret _ _ _ Ha). cbn [mbind res_bind].
  rewrite (index_Ret _ _ _ Hb). cbn [mbind res_bind].
  by rewrite (list_lookup_total_correct _ _ _ Ha),
    (list_lookup_total_correct _ _ _ Hb).
Qed.

Lemma C6_last_pair_of_maximum_overlap_witness :
  exists i j,
    pairWithMaximumOverlap [py "a"; py "b"; py "c"]
    = Ret ([py "a"; py "b"; py "c"] !!! i, [py "a"; py "b"; py "c"] !!! j)
    /\ i < j < length [py "a"; py "b"; py "c"]
    /\ forall i' j', i' < j' < length [py "a"; py "b"; py "c"] ->
         pair_overlap [py "a"; py "b"; py "c"] (i', j')
         < pair_overlap [py "a"; py "b"; py "c"] (i, j)
         \/ (pair_overlap [py "a"; py "b"; py "c"] (i', j')
             = pair_overlap [py "a"; py "b"; py "c"] (i, j)
             /\ (i' < i \/ (i' = i /\ j' <= j))).
Proof.
  apply (C6_last_pair_of_maximum_overlap [py "a"; py "b"; py "c"]).
  simpl. lia.
Defined.

(** C7, as stated, fails: with threshold 1 the string "def" is split once,
    into "d" and "ef", and "ef" is longer than 1. *)
Lemma C7_split_counterexample :
  py "ef" ∈ splitTooBigs [py "ab"; py "def"; py "ghij"] 1
  /\ ~ length (py "ef") <= 1.
Proof.
  split; [|simpl; lia].
  vm_compute. do 3 right. left.
Qed.

(** C7, amended: [splitTooBigs] splits every string longer than [k]
    exactly once, at its floor midpoint, and keeps the others; it does
    not split again, however long the halves are.  So the strings of the
    result are the input strings of length at most [k] and both halves of
    every longer one; the result has one string more than the input for
    each string longer than [k]; a string of the result has length at
    most [max(k, ceil(m / 2))], where [m] is the greatest input length;
    and the result respects the bound [k] exactly when no input string is
    longer than [2 * k]. *)
Theorem C7_split_once (L : list str) (k : nat) :
  (forall t, t ∈ splitTooBigs L k <->
     exists s, s ∈ L
       /\ ((length s <= k /\ t = s)
           \/ (k < length s
               /\ (t = take (length s / 2) s \/ t = drop (length s / 2) s))))
  /\ length (splitTooBigs L k)
     = length L + length (filter (fun s => k < length s) L)
  /\ Forall (fun t => length t <= k `max` ((max_list (length <$> L) + 1) / 2))
       (splitTooBigs L k)
  /\ (Forall (fun t => length t <= k) (splitTooBigs L k)
      <-> Forall (fun s => length s <= 2 * k) L).
Proof.
  assert (forall n, n - n / 2 = (n + 1) / 2) as Hceil.
  { intros n. pose proof (Nat.div_mod_eq n 2) as Hn.
    pose proof (Nat.mod_upper_bound n 2 ltac:(lia)) as Hn2.
    pose proof (Nat.div_mod_eq (n + 1) 2) as Hn'.
    pose proof (Nat.mod_upper_bound (n + 1) 2 ltac:(lia)) as Hn2'. lia. }
  split; [intros t; apply elem_of_splitTooBigs|]. split; [|split].
  - induction L as [|s L IH]; [done|].
    rewrite splitTooBigs_cons, length_app, IH, filter_cons.
    unfold splitTooBigs at 1. cbn [mbind list_bind app].
    destruct (decide (k < length s)); simpl; lia.
  - apply Forall_forall. intros t (s & Hs & Hcase)%elem_of_splitTooBigs.
    assert (length s <= max_list (length <$> L)) as Hm.
    { apply max_list_elem_of_le, list_elem_of_fmap. by exists s. }
    assert ((length s + 1) / 2 <= (max_list (length <$> L) + 1) / 2)
      as Hmono.
    { apply Nat.Div0.div_le_mono. lia. }
    assert (length s / 2 <= (length s + 1) / 2) as Hhalf.
    { apply Nat.Div0.div_le_mono. lia. }
    destruct Hcase as [[Hle ->]|[Hlt [-> | ->]]]; [lia| |].
    + rewrite length_take. lia.
    + rewrite length_drop, Hceil. lia.
  - rewrite !Forall_forall. split.
    + intros Hres s Hs.
      destruct (decide (length s <= 2 * k)) as [|Hlong]; [done|].
      specialize (Hres (drop (length s / 2) s)).
      rewrite length_drop, Hceil in Hres.
      assert (k + 1 <= (length s + 1) / 2) as Hbig.
      { apply Nat.div_le_lower_bound; lia. }
      enough ((length s + 1) / 2 <= k) by lia.
      apply Hres, elem_of_splitTooBigs. exists s. split; [done|].
      right. split; [lia|by right].
    + intros HL t (s & Hs & Hcase)%elem_of_splitTooBigs.
      specialize (HL s Hs).
      assert (length s / 2 <= k) as Hhalf.
      { apply Nat.Div0.div_le_upper_bound; lia. }
      assert ((length s + 1) / 2 <= k) as Hhalf'.
      { pose proof (Nat.div_mod_eq (length s + 1) 2) as Hdm.
        pose proof (Nat.mod_upper_bound (length s + 1) 2 ltac:(lia)). lia. }
      destruct Hcase as [[Hle ->]|[Hlt [-> | ->]]]; [done| |].
      * rewrite length_take. lia.
      * rewrite length_drop, Hceil. lia.
Qed.

Lemma C7_split_once_witness :
  (forall t, t ∈ splitTooBigs [py "ab"; py "def"; py "ghij"] 1 <->
     exists s, s ∈ [py "ab"; py "def"; py "ghij"]
       /\ ((length s <= 1 /\ t = s)
           \/ (1 < length s
               /\ (t = take (length s / 2) s \/ t = drop (length s / 2) s))))
  /\ length (splitTooBigs [py "ab"; py "def"; py "ghij"] 1)
     = length [py "ab"; py "def"; py "ghij"]
       + length (filter (fun s => 1 < length s)
                   [py "ab"; py "def"; py "ghij"])
  /\ Forall (fun t =>
               length t
               <= 1 `max`
                  ((max_list (length <$> [py "ab"; py "def"; py "ghij"]) + 1)
                   / 2))
       (splitTooBigs [py "ab"; py "def"; py "ghij"] 1)
  /\ (Forall (fun t => length t <= 1)
        (splitTooBigs [py "ab"; py "def"; py "ghij"] 1)
      <-> Forall (fun s => length s <= 2 * 1)
            [py "ab"; py "def"; py "ghij"]).
Proof.
  apply (C7_split_once [py "ab"; py "def"; py "ghij"] 1).
Defined.

(** The arrangement pass on [a b c a b] takes the pairs in the order
    [a b], [c a], [b c]; after the first two the segments (0, 1), (3, 4)
    and (2, 3) have ids, and the occurrences of [b c] are the single
    position pair (1, 2). *)
Lemma arrangement_reaches_index_one :
  let w := chars (py "abcab") in
  snd <$> createSortedSegmentList listed_order w
  = [(py "a", py "b"); (py "c", py "a"); (py "b", py "c")]
  /\ (exists ID D,
        forM [(py "a", py "b"); (py "c", py "a")]
          (arrangement_round listed_order w) (∅, ∅, ∅)
        = Ret (ID,
               <[(0, 1)%Z := 0]> (<[(3, 4)%Z := 0]> (<[(2, 3)%Z := 2]> ∅)),
               D))
  /\ make_set_c (py "b", py "c") w = {[ (1, 2)%Z ]}.
Proof.
  split; [by vm_compute|]. split; [|by vm_compute].
  do 2 eexists. vm_compute. reflexivity.
Qed.

(** C8: [make_sets] does not put an occurrence at index 1 into the
    left-fixed set although its left neighbour [w[0..1]] has an id.  In
    [w = a b c a b] with ids on the segments (0, 1), (2, 3), (3, 4), the
    occurrence (1, 2) of the pair [b c] comes out right-fixed, whatever
    the iteration order.  [getSakamotoGrammar] reaches this call on
    "abcab" ([arrangement_reaches_index_one]). *)
Theorem C8_make_sets_misses_index_one
    (pyiter : forall A : Type, list A -> list A)
    (pyiter_perm : forall (A : Type) (l : list A), pyiter A l ≡ₚ l) :
  let Assignments : gmap (Z * Z) nat :=
    <[(0, 1)%Z := 0]> (<[(3, 4)%Z := 0]> (<[(2, 3)%Z := 2]> ∅)) in
  is_Some (Assignments !! (0, 1)%Z)
  /\ make_sets pyiter (chars (py "abcab")) {[ (1, 2)%Z ]} ∅ ∅ ∅ Assignments
     = (∅, ∅, {[ (1, 2)%Z ]}).
Proof.
  intros Assignments. split; [by eexists|].
  unfold make_sets, set_iter. rewrite elements_singleton.
  pose proof (pyiter_perm _ [(1, 2)%Z]) as Hperm.
  apply Permutation_singleton_r in Hperm. rewrite Hperm.
  cbn [foldl].
  destruct (decide _) as [[Hgt _]|_]; [simpl in Hgt; lia|].
  destruct (decide _) as [_|Hno].
  - by rewrite (right_id_L ∅ (∪)).
  - destruct Hno. split; [simpl; lia|]. by eexists.
Qed.

Lemma C8_make_sets_misses_index_one_witness :
  let Assignments : gmap (Z * Z) nat :=
    <[(0, 1)%Z := 0]> (<[(3, 4)%Z := 0]> (<[(2, 3)%Z := 2]> ∅)) in
  is_Some (Assignments !! (0, 1)%Z)
  /\ make_sets listed_order (chars (py "abcab")) {[ (1, 2)%Z ]} ∅ ∅ ∅
       Assignments
     = (∅, ∅, {[ (1, 2)%Z ]}).
Proof.
  apply (C8_make_sets_misses_index_one listed_order listed_order_perm).
Defined.

(** C9: [getBisectionGrammar] returns exactly the grammar of the
    recursive floor-midpoint splitting: its keys are the strings of length
    at least two that the recursion visits, each mapped to its two halves;
    on "abababab" this gives exactly three productions. *)
Theorem C9_bisection_grammar :
  (forall S : str,
     exists G, getBisectionGrammar S = Ret G
       /\ forall T rhs, G !! T = Some rhs <->
            visited S T /\ 2 <= length T
            /\ rhs = [take (length T / 2) T; drop (length T / 2) T])
  /\ getBisectionGrammar (py "abababab")
     = Ret (<[py "abababab" := [py "abab"; py "abab"]]>
              (<[py "abab" := [py "ab"; py "ab"]]>
                 (<[py "ab" := [py "a"; py "b"]]> ∅))).
Proof.
  split; [apply getBisectionGrammar_spec|].
  by vm_compute.
Qed.

(** C10: on the empty string [getBisectionGrammar] and
    [getSakamotoGrammar] raise nothing and return the empty grammar. *)
Theorem C10_empty_input :
  getBisectionGrammar [] = Ret ∅
  /\ forall pyiter : forall A : Type, list A -> list A,
       getSakamotoGrammar pyiter [] = Ret ∅.
Proof.
  split; [done|]. intros pyiter. done.
Qed.

(** * Further properties of the code *)

(** ** The superstring kernel (lehman1.py) *)

Lemma computeOverlap_scan (s1 s2 : str) (n : nat) :
  exists k,
    foldl (fun max_overlap i =>
             if decide (drop (length s1 - i) s1 = take i s2)
             then triple_max max_overlap (i, length s1 - i, 0)
             else max_overlap)
          (0, length s1, 0) (seq 1 n)
    = (k, length s1 - k, 0)
    /\ k <= n
    /\ drop (length s1 - k) s1 = take k s2
    /\ forall i, 1 <= i <= n ->
         drop (length s1 - i) s1 = take i s2 -> i <= k.
Proof.
  induction n as [|n (k & Hk & Hkn & Hmatch & Hmax)].
  - exists 0. split; [simpl; by rewrite Nat.sub_0_r|]. split; [done|].
    split; [by rewrite Nat.sub_0_r, drop_all|]. intros i Hi. lia.
  - rewrite seq_S, foldl_app, Hk. cbn [foldl].
    destruct (decide _) as [Heq|Hne].
    + exists (1 + n). split.
      * unfold triple_max, triple_ltb.
        destruct (Nat.ltb_spec k (1 + n)); [done|lia].
      * split; [lia|]. split; [done|]. intros i Hi _. lia.
    + exists k. split; [done|]. split; [lia|]. split; [done|].
      intros i Hi Hi'. destruct (decide (i = 1 + n)) as [->|]; [done|].
      apply Hmax; [lia|done].
Qed.

(** X1: [computeOverlap(s1, s2)] is [(k, len(s1) - k, 0)] where [k] is
    the length of the longest suffix of [s1] that is a prefix of [s2] and
    is shorter than both strings; [k] is 0 exactly when there is none. *)
Theorem computeOverlap_longest_proper_overlap (s1 s2 : str) :
  exists k,
    computeOverlap s1 s2 = (k, length s1 - k, 0)
    /\ (k = 0 \/ k < length s1 `min` length s2)
    /\ drop (length s1 - k) s1 = take k s2
    /\ (forall i, 1 <= i < length s1 `min` length s2 ->
          drop (length s1 - i) s1 = take i s2 -> i <= k)
    /\ (k = 0 <->
        forall i, 1 <= i < length s1 `min` length s2 ->
          drop (length s1 - i) s1 <> take i s2).
Proof.
  destruct (computeOverlap_scan s1 s2 (length s1 `min` length s2 - 1))
    as (k & Hk & Hkn & Hmatch & Hmax).
  exists k. split; [done|]. split; [lia|]. split; [done|].
  split; [intros i Hi; apply Hmax; lia|]. split.
  - intros -> i Hi Hm. specialize (Hmax i ltac:(lia) Hm). lia.
  - intros Hnone. destruct (decide (k = 0)) as [|Hk0]; [done|].
    destruct (Hnone k); [lia|done].
Qed.

(** X2: with fewer than two strings [pairWithMaximumOverlap] finds no
    pair, indexes the list with [None] and raises [TypeError]. *)
Theorem pairWithMaximumOverlap_needs_two_strings :
  pairWithMaximumOverlap [] = Raise TypeError
  /\ forall s, pairWithMaximumOverlap [s] = Raise TypeError.
Proof. split; [done|]. intros s. done. Qed.

Lemma list_remove_join_length (x : str) (l l' : list str) :
  list_remove x l = Ret l' ->
  length (join l') + length x = length (join l).
Proof.
  revert l'. induction l as [|y l IH]; intros l'; cbn [list_remove];
    [discriminate|].
  destruct (decide (y = x)) as [->|Hne].
  - intros [= <-]. rewrite join_cons, length_app. lia.
  - intros (l'' & Hl'' & [= <-])%bind_Ret.
    rewrite !join_cons, !length_app. specialize (IH l'' Hl''). lia.
Qed.

(** One merge does not lengthen what the working strings spell. *)
Lemma blum_step_length (strings strings' : list str)
    (idx idx' : gmap str (list nat)) :
  blum_step strings idx = Ret (strings', idx') ->
  length (join strings') <= length (join strings).
Proof.
  unfold blum_step.
  intros ([s1 s2] & Hpair & (l1 & Hl1 & (l2 & Hl2 & Hrest)%bind_Ret)
    %bind_Ret)%bind_Ret.
  apply list_remove_join_length in Hl1, Hl2.
  apply bind_Ret in Hrest as (old & _ & (i1 & _ & (i2 & _ & Hret)%bind_Ret)
    %bind_Ret).
  injection Hret as <- _.
  rewrite join_app, join_single, !length_app, length_take. lia.
Qed.

Lemma blum_loop_length (fuel : nat) (strings strings' : list str)
    (idx idx' : gmap str (list nat)) :
  blum_loop fuel strings idx = Ret (strings', idx') ->
  length (join strings') <= length (join strings).
Proof.
  revert strings idx. induction fuel as [|f IH]; intros strings idx;
    cbn [blum_loop]; destruct (decide (1 < length strings));
    try discriminate; try (by intros [= <- _]).
  intros ([l1 i1] & Hstep & Hloop)%bind_Ret.
  apply blum_step_length in Hstep. apply IH in Hloop. lia.
Qed.

Lemma break_at_whole (sup : str) (l : list nat) :
  Forall (fun q => q <= length sup) l ->
  join (break_at sup (sorted_set ([0] ++ l ++ [length sup]))) = sup.
Proof.
  intros Hb.
  set (L := sorted_set ([0] ++ l ++ [length sup])).
  destruct (sorted_set_spec ([0] ++ l ++ [length sup])) as [Hss Hmem].
  fold L in Hss, Hmem.
  assert (forall x, x ∈ L -> x <= length sup) as HLb.
  { intros x [ ->%list_elem_of_singleton | [Hx | ->%list_elem_of_singleton]
      %elem_of_app ]%Hmem%elem_of_app; [lia| |lia].
    rewrite Forall_forall in Hb. auto. }
  assert (last L = Some (length sup)) as Hlast.
  { apply StronglySorted_lt_last_max; [done| |done].
    apply Hmem. rewrite !elem_of_app. right. right. left. }
  assert (0 ∈ L) as H0 by (apply Hmem; left).
  destruct L as [|x L']; [by apply elem_of_nil in H0|].
  assert (x = 0) as ->.
  { apply elem_of_cons in H0 as [->|H0]; [done|].
    apply StronglySorted_inv in Hss as [_ Hall].
    rewrite Forall_forall in Hall. specialize (Hall 0 H0). lia. }
  rewrite (break_at_join sup 0 (length sup)) by done.
  unfold slice. rewrite Nat.sub_0_r, drop_0. by rewrite take_ge.
Qed.

(** X3: on a non-empty list of non-empty strings
    [blumSmallestSuperstringAndBreaking] returns non-empty segments; every
    input string occurs in their concatenation starting at a segment
    boundary; and the concatenation is no longer than the concatenation
    of the input. *)
Theorem blumSmallestSuperstringAndBreaking_superstring (Ss : list str) :
  Ss <> [] -> Forall (fun s => 1 <= length s) Ss ->
  exists out,
    blumSmallestSuperstringAndBreaking Ss = Ret out
    /\ Forall (fun s => 1 <= length s) out
    /\ (forall s, s ∈ Ss ->
          exists j, j < length out /\ s `prefix_of` join (drop j out))
    /\ length (join out) <= length (join Ss).
Proof.
  intros Hne Hlen.
  destruct (blumSmallestSuperstringAndBreaking_spec Ss Hne Hlen)
    as (out & Hout & Hseg & Hstart).
  exists out. split; [done|]. split; [done|]. split; [exact Hstart|].
  unfold blumSmallestSuperstringAndBreaking in Hout.
  apply bind_Ret in Hout as ([strings idx] & Hloop & Hrest).
  destruct (blum_loop_spec (length Ss) Ss Ss
              (foldl (fun idx s => <[s := [0]]> idx) ∅ Ss))
    as (sup & idx0 & Hloop' & (_ & _ & Hkeys & Hbound & _)); [done| |].
  { split; [done|]. split; [done|]. split; [|split].
    - intros t Ht. rewrite initial_indices, decide_True by done. eauto.
    - intros t l. rewrite initial_indices.
      destruct (decide _); [|by rewrite lookup_empty].
      intros [= <-]. constructor; [lia|constructor].
    - intros s Hs. exists s, [0], 0. split; [done|].
      split; [by rewrite initial_indices, decide_True|]. split; [left|].
      by rewrite drop_0. }
  pose proof Hloop as Hlength. apply blum_loop_length in Hlength.
  rewrite Hloop' in Hloop. injection Hloop as <- <-.
  change (index [sup] 0%Z) with (Ret sup) in Hrest.
  cbn [mbind res_bind] in Hrest.
  destruct (Hkeys sup) as [l Hl]; [left|].
  rewrite (getitem_Ret _ _ _ Hl) in Hrest. cbn [mbind res_bind] in Hrest.
  injection Hrest as <-.
  pose proof (break_at_whole sup l (Hbound sup l Hl)) as Hw.
  change ([0] ++ l ++ [length sup]) with (0 :: l ++ [length sup]) in Hw.
  rewrite Hw.
  by rewrite join_single in Hlength.
Qed.

Lemma blumSmallestSuperstringAndBreaking_superstring_witness :
  exists out,
    blumSmallestSuperstringAndBreaking [py "abc"; py "cde"] = Ret out
    /\ Forall (fun s => 1 <= length s) out
    /\ (forall s, s ∈ [py "abc"; py "cde"] ->
          exists j, j < length out /\ s `prefix_of` join (drop j out))
    /\ length (join out) <= length (join [py "abc"; py "cde"]).
Proof.
  apply (blumSmallestSuperstringAndBreaking_superstring [py "abc"; py "cde"]).
  - done.
  - repeat constructor; simpl; lia.
Defined.

Lemma sorted_set_two (m : nat) : sorted_set [0; 0; S m] = [0; S m].
Proof.
  unfold sorted_set. apply (StronglySorted_unique le).
  - apply StronglySorted_merge_sort; apply _.
  - repeat constructor. lia.
  - by rewrite merge_sort_Permutation.
Qed.

(** X4: [blumSmallestSuperstringAndBreaking([])] raises [IndexError] (at
    [strings[0]]); a single non-empty string comes back as the only
    segment, and a single empty string gives no segment at all. *)
Theorem blumSmallestSuperstringAndBreaking_edge_cases :
  blumSmallestSuperstringAndBreaking [] = Raise IndexError
  /\ blumSmallestSuperstringAndBreaking [[]] = Ret []
  /\ forall c s, blumSmallestSuperstringAndBreaking [c :: s] = Ret [c :: s].
Proof.
  split; [done|]. split; [by vm_compute|]. intros c s.
  unfold blumSmallestSuperstringAndBreaking. cbn [foldl length blum_loop].
  destruct (decide (1 < 1)); [lia|]. cbn [mbind res_bind].
  change (index [c :: s] 0%Z) with (Ret (c :: s)). cbn [mbind res_bind].
  unfold getitem. rewrite lookup_insert_eq. cbn [mbind res_bind].
  change ([0] ++ [0] ++ [length (c :: s)]) with [0; 0; S (length s)].
  rewrite sorted_set_two. unfold break_at, slice. simpl.
  by rewrite take_ge by lia.
Qed.

(** X5: [splitTooBigs] keeps the concatenation of its strings, keeps
    their order, and at most doubles their number. *)
Theorem splitTooBigs_preserves_concatenation (L : list str) (k : nat) :
  join (splitTooBigs L k) = join L
  /\ length L <= length (splitTooBigs L k) <= 2 * length L.
Proof.
  split; [apply splitTooBigs_join|].
  unfold splitTooBigs. induction L as [|s L IH]; [simpl; lia|].
  change (mbind ?f (s :: L)) with (f s ++ (L ≫= f)).
  rewrite length_app. cbn [length].
  destruct (decide (k < length s)); simpl; lia.
Qed.

(** ** LEHMAN1 (lehman1.py) *)

Lemma generateCs_loop_length (m : nat) :
  forall fuel Cs Cs',
    generateCs_loop fuel (2 ^ m) Cs = Ret Cs' ->
    length Cs' = length Cs + m.
Proof.
  induction m as [|m IH]; intros fuel Cs Cs'.
  - destruct fuel; cbn [generateCs_loop];
      (destruct (decide (2 <= 2 ^ 0)) as [H|_];
       [rewrite Nat.pow_0_r in H; lia|]);
      intros [= <-]; lia.
  - assert (2 <= 2 ^ S m) as H2.
    { rewrite Nat.pow_succ_r'. pose proof (Nat.pow_nonzero 2 m). lia. }
    assert (2 ^ S m / 2 = 2 ^ m) as Hhalf.
    { rewrite Nat.pow_succ_r', Nat.mul_comm. apply Nat.div_mul. lia. }
    destruct fuel as [|f]; cbn [generateCs_loop];
      (destruct (decide (2 <= 2 ^ S m)); [|lia]); [discriminate|].
    intros (last & _ & (pk & _ & Hloop)%bind_Ret)%bind_Ret.
    rewrite Hhalf in Hloop. apply IH in Hloop.
    rewrite length_app in Hloop. simpl in Hloop. lia.
Qed.

(** X6: on a non-empty string [generateCs] returns a hierarchy that
    starts with the level [[S]] and has [max(1, c)] levels, where [c] is
    the value of [int(math.ceil(math.log(len(S), 2)))]; every level is a
    non-empty list of non-empty strings, and every string of a level
    occurs in the next level starting at a segment boundary. *)
Theorem generateCs_hierarchy (ceil_log2 : nat -> nat) (S : str) :
  1 <= length S ->
  exists rest,
    generateCs ceil_log2 S = Ret ([S] :: rest)
    /\ length ([S] :: rest) = 1 `max` ceil_log2 (length S)
    /\ (forall C, C ∈ [S] :: rest ->
          C <> [] /\ Forall (fun s => 1 <= length s) C)
    /\ (forall i C C' s,
          ([S] :: rest) !! i = Some C -> ([S] :: rest) !! (i + 1) = Some C' ->
          s ∈ C ->
          exists j, j < length C' /\ s `prefix_of` join (drop j C')).
Proof.
  intros Hlen.
  destruct (generateCs_spec ceil_log2 S Hlen) as (rest & Hret & Hne & Hnext).
  exists rest. split; [done|]. split; [|split; [done|]].
  - unfold generateCs in Hret.
    destruct (decide (length S = 0)); [lia|]. cbv zeta in Hret.
    unfold initial_k in Hret.
    destruct (decide (ceil_log2 (length S) = 0)) as [H0|H0].
    + rewrite H0. cbn [generateCs_loop] in Hret.
      destruct (decide (2 <= 0)); [lia|]. by injection Hret as <-.
    + apply generateCs_loop_length in Hret. rewrite Hret. simpl. lia.
  - intros i C C' s Hi HSi Hs. replace (i + 1) with (Datatypes.S i) in HSi by lia.
    exact (Hnext i C C' Hi HSi s Hs).
Qed.

Lemma generateCs_hierarchy_witness :
  exists rest,
    generateCs Nat.log2_up (py "aabcdababcbd")
    = Ret ([py "aabcdababcbd"] :: rest)
    /\ length ([py "aabcdababcbd"] :: rest)
       = 1 `max` Nat.log2_up (length (py "aabcdababcbd"))
    /\ (forall C, C ∈ [py "aabcdababcbd"] :: rest ->
          C <> [] /\ Forall (fun s => 1 <= length s) C)
    /\ (forall i C C' s,
          ([py "aabcdababcbd"] :: rest) !! i = Some C ->
          ([py "aabcdababcbd"] :: rest) !! (i + 1) = Some C' ->
          s ∈ C ->
          exists j, j < length C' /\ s `prefix_of` join (drop j C')).
Proof.
  apply (generateCs_hierarchy Nat.log2_up (py "aabcdababcbd")).
  simpl. lia.
Defined.

(** X7: the empty string makes [generateCs], hence [getLehman1Grammar],
    raise [ValueError] ([math.log(0, 2)]), and makes
    [getExhaustiveGrammar] raise [ValueError] ([min] of no grammar at
    all: the generator yields nothing). *)
Theorem empty_input_raises_ValueError :
  (forall ceil_log2, generateCs ceil_log2 [] = Raise ValueError)
  /\ (forall ceil_log2, getLehman1Grammar ceil_log2 [] = Raise ValueError)
  /\ (forall fuel, generateAllGrammars (Datatypes.S fuel) [] = Ret [])
  /\ getExhaustiveGrammar [] = Raise ValueError.
Proof. done. Qed.

(** X8: when [s] occurs in the concatenation of [small_strings] starting
    at a segment boundary, [findLongestPrefix] returns [(start, end,
    used)] where [start] is the first such boundary, the segments
    [start..end-1] spell the first [used] characters of [s], and the next
    segment, if any, is longer than what is left of [s]. *)
Theorem findLongestPrefix_longest (s : str) (small_strings : list str) :
  starts_in s small_strings ->
  exists start end_ used,
    findLongestPrefix s small_strings = Ret (start, end_, used)
    /\ start < length small_strings
    /\ start <= end_ <= length small_strings
    /\ used <= length s
    /\ take used s = join (slice start end_ small_strings)
    /\ s `prefix_of` join (drop start small_strings)
    /\ (forall j, j < start -> ~ s `prefix_of` join (drop j small_strings))
    /\ (forall x, small_strings !! end_ = Some x ->
          length s - used < length x).
Proof.
  intros (j0 & Hj0 & Hpre0). unfold findLongestPrefix, findPrefixStart.
  destruct (list_find _ (seq 0 (length small_strings))) as [[i x]|] eqn:E.
  2:{ apply list_find_None in E. rewrite Forall_forall in E.
      destruct (E j0); [apply elem_of_seq; lia|].
      by apply prefix_take_length. }
  apply list_find_Some in E as (Hx & HP & Hfirst).
  apply lookup_seq in Hx as [-> Hi]. simpl in Hi. cbn [mbind res_bind].
  change (0 + i) with i in *.
  destruct (consume_spec (drop i small_strings) i (length s))
    as (n & -> & Hn & Hfit & Hnext).
  rewrite length_drop in Hn.
  exists i, (i + n), (length s - (length s - length (join (take n (drop i small_strings))))).
  assert (s `prefix_of` join (drop i small_strings)) as Hpre
    by by apply prefix_take_length.
  assert (slice i (i + n) small_strings = take n (drop i small_strings))
    as Hslice.
  { unfold slice. f_equal. lia. }
  split; [done|]. split; [done|]. split; [lia|]. split; [lia|].
  split; [|split; [done|split]].
  - replace (length s - (length s - length (join (take n (drop i small_strings)))))
      with (length (join (take n (drop i small_strings)))) by lia.
    rewrite Hslice. destruct Hpre as [k Hk].
    assert (join (drop i small_strings)
            = join (take n (drop i small_strings))
              ++ join (drop n (drop i small_strings))) as HD.
    { by rewrite <- join_app, take_drop. }
    assert (take (length (join (take n (drop i small_strings)))) (s ++ k)
            = join (take n (drop i small_strings))) as HJ.
    { rewrite <- Hk, HD. by rewrite take_app_length. }
    by rewrite take_app_le in HJ.
  - intros j Hj Hpj.
    assert (is_Some (seq 0 (length small_strings) !! j)) as [y Hy]
      by (apply lookup_lt_is_Some; rewrite length_seq; lia).
    pose proof Hy as Hy'. apply lookup_seq in Hy' as [-> _].
    apply (Hfirst j _ Hy Hj). by apply prefix_take_length.
  - intros y Hy. specialize (Hnext y). rewrite lookup_drop in Hnext.
    specialize (Hnext Hy). lia.
Qed.

Lemma findLongestPrefix_longest_witness :
  exists start end_ used,
    findLongestPrefix (py "abcde")
      [py "abcd"; py "qq"; py "abc"; py "d"; py "ef"]
    = Ret (start, end_, used)
    /\ start < length [py "abcd"; py "qq"; py "abc"; py "d"; py "ef"]
    /\ start <= end_ <= length [py "abcd"; py "qq"; py "abc"; py "d"; py "ef"]
    /\ used <= length (py "abcde")
    /\ take used (py "abcde")
       = join (slice start end_
                 [py "abcd"; py "qq"; py "abc"; py "d"; py "ef"])
    /\ py "abcde" `prefix_of`
         join (drop start [py "abcd"; py "qq"; py "abc"; py "d"; py "ef"])
    /\ (forall j, j < start ->
          ~ py "abcde" `prefix_of`
              join (drop j [py "abcd"; py "qq"; py "abc"; py "d"; py "ef"]))
    /\ (forall x,
          [py "abcd"; py "qq"; py "abc"; py "d"; py "ef"] !! end_ = Some x ->
          length (py "abcde") - used < length x).
Proof.
  apply (findLongestPrefix_longest (py "abcde")
           [py "abcd"; py "qq"; py "abc"; py "d"; py "ef"]).
  exists 2. split; [simpl; lia|]. by exists (py "f").
Defined.

(** X9: when [s] starts at no segment boundary of [small_strings] --
    always so for an empty [small_strings] -- [findLongestPrefix] raises
    its "String not found as a prefix" exception. *)
Theorem findLongestPrefix_not_found (s : str) (small_strings : list str) :
  ~ starts_in s small_strings ->
  findLongestPrefix s small_strings = Raise StringNotFound.
Proof.
  intros Hno. unfold findLongestPrefix, findPrefixStart.
  destruct (list_find _ (seq 0 (length small_strings))) as [[i x]|] eqn:E;
    [|done].
  apply list_find_Some in E as (Hx & HP & _).
  apply lookup_seq in Hx as [-> Hi]. destruct Hno. exists i.
  split; [done|]. by apply prefix_take_length.
Qed.

Lemma findLongestPrefix_not_found_witness :
  findLongestPrefix (py "ba") [py "ab"; py "c"] = Raise StringNotFound.
Proof.
  apply (findLongestPrefix_not_found (py "ba") [py "ab"; py "c"]).
  intros (j & Hj & Hpre). apply prefix_take_length in Hpre.
  simpl in Hj. destruct j as [|[|j]]; [discriminate Hpre|discriminate Hpre|lia].
Defined.

Lemma foldl_insert_is_Some {A} (f : A -> str) (h : A -> list str)
    (l : list A) (g : grammar) (k : str) :
  is_Some (foldl (fun g i => <[f i := h i]> g) g l !! k) ->
  is_Some (g !! k) \/ exists i, i ∈ l /\ k = f i.
Proof.
  intros [v Hv]. apply foldl_insert_lookup in Hv as [Hv|(i & Hi & -> & _)].
  - left. by exists v.
  - right. by exists i.
Qed.

(** Every key [recursiveCall] adds spells a range of two or more
    consecutive segments. *)
Lemma recursiveCall_keys_ranges (fuel : nat) :
  forall (S : list str) (g g' : grammar),
    recursiveCall fuel S g = Ret g' ->
    forall k, is_Some (g' !! k) ->
      is_Some (g !! k)
      \/ exists a b, a + 2 <= b /\ b <= length S /\ k = join (slice a b S).
Proof.
  induction fuel as [|f IH]; intros S g g'; [discriminate|].
  cbn [recursiveCall]. destruct (decide (length S = 1)) as [H1|H1].
  { intros [= <-] k Hk. by left. }
  set (mid := length S / 2).
  intros (g3 & H3 & H4)%bind_Ret k Hk.
  assert (mid <= length S) as Hmid.
  { unfold mid. apply Nat.Div0.div_le_upper_bound. lia. }
  destruct (IH _ _ _ H4 k Hk) as [Hk3|(a & b & Hab & Hb & ->)].
  2:{ right. rewrite length_drop in Hb. exists (mid + a), (mid + b).
      split; [lia|]. split; [lia|]. by rewrite slice_drop. }
  destruct (IH _ _ _ H3 k Hk3) as [Hk2|(a & b & Hab & Hb & ->)].
  2:{ right. rewrite length_take in Hb. exists a, b.
      split; [lia|]. split; [lia|]. rewrite slice_take; [done|lia]. }
  apply (foldl_insert_is_Some (fun i => join (slice mid (i + 1) S))
           (fun i => [join (slice mid i S); S !!! i])) in Hk2
    as [Hk1|(i & Hi%elem_of_seq & ->)].
  2:{ right. exists mid, (i + 1). split; [lia|]. split; [lia|done]. }
  apply (foldl_insert_is_Some (fun i => join (slice i mid S))
           (fun i => [S !!! i; join (slice (i + 1) mid S)])) in Hk1
    as [Hk0|(i & Hi%elem_of_seq & ->)]; [by left|].
  right. exists i, mid. split; [lia|]. split; [lia|done].
Qed.

(** X10: on a non-empty list of non-empty segments
    [generateSubstringConstructionGrammar] returns a grammar in which every
    key spells a range of two or more consecutive segments, every
    production consists of two non-empty symbols that spell its key and
    are segments or keys, and every range of three or more consecutive
    segments can be cut into two parts that are single segments or keys.
    A single segment gives the empty grammar. *)
Theorem generateSubstringConstructionGrammar_ranges (S : list str) :
  1 <= length S -> Forall (fun s => 1 <= length s) S ->
  exists g,
    generateSubstringConstructionGrammar S = Ret g
    /\ (forall k rhs, g !! k = Some rhs -> sc_production S g k rhs)
    /\ (forall k, is_Some (g !! k) ->
          exists a b, a + 2 <= b /\ b <= length S /\ k = join (slice a b S))
    /\ has_splits g S
    /\ (length S = 1 -> g = ∅).
Proof.
  intros Hlen HS.
  destruct (generateSubstringConstructionGrammar_spec S Hlen HS)
    as (g & Hg & Hprod & Hsplits).
  exists g. split; [done|]. split; [done|]. split; [|split; [done|]].
  - intros k Hk. unfold generateSubstringConstructionGrammar in Hg.
    destruct (recursiveCall_keys_ranges _ _ _ _ Hg k Hk) as [He|?]; [|done].
    rewrite lookup_empty in He. by destruct He.
  - intros H1. unfold generateSubstringConstructionGrammar in Hg.
    cbn [recursiveCall] in Hg. destruct (decide (length S = 1)); [|done].
    by injection Hg as <-.
Qed.

Lemma generateSubstringConstructionGrammar_ranges_witness :
  exists g,
    generateSubstringConstructionGrammar (chars (py "abcdefgh")) = Ret g
    /\ (forall k rhs, g !! k = Some rhs ->
          sc_production (chars (py "abcdefgh")) g k rhs)
    /\ (forall k, is_Some (g !! k) ->
          exists a b, a + 2 <= b /\ b <= length (chars (py "abcdefgh"))
                      /\ k = join (slice a b (chars (py "abcdefgh"))))
    /\ has_splits g (chars (py "abcdefgh"))
    /\ (length (chars (py "abcdefgh")) = 1 -> g = ∅).
Proof.
  apply (generateSubstringConstructionGrammar_ranges (chars (py "abcdefgh"))).
  - simpl. lia.
  - repeat constructor.
Defined.

(** X11: in the grammar [getLehman1Grammar] returns for a non-empty
    string every key has at least two characters, every right-hand side
    has at least two symbols, all of them non-empty, and spells its key;
    and [S] itself is a key when it has at least two characters. *)
Theorem getLehman1Grammar_productions (ceil_log2 : nat -> nat) (S : str) :
  1 <= length S ->
  exists G,
    getLehman1Grammar ceil_log2 S = Ret G
    /\ (forall k rhs, G !! k = Some rhs ->
          2 <= length k /\ 2 <= length rhs /\ join rhs = k
          /\ Forall (fun v => 1 <= length v < length k) rhs)
    /\ (2 <= length S -> is_Some (G !! S)).
Proof.
  intros Hlen.
  destruct (getLehman1Grammar_spec ceil_log2 S Hlen)
    as (G & g' & HG & _ & Hinv & _ & HS).
  exists G. split; [done|]. split; [|done].
  intros k rhs Hk.
  destruct (Hinv k rhs Hk) as (Hk2 & Hjoin & [Hrhs | []] & _).
  split; [done|]. split; [done|]. split; [done|].
  destruct (linv_well_formed G Hinv) as [Hprod _].
  by destruct (Hprod k rhs Hk) as [_ Hsym].
Qed.

Lemma getLehman1Grammar_productions_witness :
  exists G,
    getLehman1Grammar Nat.log2_up (py "aababbabababbaba") = Ret G
    /\ (forall k rhs, G !! k = Some rhs ->
          2 <= length k /\ 2 <= length rhs /\ join rhs = k
          /\ Forall (fun v => 1 <= length v < length k) rhs)
    /\ (2 <= length (py "aababbabababbaba") -> is_Some (G !! py "aababbabababbaba")).
Proof.
  apply (getLehman1Grammar_productions Nat.log2_up (py "aababbabababbaba")).
  simpl. lia.
Defined.

(** X12: on a one-character string every algorithm returns the empty
    grammar (for LEHMAN1: given that [math.log(1, 2)] is 0). *)
Theorem single_character_empty_grammar
    (pyiter : forall A : Type, list A -> list A)
    (ceil_log2 : nat -> nat) (c : ascii) :
  ceil_log2 1 = 0 ->
  getBisectionGrammar [c] = Ret ∅
  /\ getExhaustiveGrammar [c] = Ret ∅
  /\ getLehman1Grammar ceil_log2 [c] = Ret ∅
  /\ getSakamotoGrammar pyiter [c] = Ret ∅.
Proof.
  intros Hlog. split; [done|]. split; [|split; [|done]].
  - unfold getExhaustiveGrammar. cbn [length generateAllGrammars].
    destruct (decide (1 = 1)); [|done]. cbn [mbind res_bind mapR stageCount].
    rewrite lookup_empty. cbn [mbind res_bind]. done.
  - unfold getLehman1Grammar, generateCs. cbn [length].
    destruct (decide (1 = 0)); [lia|]. rewrite Hlog. cbv zeta.
    unfold initial_k. destruct (decide (0 = 0)); [|done].
    cbn [generateCs_loop]. destruct (decide (2 <= 0)); [lia|].
    cbn [mbind res_bind forM].
    unfold generateSubstringConstructionGrammar.
    cbn [length chars fmap list_fmap recursiveCall].
    destruct (decide (1 = 1)); [|done].
    cbn [mbind res_bind stitch_all forM]. unfold stitch. cbn [length].
    destruct (decide (1 = 1)); [|done]. cbn [mbind res_bind].
    rewrite !(left_id_L ∅ (∪)). unfold closure_check.
    rewrite bool_decide_eq_true_2; [done|]. apply map_Forall_empty.
Qed.

Lemma single_character_empty_grammar_witness :
  getBisectionGrammar (py "a") = Ret ∅
  /\ getExhaustiveGrammar (py "a") = Ret ∅
  /\ getLehman1Grammar Nat.log2_up (py "a") = Ret ∅
  /\ getSakamotoGrammar listed_order (py "a") = Ret ∅.
Proof.
  apply (single_character_empty_grammar listed_order Nat.log2_up).
  reflexivity.
Defined.

(** ** The exhaustive search (exhaustive.py) *)

(** X13: for a non-empty [goal] the generator yields at least one
    grammar; every grammar it yields is binary, closed, spells its keys
    out of shorter non-empty symbols and binds [goal]; and every such
    grammar contains one of the yielded grammars. *)
Theorem generateAllGrammars_sound_complete (fuel : nat) (goal : str) :
  1 <= length goal <= fuel ->
  exists gs,
    generateAllGrammars fuel goal = Ret gs
    /\ gs <> []
    /\ (forall G, G ∈ gs ->
          well_formed G /\ binary G
          /\ (2 <= length goal -> is_Some (G !! goal)))
    /\ (forall P, well_formed P -> binary P ->
          (2 <= length goal -> is_Some (P !! goal)) ->
          exists G, G ∈ gs /\ G ⊆ P).
Proof. apply generateAllGrammars_spec. Qed.

Lemma generateAllGrammars_sound_complete_witness :
  exists gs,
    generateAllGrammars 4 (py "abc") = Ret gs
    /\ gs <> []
    /\ (forall G, G ∈ gs ->
          well_formed G /\ binary G
          /\ (2 <= length (py "abc") -> is_Some (G !! py "abc")))
    /\ (forall P, well_formed P -> binary P ->
          (2 <= length (py "abc") -> is_Some (P !! py "abc")) ->
          exists G, G ∈ gs /\ G ⊆ P).
Proof.
  apply (generateAllGrammars_sound_complete 4 (py "abc")). simpl. lia.
Defined.

Lemma fmap_ext_in {A B} (f g : A -> B) (l : list A) :
  (forall x, x ∈ l -> f x = g x) -> f <$> l = g <$> l.
Proof.
  induction l as [|x l IH]; intros H; [done|].
  rewrite !fmap_cons. f_equal; [apply H; left|].
  apply IH. intros y Hy. apply H. by right.
Qed.

Lemma tree_count_fuel_stable (f : nat) :
  forall f' n, 1 <= n -> n <= f -> n <= f' ->
    tree_count_fuel f n = tree_count_fuel f' n.
Proof.
  induction f as [|f IH]; intros f' n Hn Hf Hf'; [lia|].
  destruct f' as [|f']; [lia|]. cbn [tree_count_fuel].
  destruct (decide (n = 1)); [done|]. f_equal.
  apply fmap_ext_in. intros i Hi%elem_of_seq.
  rewrite (IH f' i), (IH f' (n - i)) by lia. done.
Qed.

Lemma tree_count_1 : tree_count 1 = 1.
Proof. done. Qed.

(** The recurrence of the Catalan numbers. *)
Lemma tree_count_recurrence (n : nat) :
  2 <= n ->
  tree_count n
  = sum_list ((fun i => tree_count i * tree_count (n - i)) <$> seq 1 (n - 1)).
Proof.
  intros Hn. unfold tree_count at 1. destruct n as [|n]; [lia|].
  cbn [tree_count_fuel]. destruct (decide (S n = 1)); [lia|]. f_equal.
  apply fmap_ext_in. intros i Hi%elem_of_seq. unfold tree_count.
  rewrite (tree_count_fuel_stable n i i), (tree_count_fuel_stable n (S n - i) (S n - i)) by lia.
  done.
Qed.

Lemma tree_count_lower_bound (n : nat) :
  2 <= n -> 2 ^ (n - 2) <= tree_count n.
Proof.
  intros Hn. induction n as [|n IH]; [lia|].
  destruct (decide (n = 1)) as [->|Hn1]; [by vm_compute|].
  assert (2 ^ (n - 2) <= tree_count n) as IHn by (apply IH; lia).
  rewrite tree_count_recurrence by lia.
  replace (S n - 1) with (S (n - 1)) by lia.
  rewrite seq_S, fmap_app, sum_list_with_app.
  cbn [fmap list_fmap sum_list_with].
  replace (S n - (1 + (n - 1))) with 1 by lia.
  replace (1 + (n - 1)) with n by lia.
  rewrite tree_count_1.
  assert (tree_count 1 * tree_count (S n - 1)
          <= sum_list ((fun i => tree_count i * tree_count (S n - i))
                         <$> seq 1 (n - 1))) as Hfirst.
  { apply (sum_list_with_in _ id). apply list_elem_of_fmap.
    exists 1. split; [done|]. apply elem_of_seq. lia. }
  rewrite tree_count_1 in Hfirst.
  replace (S n - 1) with n in Hfirst by lia.
  replace (S n - 2) with (S (n - 2)) by lia. rewrite Nat.pow_succ_r'.
  unfold id in *. lia.
Qed.

Lemma length_bind_singleton {B C} (f : B -> C) (l : list B) :
  length (b ← l; [f b]) = length l.
Proof.
  induction l as [|b l IH]; [done|].
  change (mbind ?g (b :: l)) with (g b ++ (l ≫= g)).
  rewrite length_app, IH. done.
Qed.

Lemma length_bind_pairs {A B C} (f : A -> B -> C) (l1 : list A)
    (l2 : list B) :
  length (a ← l1; b ← l2; [f a b]) = length l1 * length l2.
Proof.
  induction l1 as [|a l1 IH]; [done|].
  change (mbind ?g (a :: l1)) with (g a ++ (l1 ≫= g)).
  rewrite length_app, IH, (length_bind_singleton (f a)). cbn [length]. lia.
Qed.

Lemma generateAllGrammars_length (fuel : nat) :
  forall goal, 1 <= length goal <= fuel ->
    exists gs, generateAllGrammars fuel goal = Ret gs
      /\ length gs = tree_count_fuel fuel (length goal).
Proof.
  induction fuel as [|f IH]; intros goal Hlen; [lia|].
  cbn [generateAllGrammars tree_count_fuel].
  destruct (decide (length goal = 1)); [by exists [∅]|]. cbv zeta.
  cut (forall l acc, (forall i, i ∈ l -> 1 <= i < length goal) ->
         exists gs,
           forM l
             (fun i acc =>
                gs ← generateAllGrammars f (take i goal);
                hs ← generateAllGrammars f (drop i goal);
                Ret (acc ++
                     (g ← gs; h ← hs;
                      [g ∪ (h ∪ {[goal := [take i goal; drop i goal]]})])))
             acc = Ret gs
           /\ length gs
              = length acc
                + sum_list ((fun i => tree_count_fuel f i
                                      * tree_count_fuel f (length goal - i))
                              <$> l)).
  { intros H. destruct (H (seq 1 (length goal - 1)) []) as (gs & Hgs & Hl).
    - intros i Hi%elem_of_seq. lia.
    - exists gs. split; [done|]. by rewrite Hl. }
  induction l as [|i l IHl]; intros acc Hl.
  - exists acc. split; [done|]. simpl. lia.
  - assert (1 <= i < length goal) as Hi by (apply Hl; left).
    cbn [forM].
    destruct (IH (take i goal)) as (gs & -> & Hgs).
    { rewrite length_take. lia. }
    destruct (IH (drop i goal)) as (hs & -> & Hhs).
    { rewrite length_drop. lia. }
    cbn [mbind res_bind].
    destruct (IHl (acc ++ (g ← gs; h ← hs;
                 [g ∪ (h ∪ {[goal := [take i goal; drop i goal]]})])))
      as (out & -> & Hout).
    { intros j Hj. apply Hl. by right. }
    exists out. split; [done|]. rewrite Hout, length_app.
    rewrite (length_bind_pairs
               (fun g h => g ∪ (h ∪ {[goal := [take i goal; drop i goal]]}))).
    rewrite Hgs, Hhs, length_take, length_drop.
    replace (i `min` length goal) with i by lia.
    rewrite fmap_cons. cbn [sum_list sum_list_with]. unfold id. lia.
Qed.

(** X14: for a [goal] of [n >= 1] characters the generator yields
    exactly [tree_count n] grammars (one for each way to bracket [goal],
    equal grammars counted as often as they arise), hence at least
    [2 ^ (n - 2)] when [n >= 2]. *)
Theorem generateAllGrammars_count (fuel : nat) (goal : str) :
  1 <= length goal <= fuel ->
  exists gs,
    generateAllGrammars fuel goal = Ret gs
    /\ length gs = tree_count (length goal)
    /\ (2 <= length goal -> 2 ^ (length goal - 2) <= length gs).
Proof.
  intros Hlen.
  destruct (generateAllGrammars_length fuel goal Hlen) as (gs & Hgs & Hl).
  exists gs. split; [done|].
  rewrite (tree_count_fuel_stable fuel (length goal) (length goal)) in Hl
    by lia.
  split; [done|]. intros H2. rewrite Hl. by apply tree_count_lower_bound.
Qed.

Lemma generateAllGrammars_count_witness :
  exists gs,
    generateAllGrammars 6 (py "abcde") = Ret gs
    /\ length gs = tree_count (length (py "abcde"))
    /\ (2 <= length (py "abcde") -> 2 ^ (length (py "abcde") - 2) <= length gs).
Proof.
  apply (generateAllGrammars_count 6 (py "abcde")). simpl. lia.
Defined.

(** X15: among the grammars the generator yields, [getExhaustiveGrammar]
    returns one whose key [(len(G), stageCount(G, S))] is least in the
    order of pairs: no yielded grammar has fewer productions, and among
    those with as few none has a smaller stage count. *)
Theorem getExhaustiveGrammar_least_key (S : str) :
  1 <= length S ->
  exists G gs c,
    getExhaustiveGrammar S = Ret G
    /\ generateAllGrammars (Datatypes.S (length S)) S = Ret gs
    /\ G ∈ gs
    /\ stageCount (Datatypes.S (length S)) G S = Ret c
    /\ forall G', G' ∈ gs ->
         exists c', stageCount (Datatypes.S (length S)) G' S = Ret c'
           /\ (size G < size G' \/ (size G = size G' /\ c <= c')).
Proof.
  intros Hlen. unfold getExhaustiveGrammar.
  destruct (generateAllGrammars_spec (Datatypes.S (length S)) S)
    as (gs & Hgs & Hne & Hok & _); [lia|].
  rewrite Hgs. cbn [mbind res_bind].
  destruct (mapR_Forall2
    (fun G => c ← stageCount (Datatypes.S (length S)) G S;
              Ret (G, (size G, c))) gs) as (keyed & Hkeyed & Hall).
  { intros G (Hw & Hb & _)%Hok.
    destruct (stageCount_returns G Hw Hb (Datatypes.S (length S)) S)
      as (c & ->); [lia|]. simpl. eauto. }
  rewrite Hkeyed. cbn [mbind res_bind].
  assert (forall e, e ∈ keyed ->
            e.1 ∈ gs /\ e.2.1 = size e.1
            /\ stageCount (Datatypes.S (length S)) e.1 S = Ret e.2.2) as Hk1.
  { intros e He. apply list_elem_of_lookup in He as (i & Hi).
    destruct (Forall2_lookup_r _ _ _ _ _ Hall Hi) as (G & HG & HGe).
    apply bind_Ret in HGe as (c & Hc & [= <-]). simpl.
    split; [by eapply list_elem_of_lookup_2|done]. }
  assert (forall G, G ∈ gs -> exists e, e ∈ keyed /\ e.1 = G) as Hk2.
  { intros G HG. apply list_elem_of_lookup in HG as (i & Hi).
    destruct (Forall2_lookup_l _ _ _ _ _ Hall Hi) as (e & He & HGe).
    apply bind_Ret in HGe as (c & _ & [= <-]).
    eexists. split; [by eapply list_elem_of_lookup_2|done]. }
  destruct keyed as [|x l].
  { apply Forall2_nil_inv_r in Hall. done. }
  destruct (min_by_key_spec x l) as (e & He & -> & Hleast).
  destruct (Hk1 e He) as (Hin & Hsize & Hstage).
  exists e.1, gs, e.2.2. split; [done|]. split; [done|].
  split; [done|]. split; [done|].
  intros G' (e' & He' & <-)%Hk2.
  destruct (Hk1 e' He') as (_ & Hsize' & Hstage').
  exists e'.2.2. split; [done|].
  specialize (Hleast e' He'). apply not_true_iff_false in Hleast.
  rewrite pair_ltb_spec in Hleast. lia.
Qed.

Lemma getExhaustiveGrammar_least_key_witness :
  exists G gs c,
    getExhaustiveGrammar (py "abab") = Ret G
    /\ generateAllGrammars 5 (py "abab") = Ret gs
    /\ G ∈ gs
    /\ stageCount 5 G (py "abab") = Ret c
    /\ forall G', G' ∈ gs ->
         exists c', stageCount 5 G' (py "abab") = Ret c'
           /\ (size G < size G' \/ (size G = size G' /\ c <= c')).
Proof.
  apply (getExhaustiveGrammar_least_key (py "abab")). simpl. lia.
Defined.

(** ** BISECTION (bisection.py) and [grammarSize] (performance.py) *)

Lemma _recurse_size (fuel : nat) :
  forall (S : str) (g g' : grammar),
    _recurse fuel S g = Ret g' ->
    size g' <= size g + (length S - 1).
Proof.
  induction fuel as [|f IH]; intros S g g'; [discriminate|].
  cbn [_recurse]. destruct (decide (length S <= 1)) as [H1|H1].
  { intros [= <-]. lia. }
  intros (g1 & Hl & Hr)%bind_Ret.
  apply IH in Hl, Hr. rewrite length_take in Hl. rewrite length_drop in Hr.
  pose proof (half_lt (length S)) as Hhalf.
  assert (size (<[S := bisect S]> g) <= Datatypes.S (size g)) as Hins.
  { rewrite map_size_insert. destruct (g !! S); simpl; lia. }
  lia.
Qed.


(** X17: the grammars of Bisection, the exhaustive search and Sakamoto's
    algorithm are binary -- every right-hand side has exactly two
    symbols -- so [grammarSize] is twice the number of productions; and
    the size of the exhaustive grammar is at most [2 * (len(S) - 1)]. *)
Theorem binary_grammars
    (pyiter : forall A : Type, list A -> list A)
    (pyiter_perm : forall (A : Type) (l : list A), pyiter A l ≡ₚ l)
    (S : str) :
  1 <= length S ->
  (exists G, getBisectionGrammar S = Ret G
     /\ binary G /\ grammarSize G = 2 * size G)
  /\ (exists G, getExhaustiveGrammar S = Ret G
        /\ binary G /\ grammarSize G = 2 * size G
        /\ grammarSize G <= 2 * (length S - 1))
  /\ (exists G, getSakamotoGrammar pyiter S = Ret G
        /\ binary G /\ grammarSize G = 2 * size G).
Proof.
  intros Hlen. split; [|split].
  - destruct (getBisectionGrammar_well_formed S) as (G & HG & _ & Hb & _).
    exists G. split; [done|]. split; [done|]. by apply grammarSize_binary.
  - destruct (getExhaustiveGrammar_well_formed S Hlen)
      as (G & HG & _ & Hb & _).
    exists G. split; [done|]. split; [done|].
    split; [by apply grammarSize_binary|].
    destruct (getBisectionGrammar_well_formed S)
      as (GB & HGB & HwB & HbB & HkB).
    pose proof (_recurse_size _ _ _ _ HGB) as Hsize.
    rewrite map_size_empty in Hsize.
    pose proof (grammarSize_binary GB HbB) as HsizeB.
    destruct (getExhaustiveGrammar_least S GB Hlen HwB HbB HkB)
      as (G' & HG' & Hle).
    rewrite HG in HG'. injection HG' as <-. lia.
  - destruct (getSakamotoGrammar_spec pyiter pyiter_perm S)
      as (G & HG & _ & Hb & _).
    exists G. split; [done|]. split; [done|]. by apply grammarSize_binary.
Qed.

Lemma binary_grammars_witness :
  (exists G, getBisectionGrammar (py "abcab") = Ret G
     /\ binary G /\ grammarSize G = 2 * size G)
  /\ (exists G, getExhaustiveGrammar (py "abcab") = Ret G
        /\ binary G /\ grammarSize G = 2 * size G
        /\ grammarSize G <= 2 * (length (py "abcab") - 1))
  /\ (exists G, getSakamotoGrammar listed_order (py "abcab") = Ret G
        /\ binary G /\ grammarSize G = 2 * size G).
Proof.
  apply (binary_grammars listed_order listed_order_perm (py "abcab")).
  simpl. lia.
Defined.

Lemma half_pow2 (k : nat) : 2 ^ S k / 2 = 2 ^ k.
Proof. rewrite Nat.pow_succ_r', Nat.mul_comm. apply Nat.div_mul. lia. Qed.

Lemma bisect_replicate (c : ascii) (k : nat) :
  bisect (replicate (2 ^ S k) c) = [replicate (2 ^ k) c; replicate (2 ^ k) c].
Proof.
  unfold bisect. rewrite length_replicate, half_pow2.
  rewrite take_replicate, drop_replicate. rewrite Nat.pow_succ_r'.
  do 2 f_equal; f_equal; lia.
Qed.

Lemma visited_replicate (c : ascii) (k : nat) (T : str) :
  visited (replicate (2 ^ k) c) T <->
  exists j, j <= k /\ T = replicate (2 ^ j) c.
Proof.
  split.
  - revert T. induction k as [|k IH]; intros T HV.
    + apply visited_short in HV; [|done]. by exists 0.
    + pose proof (bisect_replicate c k) as Hb. unfold bisect in Hb.
      injection Hb as Hl Hr.
      inversion HV as [|? ? _ HV'|? ? _ HV']; subst.
      * by exists (S k).
      * rewrite Hl in HV'. destruct (IH _ HV') as (j & Hj & ->).
        exists j. split; [lia|done].
      * rewrite Hr in HV'. destruct (IH _ HV') as (j & Hj & ->).
        exists j. split; [lia|done].
  - intros (j & Hj & ->). induction k as [|k IH].
    + replace j with 0 by lia. constructor.
    + destruct (decide (j = S k)) as [->|Hne]; [constructor|].
      pose proof (bisect_replicate c k) as Hb. unfold bisect in Hb.
      injection Hb as Hl Hr.
      apply visited_left.
      * rewrite length_replicate, Nat.pow_succ_r'.
        pose proof (Nat.pow_nonzero 2 k). lia.
      * rewrite Hl. apply IH. lia.
Qed.

Lemma replicate_pow2_inj (c : ascii) (i j : nat) :
  replicate (2 ^ i) c = replicate (2 ^ j) c -> i = j.
Proof.
  intros H%(f_equal length). rewrite !length_replicate in H.
  apply (Nat.pow_inj_r 2); [lia|done].
Qed.

(** X18: on a character repeated [2 ^ k] times (the input of
    [algorithmSmallStringPerformance] is ['a'] repeated [2 ^ 10] times)
    [getBisectionGrammar] returns exactly [k] productions, one for each
    of the lengths [2, 4, ..., 2 ^ k], so [grammarSize] is [2 * k]. *)
Theorem getBisectionGrammar_power_of_two (c : ascii) (k : nat) :
  exists G,
    getBisectionGrammar (replicate (2 ^ k) c) = Ret G
    /\ size G = k
    /\ grammarSize G = 2 * k
    /\ forall T rhs, G !! T = Some rhs <->
         exists j, j < k /\ T = replicate (2 ^ S j) c
                   /\ rhs = [replicate (2 ^ j) c; replicate (2 ^ j) c].
Proof.
  destruct (getBisectionGrammar_spec (replicate (2 ^ k) c))
    as (G & HG & Hkeys).
  destruct (getBisectionGrammar_well_formed (replicate (2 ^ k) c))
    as (G' & HG' & _ & Hb & _).
  rewrite HG in HG'. injection HG' as <-.
  assert (forall T rhs, G !! T = Some rhs <->
            exists j, j < k /\ T = replicate (2 ^ S j) c
                      /\ rhs = [replicate (2 ^ j) c; replicate (2 ^ j) c])
    as Hchar.
  { intros T rhs. rewrite Hkeys, visited_replicate. split.
    - intros ((j & Hj & ->) & Hlen & ->). rewrite length_replicate in Hlen.
      destruct j as [|j]; [rewrite Nat.pow_0_r in Hlen; lia|].
      exists j. split; [lia|]. split; [done|]. apply bisect_replicate.
    - intros (j & Hj & -> & ->). split; [exists (S j); split; [lia|done]|].
      split; [|by rewrite bisect_replicate].
      rewrite length_replicate, Nat.pow_succ_r'.
      pose proof (Nat.pow_nonzero 2 j). lia. }
  assert (size G = k) as Hsize.
  { rewrite <- (size_dom (D := gset str)).
    assert (dom G
            = list_to_set ((fun j => replicate (2 ^ S j) c) <$> seq 0 k))
      as ->.
    { apply set_eq. intros T.
      rewrite elem_of_dom, elem_of_list_to_set, list_elem_of_fmap. split.
      - intros [rhs (j & Hj & -> & _)%Hchar].
        exists j. split; [done|]. apply elem_of_seq. lia.
      - intros (j & -> & Hj%elem_of_seq). eexists. apply Hchar.
        exists j. split; [lia|done]. }
    rewrite size_list_to_set, length_fmap, length_seq; [done|].
    apply NoDup_fmap_2; [|apply NoDup_seq].
    intros i j H%replicate_pow2_inj. lia. }
  exists G. split; [done|]. split; [done|]. split; [|done].
  rewrite (grammarSize_binary G Hb). lia.
Qed.

(** ** Sakamoto's algorithm (sakamoto.py) *)

Lemma join_take_lt (w : list str) (i j : nat) :
  Forall (fun a => 1 <= length a) w -> i < j <= length w ->
  length (join (take i w)) < length (join (take j w)).
Proof.
  intros Hw Hij.
  replace (take j w) with (take i w ++ take (j - i) (drop i w)).
  2:{ rewrite take_take_drop. f_equal. lia. }
  rewrite join_app, length_app.
  assert (1 <= length (join (take (j - i) (drop i w)))); [|lia].
  apply join_nonempty.
  - by apply Forall_take, Forall_drop.
  - rewrite length_take, length_drop. lia.
Qed.

Lemma produceTrivialGrammar_steps (w : list str) (n : nat) :
  Forall (fun a => 1 <= length a) w -> n <= length w - 1 ->
  let P : grammar :=
    foldl (fun P i =>
             <[join (take i w) := [join (take (i - 1) w); w !!! (i - 1)]]> P)
          ∅ (seq 2 n) in
  size P = n
  /\ forall k rhs, P !! k = Some rhs <->
       exists i, 2 <= i < 2 + n /\ k = join (take i w)
                 /\ rhs = [join (take (i - 1) w); w !!! (i - 1)].
Proof.
  intros Hw. induction n as [|n IH]; intros Hn P.
  - split; [apply map_size_empty|]. intros k rhs. subst P. simpl.
    rewrite lookup_empty. split; [done|]. intros (i & Hi & _). lia.
  - subst P. rewrite seq_S, foldl_snoc.
    destruct IH as [Hsize Hchar]; [lia|].
    set (P := foldl _ ∅ (seq 2 n)) in *.
    assert (P !! join (take (2 + n) w) = None) as Hfresh.
    { destruct (P !! join (take (2 + n) w)) as [rhs|] eqn:E; [|done].
      apply Hchar in E as (i & Hi & Heq & _).
      pose proof (join_take_lt w i (2 + n) Hw ltac:(lia)) as Hlt.
      rewrite Heq in Hlt. lia. }
    split; [rewrite map_size_insert_None by done; lia|].
    intros k rhs. rewrite lookup_insert_Some, Hchar. split.
    + intros [[<- <-]|[Hne (i & Hi & -> & ->)]].
      * exists (2 + n). split; [lia|done].
      * exists i. split; [lia|done].
    + intros (i & Hi & -> & ->).
      destruct (decide (i = 2 + n)) as [->|Hne]; [by left|right].
      split.
      * intros Heq. pose proof (join_take_lt w i (2 + n) Hw ltac:(lia)) as Hlt.
        rewrite Heq in Hlt. lia.
      * exists i. split; [lia|done].
Qed.

(** X19: for a sequence [w] of non-empty symbols [produceTrivialGrammar]
    returns exactly [len(w) - 1] productions, one for each prefix of two
    or more symbols: the prefix of [i] symbols is produced by the prefix
    of [i - 1] symbols followed by the symbol [w[i-1]].  Fewer than two
    symbols give the empty grammar. *)
Theorem produceTrivialGrammar_prefix_chain (w : list str) :
  Forall (fun a => 1 <= length a) w ->
  size (produceTrivialGrammar w) = length w - 1
  /\ forall k rhs, produceTrivialGrammar w !! k = Some rhs <->
       exists i c, 2 <= i <= length w /\ w !! (i - 1) = Some c
                   /\ k = join (take i w)
                   /\ rhs = [join (take (i - 1) w); c].
Proof.
  intros Hw. unfold produceTrivialGrammar.
  destruct (produceTrivialGrammar_steps w (length w + 1 - 2) Hw)
    as [Hsize Hchar]; [lia|].
  split; [rewrite Hsize; lia|].
  intros k rhs. rewrite Hchar. split.
  - intros (i & Hi & -> & ->).
    assert (is_Some (w !! (i - 1))) as [c Hc]
      by (apply lookup_lt_is_Some; lia).
    exists i, c. split; [lia|]. split; [done|]. split; [done|].
    by rewrite (list_lookup_total_correct _ _ _ Hc).
  - intros (i & c & Hi & Hc & -> & ->). exists i. split; [lia|].
    split; [done|]. by rewrite (list_lookup_total_correct _ _ _ Hc).
Qed.

Lemma produceTrivialGrammar_prefix_chain_witness :
  size (produceTrivialGrammar [py "ab"; py "c"; py "ab"]) 
  = length [py "ab"; py "c"; py "ab"] - 1
  /\ forall k rhs,
       produceTrivialGrammar [py "ab"; py "c"; py "ab"] !! k = Some rhs <->
       exists i c, 2 <= i <= length [py "ab"; py "c"; py "ab"]
                   /\ [py "ab"; py "c"; py "ab"] !! (i - 1) = Some c
                   /\ k = join (take i [py "ab"; py "c"; py "ab"])
                   /\ rhs = [join (take (i - 1) [py "ab"; py "c"; py "ab"]); c].
Proof.
  apply (produceTrivialGrammar_prefix_chain [py "ab"; py "c"; py "ab"]).
  repeat constructor; simpl; lia.
Defined.

Lemma hasRepeatingPairs_loop_true (pairs : list (str * str)) :
  forall sequences : gset (str * str),
    hasRepeatingPairs_loop pairs sequences = true <->
    (exists j p, pairs !! j = Some p /\ p ∈ sequences)
    \/ (exists i j p, i < j /\ pairs !! i = Some p /\ pairs !! j = Some p).
Proof.
  induction pairs as [|p pairs IH]; intros sequences; cbn [hasRepeatingPairs_loop].
  - split; [done|]. intros [(j & q & Hj & _)|(i & j & q & _ & Hi & _)]; done.
  - destruct (decide (p ∈ sequences)) as [Hin|Hnin].
    + split; [|done]. intros _. left. by exists 0, p.
    + rewrite IH. split.
      * intros [(j & q & Hj & [->%elem_of_singleton|Hq]%elem_of_union)
               |(i & j & q & Hij & Hi & Hj)].
        -- right. exists 0, (S j), p. split; [lia|done].
        -- left. by exists (S j), q.
        -- right. exists (S i), (S j), q. split; [lia|done].
      * intros [(j & q & Hj & Hq)|(i & j & q & Hij & Hi & Hj)].
        -- destruct j as [|j]; [simpl in Hj; by injection Hj as ->|].
           left. exists j, q. split; [done|]. apply elem_of_union. by right.
        -- destruct j as [|j]; [lia|]. destruct i as [|i].
           ++ simpl in Hi. injection Hi as ->. left. exists j, q.
              split; [done|]. apply elem_of_union. left.
              by apply elem_of_singleton.
           ++ right. exists i, j, q. split; [lia|done].
Qed.

Lemma lookup_adjacent_pairs (w : list str) (i : nat) (a b : str) :
  adjacent_pairs w !! i = Some (a, b) <->
  w !! i = Some a /\ w !! (i + 1) = Some b.
Proof.
  unfold adjacent_pairs. rewrite list_lookup_fmap, fmap_Some. split.
  - intros (k & [-> Hk]%lookup_seq & Heq). simpl in *.
    assert (is_Some (w !! i)) as [x Hx] by (apply lookup_lt_is_Some; lia).
    assert (is_Some (w !! (i + 1))) as [y Hy]
      by (apply lookup_lt_is_Some; lia).
    rewrite (list_lookup_total_correct _ _ _ Hx),
      (list_lookup_total_correct _ _ _ Hy) in Heq.
    by injection Heq as -> ->.
  - intros [Ha Hb]. exists i. pose proof (lookup_lt_Some _ _ _ Hb).
    split; [apply lookup_seq; split; [done|lia]|].
    by rewrite (list_lookup_total_correct _ _ _ Ha),
      (list_lookup_total_correct _ _ _ Hb).
Qed.

(** X20: [hasRepeatingPairs(w)] is true exactly when some pair of
    neighbouring symbols occurs at two different positions of [w]
    (overlapping occurrences count). *)
Theorem hasRepeatingPairs_iff (w : list str) :
  hasRepeatingPairs w = true <->
  exists i j a b,
    i < j
    /\ w !! i = Some a /\ w !! (i + 1) = Some b
    /\ w !! j = Some a /\ w !! (j + 1) = Some b.
Proof.
  unfold hasRepeatingPairs. rewrite hasRepeatingPairs_loop_true. split.
  - intros [(j & p & _ & Hp%elem_of_empty)|(i & j & [a b] & Hij & Hi & Hj)];
      [done|].
    apply lookup_adjacent_pairs in Hi as [? ?], Hj as [? ?].
    by exists i, j, a, b.
  - intros (i & j & a & b & Hij & Ha & Hb & Ha' & Hb'). right.
    exists i, j, (a, b). split; [done|].
    split; by apply lookup_adjacent_pairs.
Qed.

(** X21: [hasRepeatingSymbol(w)] returns the first maximal run of two or
    more equal symbols, as the pair of its first and last position; it
    returns [None] exactly when no two neighbouring symbols are equal. *)
Theorem hasRepeatingSymbol_first_run (w : list str) :
  match hasRepeatingSymbol w with
  | Some (i, j) =>
      i < j < length w
      /\ (exists a, forall k, i <= k <= j -> w !! k = Some a)
      /\ w !! (j + 1) <> w !! i
      /\ (forall k, k < i -> w !! k <> w !! (k + 1))
  | None =>
      forall k a b, w !! k = Some a -> w !! (k + 1) = Some b -> a <> b
  end.
Proof.
  destruct (hasRepeatingSymbol w) as [[i j]|] eqn:E.
  2:{ intros k a b Ha Hb. replace (k + 1) with (S k) in Hb by lia.
      exact (hasRepeatingSymbol_None w E k a b Ha Hb). }
  unfold hasRepeatingSymbol in E.
  destruct (decide (length w < 2)); [done|].
  apply fmap_Some in E as ([k r] & Hf & Hr). simpl in Hr. subst r.
  apply list_find_Some in Hf as (Hk & Hne & Hfirst).
  rewrite list_lookup_fmap in Hk.
  apply fmap_Some in Hk as (k' & Hk' & Hr).
  apply lookup_seq in Hk' as [-> Hk']. simpl in Hr.
  assert (is_Some (w !! k)) as [a Ha] by (apply lookup_lt_is_Some; lia).
  destruct (findMaxRepeating_spec w k a Ha) as (m & Hm & Hlt & Htake & Hstop).
  rewrite Hm in Hr. injection Hr as -> ->. simpl in Hne.
  split; [lia|]. split; [|split].
  - exists a. intros q Hq.
    assert (take (S m) (drop k w) !! (q - k) = Some a) as Hq'.
    { rewrite Htake. apply lookup_replicate. split; [done|lia]. }
    rewrite lookup_take_lt, lookup_drop in Hq' by lia.
    by replace (k + (q - k)) with q in Hq' by lia.
  - rewrite Ha. by replace (k + m + 1) with (k + S m) by lia.
  - intros q Hq Heq.
    assert (is_Some (w !! q)) as [b Hb] by (apply lookup_lt_is_Some; lia).
    destruct (findMaxRepeating_spec w q b Hb) as (m' & Hm' & _ & _ & Hstop').
    assert ((findMaxRepeating w <$> seq 0 (length w - 1)) !! q
            = Some (q, q + m')) as Hlook.
    { rewrite list_lookup_fmap, lookup_seq_lt by lia. simpl. by rewrite Hm'. }
    specialize (Hfirst q _ Hlook Hq). simpl in Hfirst.
    assert (m' = 0) as -> by (destruct (decide (m' = 0)); [done|]; destruct Hfirst; lia).
    rewrite Hb in Heq. replace (q + 1) with (q + 1) in Hstop' by lia.
    by rewrite <- Heq in Hstop'.
Qed.

Lemma no_adjacent_equal_None (w : list str) :
  no_adjacent_equal w -> hasRepeatingSymbol w = None.
Proof.
  intros Hne. destruct (hasRepeatingSymbol w) as [[i j]|] eqn:E; [|done].
  apply hasRepeatingSymbol_Some in E as (Hij & a & Ha & Htake).
  exfalso. apply (Hne i a a Ha); [|done].
  assert (take (j + 1 - i) (drop i w) !! 1 = Some a) as H1.
  { rewrite Htake. apply lookup_replicate. split; [done|lia]. }
  rewrite lookup_take_lt, lookup_drop in H1 by lia.
  by replace (i + 1) with (S i) in H1 by lia.
Qed.

(** X22: on a sequence of non-empty symbols [repetition] returns; the
    rewritten sequence spells the same string, is no longer, and has no
    two equal neighbours; the productions returned form a binary grammar
    of their own that binds every symbol the pass introduced.  A
    sequence without equal neighbours is left as it is, with no
    production. *)
Theorem repetition_replaces_runs (w : list str) :
  Forall (fun a => 1 <= length a) w ->
  exists w' P',
    repetition w = Ret (w', P')
    /\ join w' = join w
    /\ length w' <= length w
    /\ Forall (fun a => 1 <= length a) w'
    /\ (forall k a b, w' !! k = Some a -> w' !! (k + 1) = Some b -> a <> b)
    /\ well_formed P' /\ binary P'
    /\ (forall a, a ∈ w' -> a ∈ w \/ is_Some (P' !! a))
    /\ ((forall k a b, w !! k = Some a -> w !! (k + 1) = Some b -> a <> b) ->
        w' = w /\ P' = ∅).
Proof.
  intros Hw.
  destruct (repetition_spec w Hw)
    as (w' & P' & Hret & Hwf & Hb & Hjoin & Hlen & Hne & Hsym & Hnae).
  exists w', P'. split; [done|]. split; [done|]. split; [done|].
  split; [done|]. split.
  { intros k a b Ha Hb'. replace (k + 1) with (S k) in Hb' by lia.
    exact (Hnae k a b Ha Hb'). }
  split; [done|]. split; [done|]. split; [done|].
  intros Hno. unfold repetition in Hret.
  rewrite repetition_loop_unfold, no_adjacent_equal_None in Hret.
  - by injection Hret as <- <-.
  - intros k a b Ha Hb'. apply (Hno k a b Ha).
    by replace (k + 1) with (S k) by lia.
Qed.

Lemma repetition_replaces_runs_witness :
  exists w' P',
    repetition (chars (py "abaaab")) = Ret (w', P')
    /\ join w' = join (chars (py "abaaab"))
    /\ length w' <= length (chars (py "abaaab"))
    /\ Forall (fun a => 1 <= length a) w'
    /\ (forall k a b, w' !! k = Some a -> w' !! (k + 1) = Some b -> a <> b)
    /\ well_formed P' /\ binary P'
    /\ (forall a, a ∈ w' -> a ∈ chars (py "abaaab") \/ is_Some (P' !! a))
    /\ ((forall k a b, chars (py "abaaab") !! k = Some a ->
           chars (py "abaaab") !! (k + 1) = Some b -> a <> b) ->
        w' = chars (py "abaaab") /\ P' = ∅).
Proof.
  apply (repetition_replaces_runs (chars (py "abaaab"))).
  repeat constructor.
Defined.

(** X23: for a string [S] of at least two characters
    [produceRepeatingSymbolGrammar(P, S)] returns, keeps every key of [P],
    binds [S], and turns a binary grammar [P] of the common shape into
    one again. *)
Theorem produceRepeatingSymbolGrammar_binds (fuel : nat) (P : grammar)
    (S : str) :
  2 <= length S <= fuel -> well_formed P -> binary P ->
  exists P',
    produceRepeatingSymbolGrammar fuel P S = Ret P'
    /\ well_formed P' /\ binary P'
    /\ is_Some (P' !! S)
    /\ forall k, is_Some (P !! k) -> is_Some (P' !! k).
Proof.
  intros Hlen Hwf Hb.
  destruct (produceRepeatingSymbolGrammar_spec fuel P S (fun _ => False) Hlen)
    as (P' & Hret & Hpre & HS & Hkeys).
  { eapply pre_grammar_weaken;
      [by apply pre_grammar_well_formed|]. intros v []. }
  exists P'. split; [done|].
  apply pre_grammar_well_formed in Hpre as [? ?]. done.
Qed.

Lemma produceRepeatingSymbolGrammar_binds_witness :
  exists P',
    produceRepeatingSymbolGrammar 5 ∅ (py "aaaaa") = Ret P'
    /\ well_formed P' /\ binary P'
    /\ is_Some (P' !! py "aaaaa")
    /\ forall k, is_Some ((∅ : grammar) !! k) -> is_Some (P' !! k).
Proof.
  apply (produceRepeatingSymbolGrammar_binds 5 ∅ (py "aaaaa")).
  - simpl. lia.
  - split; [apply map_Forall_empty|].
    intros k rhs v Hk. by rewrite lookup_empty in Hk.
  - apply map_Forall_empty.
Defined.

(** *** The order of [createSortedSegmentList] *)

Lemma str_compare_eq (a b : str) : str_compare a b = Eq <-> a = b.
Proof.
  revert b. induction a as [|x a IH]; intros [|y b]; simpl; try done.
  destruct (Nat.compare_spec (nat_of_ascii x) (nat_of_ascii y)) as [H|H|H].
  - rewrite IH. apply (f_equal ascii_of_nat) in H.
    rewrite !ascii_nat_embedding in H. subst. split; [by intros ->|].
    by intros [= ->].
  - split; [done|]. intros [= -> _]. lia.
  - split; [done|]. intros [= -> _]. lia.
Qed.

Lemma str_compare_antisym (a b : str) :
  str_compare b a = CompOpp (str_compare a b).
Proof.
  revert b. induction a as [|x a IH]; intros [|y b]; simpl; try done.
  rewrite (Nat.compare_antisym (nat_of_ascii x) (nat_of_ascii y)).
  destruct (nat_of_ascii x ?= nat_of_ascii y); simpl; [apply IH|done|done].
Qed.

Lemma str_compare_trans (a b c : str) :
  str_compare a b = Lt -> str_compare b c = Lt -> str_compare a c = Lt.
Proof.
  revert b c. induction a as [|x a IH]; intros [|y b] [|z c]; simpl;
    try done.
  destruct (Nat.compare_spec (nat_of_ascii x) (nat_of_ascii y)) as [H1|H1|H1];
    destruct (Nat.compare_spec (nat_of_ascii y) (nat_of_ascii z))
      as [H2|H2|H2];
    destruct (Nat.compare_spec (nat_of_ascii x) (nat_of_ascii z))
      as [H3|H3|H3]; try done; try lia.
  apply IH.
Qed.

Lemma segment_compare_eq (x y : nat * (str * str)) :
  segment_compare x y = Eq <-> x = y.
Proof.
  destruct x as [c [a b]], y as [c' [a' b']]. unfold segment_compare. simpl.
  destruct (Nat.compare_spec c c') as [->|H|H].
  - destruct (str_compare a a') eqn:Ha.
    + apply str_compare_eq in Ha as ->. rewrite str_compare_eq.
      split; [by intros ->|by intros [= ->]].
    + split; [done|]. intros [= ->]. 
      assert (str_compare a' a' = Eq) as E by by apply str_compare_eq.
      congruence.
    + split; [done|]. intros [= ->].
      assert (str_compare a' a' = Eq) as E by by apply str_compare_eq.
      congruence.
  - split; [done|]. intros [= -> _ _]. lia.
  - split; [done|]. intros [= -> _ _]. lia.
Qed.

Lemma segment_compare_antisym (x y : nat * (str * str)) :
  segment_compare y x = CompOpp (segment_compare x y).
Proof.
  destruct x as [c [a b]], y as [c' [a' b']]. unfold segment_compare. simpl.
  rewrite (Nat.compare_antisym c c'), (str_compare_antisym a a'),
    (str_compare_antisym b b').
  destruct (c ?= c'); simpl; [|done|done].
  destruct (str_compare a a'); simpl; done.
Qed.

Lemma segment_compare_trans (x y z : nat * (str * str)) :
  segment_compare x y = Lt -> segment_compare y z = Lt ->
  segment_compare x z = Lt.
Proof.
  destruct x as [c [a b]], y as [c' [a' b']], z as [c'' [a'' b'']].
  unfold segment_compare. simpl.
  destruct (Nat.compare_spec c c') as [->|H1|H1]; [| |done].
  - destruct (Nat.compare_spec c' c'') as [->|H2|H2]; [| |done].
    + destruct (str_compare a a') eqn:Ha; [| |done].
      * apply str_compare_eq in Ha as ->.
        destruct (str_compare a' a'') eqn:Ha'; [| |done].
        -- apply str_compare_trans.
        -- done.
      * destruct (str_compare a' a'') eqn:Ha'; [| |done].
        -- apply str_compare_eq in Ha' as <-. by rewrite Ha.
        -- by rewrite (str_compare_trans a a' a'' Ha Ha').
    + intros _ _. done.
  - destruct (Nat.compare_spec c' c'') as [->|H2|H2]; [| |done].
    + intros _ _. by apply Nat.compare_lt_iff in H1 as ->.
    + intros _ _.
      assert (c < c'') as H by lia. by apply Nat.compare_lt_iff in H as ->.
Qed.

#[global] Instance segment_le_total : Total segment_le.
Proof.
  intros x y. unfold segment_le. rewrite (segment_compare_antisym x y).
  destruct (segment_compare x y); simpl; [by left|by left|by right].
Qed.

#[global] Instance segment_le_trans : Transitive segment_le.
Proof.
  intros x y z. unfold segment_le.
  destruct (segment_compare x y) eqn:Hxy; [| |done].
  - apply segment_compare_eq in Hxy as ->. done.
  - destruct (segment_compare y z) eqn:Hyz; [| |done].
    + apply segment_compare_eq in Hyz as <-. by rewrite Hxy.
    + by rewrite (segment_compare_trans x y z Hxy Hyz).
Qed.

#[global] Instance segment_le_antisym : AntiSymm (=) segment_le.
Proof.
  intros x y. unfold segment_le. rewrite (segment_compare_antisym x y).
  destruct (segment_compare x y) eqn:Hxy; simpl; [|done|done].
  intros _ _. by apply segment_compare_eq.
Qed.

Lemma count_occ_of_cons `{EqDecision A} (x y : A) (l : list A) :
  count_occ_of x (y :: l)
  = (if decide (y = x) then 1 else 0) + count_occ_of x l.
Proof.
  unfold count_occ_of. rewrite filter_cons.
  destruct (decide (y = x)); done.
Qed.

Lemma segmentCounts_lookup (l : list (str * str))
    (m0 : gmap (str * str) nat) (seg : str * str) :
  foldl (fun (m : gmap (str * str) nat) segment =>
           match m !! segment with
           | Some c => <[segment := c + 1]> m
           | None => <[segment := 1]> m
           end) m0 l !! seg
  = match m0 !! seg with
    | Some c => Some (c + count_occ_of seg l)
    | None => if decide (count_occ_of seg l = 0) then None
              else Some (count_occ_of seg l)
    end.
Proof.
  revert m0. induction l as [|x l IH]; intros m0; cbn [foldl].
  - change (count_occ_of seg []) with 0.
    destruct (m0 !! seg); [f_equal; lia|done].
  - rewrite IH, count_occ_of_cons.
    destruct (decide (x = seg)) as [->|Hne].
    + destruct (m0 !! seg) as [c|] eqn:E; rewrite lookup_insert_eq;
        [f_equal; lia|].
      destruct (decide (1 + count_occ_of seg l = 0)); [lia|]. f_equal.
    + destruct (m0 !! x) as [c|] eqn:E; rewrite lookup_insert_ne by done;
        simpl; done.
Qed.

Lemma count_occ_of_zero `{EqDecision A} (x : A) (l : list A) :
  count_occ_of x l = 0 <-> x ∉ l.
Proof.
  induction l as [|y l IH]; [split; [intros _ ?%elem_of_nil|]; done|].
  rewrite count_occ_of_cons, not_elem_of_cons.
  destruct (decide (y = x)) as [->|Hne].
  - split; [lia|]. intros [? _]. done.
  - rewrite <- IH. split; [intros H; split; [congruence|lia]|intros [_ H]; lia].
Qed.

(** X24: [createSortedSegmentList(w)] lists every pair of neighbouring
    symbols of [w] exactly once, together with the number of positions
    at which it occurs, in descending order of the tuples
    [(count, (a, b))]; the list does not depend on the order in which the
    dict of counts is iterated. *)
Theorem createSortedSegmentList_counts_sorted
    (pyiter : forall A : Type, list A -> list A)
    (pyiter_perm : forall (A : Type) (l : list A), pyiter A l ≡ₚ l)
    (w : list str) :
  (forall c seg,
     (c, seg) ∈ createSortedSegmentList pyiter w <->
     seg ∈ adjacent_pairs w /\ c = count_occ_of seg (adjacent_pairs w))
  /\ NoDup (snd <$> createSortedSegmentList pyiter w)
  /\ Sorted (fun x y => segment_le y x) (createSortedSegmentList pyiter w)
  /\ forall pyiter' : forall A : Type, list A -> list A,
       (forall (A : Type) (l : list A), pyiter' A l ≡ₚ l) ->
       createSortedSegmentList pyiter' w = createSortedSegmentList pyiter w.
Proof.
  unfold createSortedSegmentList.
  set (m := foldl (fun (m : gmap (str * str) nat) segment =>
                     match m !! segment with
                     | Some c => <[segment := c + 1]> m
                     | None => <[segment := 1]> m
                     end) ∅ (adjacent_pairs w)).
  assert (forall py : forall A : Type, list A -> list A,
            (forall (A : Type) (l : list A), py A l ≡ₚ l) ->
            merge_sort segment_le
              ((fun '(segment, c) => (c, segment)) <$> dict_items py m)
            ≡ₚ (fun '(segment, c) => (c, segment)) <$> map_to_list m)
    as Hperm.
  { intros py Hpy. rewrite merge_sort_Permutation. unfold dict_items.
    by rewrite Hpy. }
  split; [|split; [|split]].
  - intros c seg.
    rewrite elem_of_reverse, (Hperm pyiter pyiter_perm), list_elem_of_fmap.
    split.
    + intros ([seg' c'] & [= <- <-] & Hin%elem_of_map_to_list).
      unfold m in Hin. rewrite segmentCounts_lookup, lookup_empty in Hin.
      destruct (decide (count_occ_of seg (adjacent_pairs w) = 0)) as [|Hne];
        [done|].
      injection Hin as <-. split; [|done].
      destruct (decide (seg ∈ adjacent_pairs w)) as [|Hnin]; [done|].
      by apply count_occ_of_zero in Hnin.
    + intros [Hin ->]. exists (seg, count_occ_of seg (adjacent_pairs w)).
      split; [done|]. apply elem_of_map_to_list. unfold m.
      rewrite segmentCounts_lookup, lookup_empty.
      destruct (decide (count_occ_of seg (adjacent_pairs w) = 0)) as [H0|];
        [|done].
      by apply count_occ_of_zero in H0.
  - rewrite reverse_Permutation, (Hperm pyiter pyiter_perm).
    rewrite <- list_fmap_compose.
    assert ((snd ∘ (fun '(segment, c) => (c, segment)))
            <$> map_to_list m = fst <$> map_to_list m) as ->.
    { apply list_fmap_ext. by intros i [seg c] _. }
    apply NoDup_fst_map_to_list.
  - apply (Sorted_reverse segment_le), Sorted_merge_sort. apply _.
  - intros pyiter' pyiter_perm'. f_equal.
    apply (Sorted_unique segment_le).
    + apply Sorted_merge_sort. apply _.
    + apply Sorted_merge_sort. apply _.
    + by rewrite (Hperm pyiter pyiter_perm), (Hperm pyiter' pyiter_perm').
Qed.

Lemma createSortedSegmentList_counts_sorted_witness :
  (forall c seg,
     (c, seg) ∈ createSortedSegmentList listed_order (chars (py "abcab")) <->
     seg ∈ adjacent_pairs (chars (py "abcab"))
     /\ c = count_occ_of seg (adjacent_pairs (chars (py "abcab"))))
  /\ NoDup (snd <$> createSortedSegmentList listed_order (chars (py "abcab")))
  /\ Sorted (fun x y => segment_le y x)
       (createSortedSegmentList listed_order (chars (py "abcab")))
  /\ forall pyiter' : forall A : Type, list A -> list A,
       (forall (A : Type) (l : list A), pyiter' A l ≡ₚ l) ->
       createSortedSegmentList pyiter' (chars (py "abcab"))
       = createSortedSegmentList listed_order (chars (py "abcab")).
Proof.
  apply (createSortedSegmentList_counts_sorted listed_order listed_order_perm
           (chars (py "abcab"))).
Defined.

(** *** The subgroups of the arrangement pass *)

Lemma subgroup_flags (D : gmap (Z * Z) nat) (id : nat)
    (l : list (Z * Z * nat)) :
  forall b1 b2 : bool,
    let r :=
      foldl (fun '(inD, ninD) '(x, y) =>
               if decide (y = id) then
                 (if decide (is_Some (D !! x)) then true else inD,
                  if decide (~ is_Some (D !! x)) then true else ninD)
               else (inD, ninD))
            (b1, b2) l in
    (r.1 = true <->
       b1 = true \/ exists x, (x, id) ∈ l /\ is_Some (D !! x))
    /\ (r.2 = true <->
          b2 = true \/ exists x, (x, id) ∈ l /\ D !! x = None).
Proof.
  induction l as [|[x y] l IH]; intros b1 b2; cbn [foldl].
  - simpl. split; (split; [by left|]);
      (intros [?|(x & ?%elem_of_nil & _)]; done).
  - cbv zeta in IH |- *.
    destruct (decide (y = id)) as [->|Hne].
    + destruct (IH (if decide (is_Some (D !! x)) then true else b1)
                   (if decide (~ is_Some (D !! x)) then true else b2))
        as [-> ->].
      split.
      * destruct (decide (is_Some (D !! x))) as [Hx|Hx].
        -- split; [intros _|by left]. right. exists x. split; [left|done].
        -- split.
           ++ intros [?|(x' & Hin & Hx')]; [by left|]. right. exists x'.
              split; [by right|done].
           ++ intros [?|(x' & [[= -> ]|Hin]%elem_of_cons & Hx')];
                [by left|done|]. right. by exists x'.
      * destruct (decide (~ is_Some (D !! x))) as [Hx|Hx].
        -- split; [intros _|by left]. right. exists x. split; [left|].
           by apply eq_None_not_Some.
        -- split.
           ++ intros [?|(x' & Hin & Hx')]; [by left|]. right. exists x'.
              split; [by right|done].
           ++ intros [?|(x' & [[= -> ]|Hin]%elem_of_cons & Hx')];
                [by left| |].
              ** destruct Hx. by apply eq_None_not_Some.
              ** right. by exists x'.
    + destruct (IH b1 b2) as [-> ->].
      split; (split; (intros [?|(x' & Hin & Hx')]; [by left|right])).
      * exists x'. split; [by right|done].
      * apply elem_of_cons in Hin as [[= -> ->]|Hin]; [done|]. by exists x'.
      * exists x'. split; [by right|done].
      * apply elem_of_cons in Hin as [[= -> ->]|Hin]; [done|]. by exists x'.
Qed.

(** X25: [subgroup(a, assignments, D)] raises [KeyError] when [a] has no
    id.  Otherwise it looks at the occurrences that share the id of
    [a]: it answers "irregular" when some of them are keys of [D] and
    some are not, "unselected" when none is, "selected" when all are; it
    never falls off its end, whatever the iteration order. *)
Theorem subgroup_classifies
    (pyiter : forall A : Type, list A -> list A)
    (pyiter_perm : forall (A : Type) (l : list A), pyiter A l ≡ₚ l)
    (a : Z * Z) (assignments D : gmap (Z * Z) nat) :
  (assignments !! a = None ->
   subgroup pyiter a assignments D = Raise KeyError)
  /\ (forall id, assignments !! a = Some id ->
        exists c,
          subgroup pyiter a assignments D = Ret c
          /\ (c = irregular \/ c = unselected \/ c = selected)
          /\ (c = irregular <->
                (exists x, assignments !! x = Some id /\ is_Some (D !! x))
                /\ (exists x, assignments !! x = Some id /\ D !! x = None))
          /\ (c = unselected <->
                ~ exists x, assignments !! x = Some id /\ is_Some (D !! x))
          /\ (c = selected <->
                ~ exists x, assignments !! x = Some id /\ D !! x = None)).
Proof.
  split.
  { intros Hnone. unfold subgroup, getitem. by rewrite Hnone. }
  intros id Hid. unfold subgroup. rewrite (getitem_Ret _ _ _ Hid).
  cbn [mbind res_bind].
  pose proof (subgroup_flags D id (dict_items pyiter assignments) false false)
    as Hflags.
  cbv zeta in Hflags.
  destruct (foldl _ (false, false) (dict_items pyiter assignments))
    as [inD ninD].
  destruct Hflags as [HinD HninD]. cbn [fst snd] in HinD, HninD.
  set (PinD := exists x, assignments !! x = Some id /\ is_Some (D !! x)).
  set (PninD := exists x, assignments !! x = Some id /\ D !! x = None).
  assert (inD = true <-> PinD) as HinD'.
  { rewrite HinD. unfold PinD. split.
    - intros [?|(x & Hin%(elem_of_dict_items pyiter pyiter_perm) & Hx)];
        [done|]. by exists x.
    - intros (x & Hin & Hx). right. exists x.
      split; [by apply (elem_of_dict_items pyiter pyiter_perm)|done]. }
  assert (ninD = true <-> PninD) as HninD'.
  { rewrite HninD. unfold PninD. split.
    - intros [?|(x & Hin%(elem_of_dict_items pyiter pyiter_perm) & Hx)];
        [done|]. by exists x.
    - intros (x & Hin & Hx). right. exists x.
      split; [by apply (elem_of_dict_items pyiter pyiter_perm)|done]. }
  assert (PinD \/ PninD) as Hsome.
  { destruct (D !! a) as [d|] eqn:Ha; [left|right]; exists a; by rewrite ?Ha. }
  eexists. split; [done|].
  destruct inD, ninD; simpl.
  - split; [by left|]. split; [|split]; [|split; [done|]..].
    + split; [intros _|done]. split; [by apply HinD'|by apply HninD'].
    + intros Hn. destruct Hn. by apply HinD'.
    + intros Hn. destruct Hn. by apply HninD'.
  - split; [by do 2 right|]. split; [|split].
    + split; [done|]. intros [_ Hn]. apply HninD' in Hn. done.
    + split; [done|]. intros Hn. destruct Hn. by apply HinD'.
    + split; [intros _|done]. intros Hn. apply HninD' in Hn. done.
  - split; [by right; left|]. split; [|split].
    + split; [done|]. intros [Hn _]. apply HinD' in Hn. done.
    + split; [intros _|done]. intros Hn. apply HinD' in Hn. done.
    + split; [done|]. intros Hn. destruct Hn. by apply HninD'.
  - exfalso. destruct Hsome as [H|H]; [apply HinD' in H|apply HninD' in H];
      done.
Qed.

Lemma subgroup_classifies_witness :
  let assignments : gmap (Z * Z) nat :=
    <[(0, 1)%Z := 0]> (<[(3, 4)%Z := 0]> (<[(2, 3)%Z := 2]> ∅)) in
  let D : gmap (Z * Z) nat := <[(0, 1)%Z := 0]> ∅ in
  (assignments !! (3, 4)%Z = None ->
   subgroup listed_order (3, 4)%Z assignments D = Raise KeyError)
  /\ (forall id, assignments !! (3, 4)%Z = Some id ->
        exists c,
          subgroup listed_order (3, 4)%Z assignments D = Ret c
          /\ (c = irregular \/ c = unselected \/ c = selected)
          /\ (c = irregular <->
                (exists x, assignments !! x = Some id /\ is_Some (D !! x))
                /\ (exists x, assignments !! x = Some id /\ D !! x = None))
          /\ (c = unselected <->
                ~ exists x, assignments !! x = Some id /\ is_Some (D !! x))
          /\ (c = selected <->
                ~ exists x, assignments !! x = Some id /\ D !! x = None)).
Proof.
  apply (subgroup_classifies listed_order listed_order_perm).
Defined.

(** X26: the search of [group_contents] for another id of [seg] never
    finds one, so [group_contents(seg, ...)] only repeats
    [subgroup(seg, ...)]: it answers "irregular" or "unselected" when
    [subgroup] does and falls off its end otherwise.  In particular it
    returns [None] whenever [subgroup(seg, ...)] is "selected", which is
    the only case in which [assignment] calls it. *)
Theorem group_contents_repeats_subgroup
    (pyiter : forall A : Type, list A -> list A)
    (pyiter_perm : forall (A : Type) (l : list A), pyiter A l ≡ₚ l)
    (seg : Z * Z) (w : list str) (assignments dictionary : gmap (Z * Z) nat) :
  group_contents pyiter seg w assignments dictionary
  = (c ← subgroup pyiter seg assignments dictionary;
     Ret (if decide (c = irregular) then irregular
          else if decide (c = unselected) then unselected
          else no_label))
  /\ (subgroup pyiter seg assignments dictionary = Ret selected ->
      group_contents pyiter seg w assignments dictionary = Ret no_label).
Proof.
  assert (group_contents pyiter seg w assignments dictionary
          = (c ← subgroup pyiter seg assignments dictionary;
             Ret (if decide (c = irregular) then irregular
                  else if decide (c = unselected) then unselected
                  else no_label))) as Heq.
  { unfold group_contents.
    destruct (forM_invariant (fun o => o = seg)
                (dict_items pyiter assignments)
                (fun '(x, y) otherseg =>
                   if decide (x.1 = seg.1 /\ x.2 = seg.2) then
                     a ← getitem assignments seg;
                     Ret (if decide (y <> a) then x else otherseg)
                   else Ret otherseg) seg) as (o & -> & ->); [done| |].
    { intros [x y] o Hxy ->.
      apply (elem_of_dict_items pyiter pyiter_perm) in Hxy.
      destruct (decide _) as [[H1 H2]|]; [|eauto].
      assert (x = seg) as -> by (destruct x, seg; simpl in *; congruence).
      rewrite (getitem_Ret _ _ _ Hxy). cbn [mbind res_bind].
      destruct (decide (y <> y)); eauto. }
    cbn [mbind res_bind].
    destruct (subgroup pyiter seg assignments dictionary) as [c|e];
      cbn [mbind res_bind]; [|done].
    destruct (decide (c = irregular)); [done|].
    destruct (decide (c = unselected)); done. }
  split; [done|]. intros Hsel. rewrite Heq, Hsel. done.
Qed.

Lemma group_contents_repeats_subgroup_witness :
  let assignments : gmap (Z * Z) nat :=
    <[(0, 1)%Z := 0]> (<[(3, 4)%Z := 0]> ∅) in
  let dictionary : gmap (Z * Z) nat := assignments in
  group_contents listed_order (0, 1)%Z (chars (py "abcab")) assignments
    dictionary
  = (c ← subgroup listed_order (0, 1)%Z assignments dictionary;
     Ret (if decide (c = irregular) then irregular
          else if decide (c = unselected) then unselected
          else no_label))
  /\ (subgroup listed_order (0, 1)%Z assignments dictionary = Ret selected ->
      group_contents listed_order (0, 1)%Z (chars (py "abcab")) assignments
        dictionary = Ret no_label).
Proof.
  apply (group_contents_repeats_subgroup listed_order listed_order_perm).
Defined.

Lemma assignment_free_fold (d1 : nat) (l : list (Z * Z)) :
  forall As D : gmap (Z * Z) nat,
    let r := foldl (fun '(assignments, D) x =>
                      (<[x := d1]> assignments, <[x := d1]> D))
                   (As, D) l in
    (forall x, r.1 !! x = if decide (x ∈ l) then Some d1 else As !! x)
    /\ (forall x, r.2 !! x = if decide (x ∈ l) then Some d1 else D !! x).
Proof.
  induction l as [|x0 l IH]; intros As D; cbn [foldl].
  - split; intros x; (destruct (decide (x ∈ [])) as [?%elem_of_nil|]; done).
  - cbv zeta in IH |- *.
    destruct (IH (<[x0 := d1]> As) (<[x0 := d1]> D)) as [H1 H2].
    split; intros x; rewrite ?H1, ?H2.
    + destruct (decide (x ∈ l)) as [Hin|Hnin].
      * rewrite decide_True; [done|by right].
      * destruct (decide (x = x0)) as [->|Hne].
        -- rewrite lookup_insert_eq, decide_True; [done|left].
        -- rewrite lookup_insert_ne by done.
           rewrite decide_False; [done|]. by intros [?|?]%elem_of_cons.
    + destruct (decide (x ∈ l)) as [Hin|Hnin].
      * rewrite decide_True; [done|by right].
      * destruct (decide (x = x0)) as [->|Hne].
        -- rewrite lookup_insert_eq, decide_True; [done|left].
        -- rewrite lookup_insert_ne by done.
           rewrite decide_False; [done|]. by intros [?|?]%elem_of_cons.
Qed.

(** X27: called on the free occurrences, [assignment] gives every one
    of them the id [d1], in [assignments] and in the dict it returns,
    and changes nothing else; the result does not depend on the
    iteration order. *)
Theorem assignment_free_labels
    (pyiter : forall A : Type, list A -> list A)
    (pyiter_perm : forall (A : Type) (l : list A), pyiter A l ≡ₚ l)
    (Free Left Right : gset (Z * Z)) (assignments : gmap (Z * Z) nat)
    (d1 d2 : nat) (w : list str) (dictionary : gmap (Z * Z) nat) :
  exists assignments' D',
    assignment pyiter IsFree Free Left Right assignments d1 d2 w dictionary
    = Ret (assignments', D')
    /\ (forall x, assignments' !! x
                  = if decide (x ∈ Free) then Some d1 else assignments !! x)
    /\ (forall x, D' !! x = if decide (x ∈ Free) then Some d1 else None).
Proof.
  cbn [assignment].
  pose proof (assignment_free_fold d1 (set_iter pyiter Free) assignments ∅)
    as Hfold.
  cbv zeta in Hfold.
  destruct (foldl _ (assignments, ∅) (set_iter pyiter Free)) as [As' D'].
  destruct Hfold as [H1 H2]. cbn [fst snd] in H1, H2.
  exists As', D'. split; [done|]. split; intros x; rewrite ?H1, ?H2.
  - destruct (decide (x ∈ set_iter pyiter Free))
      as [Hin%(elem_of_set_iter pyiter pyiter_perm)
         |Hnin%(not_iff_compat (elem_of_set_iter pyiter pyiter_perm _ _))].
    + by rewrite decide_True.
    + by rewrite decide_False.
  - destruct (decide (x ∈ set_iter pyiter Free))
      as [Hin%(elem_of_set_iter pyiter pyiter_perm)
         |Hnin%(not_iff_compat (elem_of_set_iter pyiter pyiter_perm _ _))].
    + by rewrite decide_True.
    + rewrite decide_False by done. apply lookup_empty.
Qed.

Lemma assignment_free_labels_witness :
  exists assignments' D',
    assignment listed_order IsFree {[ (0, 1)%Z; (3, 4)%Z ]} ∅ ∅ ∅ 0 1
      (chars (py "abcab")) ∅
    = Ret (assignments', D')
    /\ (forall x, assignments' !! x
                  = if decide (x ∈ ({[ (0, 1)%Z; (3, 4)%Z ]} : gset (Z * Z)))
                    then Some 0 else (∅ : gmap (Z * Z) nat) !! x)
    /\ (forall x, D' !! x
                  = if decide (x ∈ ({[ (0, 1)%Z; (3, 4)%Z ]} : gset (Z * Z)))
                    then Some 0 else None).
Proof.
  apply (assignment_free_labels listed_order listed_order_perm).
Defined.
